(** * Rendering pipeline of the 2D multiplayer survival client

    A shallow embedding of the entity classifier ([utils/typeGuards]), the
    viewport culler and layer splitter ([hooks/useEntityFiltering] and the
    inline copy in [components/GameCanvas]), the campfire particle engine
    ([hooks/useCampfireParticles]) and the player part of
    [renderYSortedEntities] ([utils/renderingUtils]).

    Conventions of the embedding.
    - JavaScript numbers are exact rationals ([Q]); NaN and the
      infinities of IEEE doubles are not represented.  Rounding is
      represented where a statement is decided by it: the emission
      accumulator is computed in binary64 ([Binary64]); elsewhere the
      arithmetic is exact.
    - A replicated row is a record whose fields are optional: [None] is a
      field that is absent from the object ([undefined]); a present field
      carries a value of the type the generated bindings give it, so
      [typeof f === 'number'] on a numeric field and
      [typeof f !== 'undefined'] both mean that the field is present.
    - A JavaScript [Map] that is only iterated is the list of its entries
      in insertion order; the mutable [Map] refs of the particle engine,
      which are read and written by key, are [gmap string _]. *)

From Stdlib Require Import QArith Qround Qminmax Qabs Qpower ZArith List Bool Lia Lqa.
From Stdlib Require Import Sorting.Sorted Sorting.Permutation.
From stdpp Require Import gmap strings pretty.
Import ListNotations.

Local Open Scope Q_scope.

(** ** JavaScript values *)

(** [typeof v !== 'undefined'] on an optional field. *)
Definition defined {A : Type} (v : option A) : bool :=
  match v with Some _ => true | None => false end.

(** [typeof v === 'undefined']. *)
Definition undefined {A : Type} (v : option A) : bool := negb (defined v).

(** [typeof v === 'number'] on a numeric field. *)
Definition isNumber (v : option Q) : bool := defined v.

(** [typeof v === 'boolean'] on a boolean field. *)
Definition isBoolean (v : option bool) : bool := defined v.

(** Truthiness of an optional boolean ([undefined] is falsy). *)
Definition truthy (v : option bool) : bool :=
  match v with Some b => b | None => false end.

(** Strict comparisons of JavaScript numbers. *)
Definition Qlt_bool (a b : Q) : bool := negb (Qle_bool b a).
Definition Qgt_bool (a b : Q) : bool := Qlt_bool b a.

(** ** Entity records *)

(** The union of the fields that the client reads from the nine replicated
    tables. *)
Record Entity : Type := mkEntity {
  identity : option string;          (* Player: identity (hex string) *)
  positionX : option Q;              (* Player *)
  positionY : option Q;              (* Player *)
  isDead : option bool;              (* Player *)
  jumpStartTimeMs : option Z;        (* Player *)
  direction : option string;         (* Player *)
  treeType : option string;          (* Tree *)
  posX : option Q;
  posY : option Q;
  health : option Q;                 (* Tree, Stone *)
  placedBy : option string;          (* Campfire, WoodenStorageBox, SleepingBag *)
  itemDefId : option Z;              (* DroppedItem *)
  isBurning : option bool;           (* Campfire *)
  isPlayerInHotZone : option bool;   (* Campfire *)
  id : option Z;
  respawnAt : option Q;              (* Mushroom, Corn *)
  slot_instance_id_0 : option Z;     (* looked up by isSleepingBag *)
  entityTypeTag : option string      (* __entityType, attached by GameCanvas *)
}.

(** ** Type guards (utils/typeGuards.ts) *)

Definition isPlayer (entity : Entity) : bool :=
  defined (identity entity) && isNumber (positionX entity).

Definition isTree (entity : Entity) : bool :=
  defined (treeType entity) && isNumber (posX entity).

Definition isStone (entity : Entity) : bool :=
  isNumber (health entity) &&
  isNumber (posX entity) && isNumber (posY entity) &&
  undefined (identity entity) && undefined (treeType entity) &&
  undefined (placedBy entity) && undefined (itemDefId entity).

Definition isCampfire (entity : Entity) : bool :=
  defined (placedBy entity) && isNumber (posX entity) &&
  isNumber (posY entity) && isBoolean (isBurning entity).

Definition isMushroom (entity : Entity) : bool :=
  isNumber (posX entity) &&
  isNumber (posY entity) &&
  defined (id entity) &&
  undefined (identity entity) &&
  undefined (treeType entity) &&
  undefined (health entity) &&
  undefined (placedBy entity) &&
  undefined (itemDefId entity).

Definition isCorn (entity : Entity) : bool :=
  isNumber (posX entity) &&
  isNumber (posY entity) &&
  defined (id entity) &&
  undefined (identity entity) &&
  undefined (treeType entity) &&
  undefined (health entity) &&
  undefined (placedBy entity) &&
  undefined (itemDefId entity).

Definition isWoodenStorageBox (entity : Entity) : bool :=
  isNumber (posX entity) &&
  isNumber (posY entity) &&
  defined (placedBy entity) &&
  undefined (isBurning entity).

Definition isDroppedItem (entity : Entity) : bool :=
  isNumber (posX entity) && isNumber (posY entity) &&
  defined (itemDefId entity) &&
  undefined (identity entity) &&
  undefined (treeType entity) &&
  undefined (health entity) &&
  undefined (placedBy entity).

Definition isSleepingBag (entity : Entity) : bool :=
  isNumber (posX entity) &&
  isNumber (posY entity) &&
  defined (placedBy entity) &&
  undefined (isBurning entity) &&
  undefined (slot_instance_id_0 entity).

(** The nine predicates, in the order of the specification. *)
Definition kindPredicates : list (Entity -> bool) :=
  [isPlayer; isTree; isStone; isCampfire; isMushroom; isCorn;
   isDroppedItem; isWoodenStorageBox; isSleepingBag].

(** Number of predicates that accept a record. *)
Definition matchCount (entity : Entity) : nat :=
  length (List.filter (fun p => p entity) kindPredicates).

(** A placed sleeping bag as the server replicates it: a position, an
    owner and an id, no [isBurning] and no slot field. *)
Definition sampleSleepingBag : Entity :=
  {| identity := None; positionX := None; positionY := None; isDead := None;
     jumpStartTimeMs := None; direction := None; treeType := None;
     posX := Some 100; posY := Some 200; health := None;
     placedBy := Some "c200a1"%string; itemDefId := None; isBurning := None;
     isPlayerInHotZone := None; id := Some 7%Z; respawnAt := None;
     slot_instance_id_0 := None; entityTypeTag := None |}.

(** ** Viewport and replicated tables *)

Record ViewportBounds : Type := mkBounds {
  viewMinX : Q;
  viewMaxX : Q;
  viewMinY : Q;
  viewMaxY : Q
}.

(** [gameConfig.tileSize]. *)
Definition tileSize : Q := 48.
(** [gameConfig.spriteWidth]. *)
Definition spriteWidth : Q := 48.

Definition getViewportBounds
    (cameraOffsetX cameraOffsetY canvasWidth canvasHeight : Q) : ViewportBounds :=
  let buffer := tileSize * 2 in
  {| viewMinX := - cameraOffsetX - buffer;
     viewMaxX := - cameraOffsetX + canvasWidth + buffer;
     viewMinY := - cameraOffsetY - buffer;
     viewMaxY := - cameraOffsetY + canvasHeight + buffer |}.

(** A [Map<string, V>] that is only iterated: its entries in insertion
    order. *)
Definition JsMap (V : Type) : Type := list (string * V).

(** [Array.from(m.values())]. *)
Definition values {V : Type} (m : JsMap V) : list V := map snd m.

(** The nine replicated tables handed to the filtering code. *)
Record Tables : Type := mkTables {
  players : JsMap Entity;
  trees : JsMap Entity;
  stones : JsMap Entity;
  campfires : JsMap Entity;
  mushrooms : JsMap Entity;
  corns : JsMap Entity;
  droppedItems : JsMap Entity;
  woodenStorageBoxes : JsMap Entity;
  sleepingBags : JsMap Entity
}.

(** The position and the approximate size that [isEntityInView] assigns
    in one branch of its chain. *)
Record Extent : Type := mkExtent {
  ex : option Q;
  ey : option Q;
  ewidth : Q;
  eheight : Q
}.

(** The AABB overlap check at the end of [isEntityInView]. *)
Definition aabbOverlap (x y width height : Q) (bounds : ViewportBounds) : bool :=
  Qgt_bool (x + width / 2) (viewMinX bounds) &&
  Qlt_bool (x - width / 2) (viewMaxX bounds) &&
  Qgt_bool (y + height / 2) (viewMinY bounds) &&
  Qlt_bool (y - height / 2) (viewMaxY bounds).

(** [e.health > 0] ([undefined > 0] is false). *)
Definition healthPositive (e : Entity) : bool :=
  match health e with Some h => Qgt_bool h 0 | None => false end.

(** [e.respawnAt === null || e.respawnAt === undefined]. *)
Definition noRespawnPending (e : Entity) : bool := undefined (respawnAt e).

(** ** Array.prototype.sort *)

(** The built-in sort with a numeric comparator.  ECMAScript requires the
    sort to be stable and, for a consistent comparator, to return the
    elements in ascending order; a stable insertion sort has exactly this
    input/output behaviour.  [x] is placed before the first element that
    does not compare strictly below it, so among equal elements the one
    that came first stays first. *)
Fixpoint sortInsert {A : Type} (compareFn : A -> A -> Q) (x : A) (l : list A) : list A :=
  match l with
  | [] => [x]
  | y :: rest =>
      if Qle_bool (compareFn x y) 0 then x :: y :: rest
      else y :: sortInsert compareFn x rest
  end.

Fixpoint jsSort {A : Type} (compareFn : A -> A -> Q) (l : list A) : list A :=
  match l with
  | [] => []
  | x :: rest => sortInsert compareFn x (jsSort compareFn rest)
  end.

(** [a - b] as a comparator result: a NaN result (an operand that is not a
    number) is read by the sort as [+0]. *)
Definition compareResult (a b : option Q) : Q :=
  match a, b with
  | Some ya, Some yb => ya - yb
  | _, _ => 0
  end.

(** ** Entity kinds *)

Inductive Kind : Type :=
| KPlayer | KTree | KStone | KCampfire | KMushroom | KCorn
| KDroppedItem | KWoodenStorageBox | KSleepingBag.

(** The fixed, approximate width and height that the culler uses for a
    kind. *)
Definition kindWidth (k : Kind) : Q :=
  match k with
  | KPlayer => 64 | KTree => 96 | KStone => 64 | KCampfire => 64
  | KMushroom => 32 | KCorn => 32 | KDroppedItem => 32
  | KWoodenStorageBox => 64 | KSleepingBag => 64
  end.

Definition kindHeight (k : Kind) : Q :=
  match k with
  | KPlayer => 64 | KTree => 128 | KStone => 64 | KCampfire => 64
  | KMushroom => 32 | KCorn => 48 | KDroppedItem => 32
  | KWoodenStorageBox => 64 | KSleepingBag => 32
  end.

(** The position fields of a kind: [positionX]/[positionY] for players,
    [posX]/[posY] for the rest. *)
Definition kindCenterX (k : Kind) (e : Entity) : option Q :=
  match k with KPlayer => positionX e | _ => posX e end.
Definition kindCenterY (k : Kind) (e : Entity) : option Q :=
  match k with KPlayer => positionY e | _ => posY e end.

(** The viewport test of the specification: the box of half-extents
    [width / 2], [height / 2] around [(x, y)] overlaps the bounds when
    [entityMax > boundsMin] and [entityMin < boundsMax] on both axes. *)
Definition strictOverlap (x y width height : Q) (bounds : ViewportBounds) : Prop :=
  viewMinX bounds < x + width / 2 /\ x - width / 2 < viewMaxX bounds /\
  viewMinY bounds < y + height / 2 /\ y - height / 2 < viewMaxY bounds.

(** What both copies of [isEntityInView] are to compute, given the kind
    their chain settles on: the kind's box around the entity's position
    passes the strict overlap test. *)
Definition inViewSpec (e : Entity) (bounds : ViewportBounds) (kind : option Kind) : Prop :=
  exists k x y,
    kind = Some k /\ kindCenterX k e = Some x /\ kindCenterY k e = Some y /\
    strictOverlap x y (kindWidth k) (kindHeight k) bounds.






(** The numeric value of a Y key that is present. *)
Definition numberOf (v : option Q) : Q :=
  match v with Some q => q | None => 0 end.

(** [a] is painted no later than [b]: ascending world Y. *)
Definition ascending {A : Type} (key : A -> Q) (a b : A) : Prop := key a <= key b.

(** The entities of a list whose key equals [q], in list order. *)
Definition withKey {A : Type} (key : A -> Q) (q : Q) (l : list A) : list A :=
  List.filter (fun e => Qeq_bool (key e) q) l.

(** ** hooks/useEntityFiltering.ts *)

Module EntityFiltering.

(** The if / else-if chain of [isEntityInView]: the first guard that
  accepts the entity fixes [x], [y], [width] and [height]; [None] is
  the final [return false] for an unknown entity type. *)
Definition resolveExtent (entity : Entity) : option Extent :=
if isPlayer entity then
  Some (mkExtent (positionX entity) (positionY entity) 64 64)
else if isTree entity then
  Some (mkExtent (posX entity) (posY entity) 96 128)
else if isStone entity then
  Some (mkExtent (posX entity) (posY entity) 64 64)
else if isCampfire entity then
  Some (mkExtent (posX entity) (posY entity) 64 64)
else if isMushroom entity then
  Some (mkExtent (posX entity) (posY entity) 32 32)
else if isDroppedItem entity then
  Some (mkExtent (posX entity) (posY entity) 32 32)
else if isWoodenStorageBox entity then
  Some (mkExtent (posX entity) (posY entity) 64 64)
else if isSleepingBag entity then
  Some (mkExtent (posX entity) (posY entity) 64 32)
else if isCorn entity then
  Some (mkExtent (posX entity) (posY entity) 32 48)
else None.

Definition isEntityInView (entity : Entity) (bounds : ViewportBounds) : bool :=
match resolveExtent entity with
| None => false
| Some e =>
    match ex e, ey e with
    | Some x, Some y => aabbOverlap x y (ewidth e) (eheight e) bounds
    | _, _ => false   (* x === undefined || y === undefined *)
    end
end.

(** The kind that the chain of [isEntityInView] settles on: the first
  guard, in the order of the chain, that accepts the entity. *)
Definition kindOf (entity : Entity) : option Kind :=
if isPlayer entity then Some KPlayer
else if isTree entity then Some KTree
else if isStone entity then Some KStone
else if isCampfire entity then Some KCampfire
else if isMushroom entity then Some KMushroom
else if isDroppedItem entity then Some KDroppedItem
else if isWoodenStorageBox entity then Some KWoodenStorageBox
else if isSleepingBag entity then Some KSleepingBag
else if isCorn entity then Some KCorn
else None.

Section Filtering.
Variable t : Tables.
Variable viewBounds : ViewportBounds.

Definition visibleMushrooms : list Entity :=
  List.filter (fun e => noRespawnPending e && isEntityInView e viewBounds)
          (values (mushrooms t)).

Definition visibleCorns : list Entity :=
  List.filter (fun e => noRespawnPending e && isEntityInView e viewBounds)
          (values (corns t)).

Definition visibleDroppedItems : list Entity :=
  List.filter (fun e => isEntityInView e viewBounds) (values (droppedItems t)).

Definition visibleCampfires : list Entity :=
  List.filter (fun e => isEntityInView e viewBounds) (values (campfires t)).

Definition visiblePlayers : list Entity :=
  List.filter (fun e => isEntityInView e viewBounds) (values (players t)).

Definition visibleTrees : list Entity :=
  List.filter (fun e => healthPositive e && isEntityInView e viewBounds)
          (values (trees t)).

Definition visibleStones : list Entity :=
  List.filter (fun e => healthPositive e && isEntityInView e viewBounds)
          (values (stones t)).

Definition visibleWoodenStorageBoxes : list Entity :=
  List.filter (fun e => isEntityInView e viewBounds)
          (values (woodenStorageBoxes t)).

Definition visibleSleepingBags : list Entity :=
  List.filter (fun e => isEntityInView e viewBounds) (values (sleepingBags t)).

(** Group entities for rendering. *)
Definition groundItems : list Entity :=
  visibleDroppedItems ++ visibleCampfires ++ visibleSleepingBags.

(** The comparator of the Y sort. *)
Definition yOf (a : Entity) : option Q :=
  if isPlayer a then positionY a else posY a.

Definition compareY (a b : Entity) : Q := compareResult (yOf a) (yOf b).

Definition ySortedInput : list Entity :=
  visiblePlayers ++ visibleTrees ++
  List.filter healthPositive visibleStones ++
  visibleWoodenStorageBoxes.

Definition ySortedEntities : list Entity := jsSort compareY ySortedInput.
End Filtering.

End EntityFiltering.

(** ** components/GameCanvas.tsx (inline filtering) *)

Module GameCanvas.

(** The chain of the inline [isEntityInView]: corn is tested before
  dropped items and there is no sleeping-bag branch. *)
Definition resolveExtent (entity : Entity) : option Extent :=
if isPlayer entity then
  Some (mkExtent (positionX entity) (positionY entity) 64 64)
else if isTree entity then
  Some (mkExtent (posX entity) (posY entity) 96 128)
else if isStone entity then
  Some (mkExtent (posX entity) (posY entity) 64 64)
else if isCampfire entity then
  Some (mkExtent (posX entity) (posY entity) 64 64)
else if isMushroom entity then
  Some (mkExtent (posX entity) (posY entity) 32 32)
else if isCorn entity then
  Some (mkExtent (posX entity) (posY entity) 32 48)
else if isDroppedItem entity then
  Some (mkExtent (posX entity) (posY entity) 32 32)
else if isWoodenStorageBox entity then
  Some (mkExtent (posX entity) (posY entity) 64 64)
else None.

Definition isEntityInView (entity : Entity) (bounds : ViewportBounds) : bool :=
match resolveExtent entity with
| None => false
| Some e =>
    match ex e, ey e with
    | Some x, Some y => aabbOverlap x y (ewidth e) (eheight e) bounds
    | _, _ => false
    end
end.

(** The kind that the inline chain settles on. *)
Definition kindOf (entity : Entity) : option Kind :=
if isPlayer entity then Some KPlayer
else if isTree entity then Some KTree
else if isStone entity then Some KStone
else if isCampfire entity then Some KCampfire
else if isMushroom entity then Some KMushroom
else if isCorn entity then Some KCorn
else if isDroppedItem entity then Some KDroppedItem
else if isWoodenStorageBox entity then Some KWoodenStorageBox
else None.

(** [{...e, __entityType: tag}]. *)
Definition withEntityType (tag : string) (e : Entity) : Entity :=
{| identity := identity e; positionX := positionX e; positionY := positionY e;
   isDead := isDead e; jumpStartTimeMs := jumpStartTimeMs e;
   direction := direction e; treeType := treeType e;
   posX := posX e; posY := posY e; health := health e;
   placedBy := placedBy e; itemDefId := itemDefId e;
   isBurning := isBurning e; isPlayerInHotZone := isPlayerInHotZone e;
   id := id e; respawnAt := respawnAt e;
   slot_instance_id_0 := slot_instance_id_0 e;
   entityTypeTag := Some tag |}.

Section Filtering.
(** GameCanvas receives eight tables; [sleepingBags t] is never read. *)
Variable t : Tables.
Variable viewBounds : ViewportBounds.

Definition visibleMushrooms : list Entity :=
  map (withEntityType "mushroom")
  (List.filter (fun e => noRespawnPending e && isEntityInView e viewBounds)
               (values (mushrooms t))).

Definition visibleCorns : list Entity :=
  map (withEntityType "corn")
  (List.filter (fun e => noRespawnPending e && isEntityInView e viewBounds)
               (values (corns t))).

Definition visibleDroppedItems : list Entity :=
  List.filter (fun e => isEntityInView e viewBounds) (values (droppedItems t)).

Definition visibleCampfires : list Entity :=
  List.filter (fun e => isEntityInView e viewBounds) (values (campfires t)).

Definition visibleTrees : list Entity :=
  List.filter (fun e => healthPositive e && isEntityInView e viewBounds)
          (values (trees t)).

Definition visibleStones : list Entity :=
  List.filter (fun e => healthPositive e && isEntityInView e viewBounds)
          (values (stones t)).

Definition visibleWoodenStorageBoxes : list Entity :=
  List.filter (fun e => isEntityInView e viewBounds)
          (values (woodenStorageBoxes t)).

Definition visiblePlayers : list Entity :=
  List.filter (fun p => negb (truthy (isDead p)) && isEntityInView p viewBounds)
          (values (players t)).

Definition groundItems : list Entity :=
  visibleMushrooms ++ visibleCorns ++ visibleDroppedItems ++ visibleCampfires.

Definition yOf (a : Entity) : option Q :=
  if isPlayer a then positionY a
  else if isWoodenStorageBox a then posY a else posY a.

Definition compareY (a b : Entity) : Q := compareResult (yOf a) (yOf b).

Definition ySortedInput : list Entity :=
  visiblePlayers ++ visibleTrees ++ visibleStones ++ visibleWoodenStorageBoxes.

Definition ySortedEntities : list Entity := jsSort compareY ySortedInput.
End Filtering.

End GameCanvas.

(** ** utils/renderingUtils.ts: the Y-sorted render loop *)

Module Rendering.

Definition MOVEMENT_POSITION_THRESHOLD : Q := 0.1.
Definition JUMP_DURATION_MS : Q := 400.
Definition JUMP_HEIGHT_PX : Q := 40.
Definition playerRadius : Q := spriteWidth / 2.

(** Checks if the mouse is hovering over the player.  A coordinate of
  the player that is missing makes [distSq] NaN, and the comparison
  false. *)
Definition isPlayerHovered (worldMouseX worldMouseY : option Q) (player : Entity) : bool :=
match worldMouseX, worldMouseY with
| Some mouseX, Some mouseY =>
    match positionX player, positionY player with
    | Some playerX, Some playerY =>
        let hoverDX := mouseX - playerX in
        let hoverDY := mouseY - playerY in
        let distSq := hoverDX * hoverDX + hoverDY * hoverDY in
        let radiusSq := playerRadius * playerRadius in
        Qlt_bool distSq radiusSq
    | _, _ => false
    end
| _, _ => false   (* skip hover detection if mouse coordinates are null *)
end.

(** The closed form of the jump arc. *)
Definition jumpArc (d h x : Q) : Q := (-4 * h / (d * d)) * x * (x - d).

(** [jumpOffset] as computed for a player at time [nowMs]. *)
Definition jumpOffset (nowMs : Q) (entity : Entity) : Q :=
match jumpStartTimeMs entity with
| Some jumpStartTime =>
    if (0 <? jumpStartTime)%Z then
      let elapsedJumpTime := nowMs - inject_Z jumpStartTime in
      if Qlt_bool elapsedJumpTime JUMP_DURATION_MS then
        jumpArc JUMP_DURATION_MS JUMP_HEIGHT_PX elapsedJumpTime
      else 0
    else 0
| None => 0
end.

(** [entity.identity.toHexString()]; the identity is present on every
  record that passed [isPlayer]. *)
Definition playerIdOf (entity : Entity) : string :=
match identity entity with Some s => s | None => ""%string end.

(** The [onPlayerHover] dispatch for one player: [Some (id, v)] is the
  call [onPlayerHover(id, v)], [None] is no call. *)
Definition hoverDispatch (worldMouseX worldMouseY : option Q)
  (hoveredPlayerIds : gset string) (entity : Entity) : option (string * bool) :=
let playerId := playerIdOf entity in
let currentlyHovered := isPlayerHovered worldMouseX worldMouseY entity in
let isPersistentlyHovered := bool_decide (playerId ∈ hoveredPlayerIds) in
if (defined worldMouseX && defined worldMouseY &&
      negb (Bool.eqb currentlyHovered isPersistentlyHovered))
   || (undefined worldMouseX && undefined worldMouseY && isPersistentlyHovered)
then
  let newHoverState :=
    if undefined worldMouseX || undefined worldMouseY then false
    else currentlyHovered in
  Some (playerId, newHoverState)
else None.

(** What one frame does on the canvas and to its caller, in order.  Pixel
  coordinates, the hit shake and the sprite frame are not represented. *)
Inductive RenderOp : Type :=
| OpPlayerHover (playerId : string) (isHovered : bool)
| OpEquippedItem (playerId : string) (jumpOffsetY : Q)
| OpShadow (playerId : string)
| OpDeathRotation (playerId : string) (clockwise : bool)
| OpSprite (playerId : string) (isMoving : bool) (jumpOffsetY : Q)
| OpNameTag (playerId : string)
| OpTree (tree : Entity)
| OpStone (stone : Entity)
| OpWoodenStorageBox (x y : option Q).

(** The sign of the quarter turn of a dead player: counter clockwise
  when facing up or right, clockwise otherwise. *)
Definition deathRotationClockwise (dir : option string) : bool :=
match dir with
| Some "up"%string | Some "right"%string => false
| _ => true
end.

(** [entity.direction === 'left' || entity.direction === 'up']: the
  equipped item is drawn behind the player. *)
Definition itemBehindPlayer (dir : option string) : bool :=
match dir with
| Some "left"%string | Some "up"%string => true
| _ => false
end.

(** [renderPlayer]: shadow only if alive, a quarter turn if dead (counter
  clockwise when facing up or right), the sprite, and the name tag if
  alive and hovered now or in the tracked hover state. *)
Definition renderPlayer (player : Entity) (isMoving isHovered : bool)
  (jumpOffsetY : Q) (shouldShowLabel : bool) : list RenderOp :=
let playerId := playerIdOf player in
(if negb (truthy (isDead player)) then [OpShadow playerId] else []) ++
(if truthy (isDead player) then
   [OpDeathRotation playerId (deathRotationClockwise (direction player))]
 else []) ++
[OpSprite playerId isMoving jumpOffsetY] ++
(if negb (truthy (isDead player)) && (isHovered || shouldShowLabel)
 then [OpNameTag playerId] else []).

(** [Math.abs(a - b) > threshold]; false when an operand is missing. *)
Definition movedBy (a b : option Q) (threshold : Q) : bool :=
match a, b with
| Some a, Some b => Qgt_bool (Qabs (a - b)) threshold
| _, _ => false
end.

Section Frame.
(** [heroImageRef.current] is loaded. *)
Variable heroImg : bool.
(** [canRenderItem && equipment] for a player id: an equipped item with
a loaded icon. *)
Variable canRenderItem : string -> bool.
Variables worldMouseX worldMouseY : option Q.
Variable nowMs : Q.
Variable hoveredPlayerIds : gset string.

(** The body of [ySortedEntities.forEach]: the new [lastPositionsRef]
and the operations issued for one entity. *)
Definition renderEntity (lastPositions : gmap string (option Q * option Q))
(entity : Entity) : gmap string (option Q * option Q) * list RenderOp :=
  if isPlayer entity then
let playerId := playerIdOf entity in
let isPlayerMoving :=
  match lastPositions !! playerId with
  | Some lastPos =>
      movedBy (positionX entity) (fst lastPos) MOVEMENT_POSITION_THRESHOLD
      || movedBy (positionY entity) (snd lastPos) MOVEMENT_POSITION_THRESHOLD
  | None => false
  end in
let lastPositions' :=
  <[playerId := (positionX entity, positionY entity)]> lastPositions in
let jump := jumpOffset nowMs entity in
let currentlyHovered := isPlayerHovered worldMouseX worldMouseY entity in
let isPersistentlyHovered := bool_decide (playerId ∈ hoveredPlayerIds) in
let hover :=
  match hoverDispatch worldMouseX worldMouseY hoveredPlayerIds entity with
  | Some (pid, v) => [OpPlayerHover pid v]
  | None => []
  end in
let item :=
  if canRenderItem playerId then [OpEquippedItem playerId jump] else [] in
let body :=
  if heroImg then
    renderPlayer entity isPlayerMoving currentlyHovered jump isPersistentlyHovered
  else [] in
(lastPositions',
 hover ++ (if itemBehindPlayer (direction entity)
           then item ++ body else body ++ item))
  else if isTree entity then (lastPositions, [OpTree entity])
  else if isStone entity then (lastPositions, [OpStone entity])
  else if isWoodenStorageBox entity then
(lastPositions, [OpWoodenStorageBox (posX entity) (posY entity)])
  else (lastPositions, []).

Fixpoint renderYSortedEntities (lastPositions : gmap string (option Q * option Q))
(ySortedEntities : list Entity)
  : gmap string (option Q * option Q) * list RenderOp :=
  match ySortedEntities with
  | [] => (lastPositions, [])
  | entity :: rest =>
  let '(lp, ops) := renderEntity lastPositions entity in
  let '(lp', ops') := renderYSortedEntities lp rest in
  (lp', ops ++ ops')
  end.
End Frame.

(** The [onPlayerHover] calls of a frame. *)
Definition hoverCalls (ops : list RenderOp) : list (string * bool) :=
flat_map (fun op => match op with
                    | OpPlayerHover pid v => [(pid, v)]
                    | _ => []
                    end) ops.

Definition isDeathRotation (op : RenderOp) : bool :=
match op with OpDeathRotation _ _ => true | _ => false end.

End Rendering.

(** ** hooks/useCampfireParticles.ts *)

Module CampfireParticles.

Inductive ParticleType : Type := fire | smoke | smoke_burst.

(** A particle; the string [id], which embeds the clock and a random
  number, is not represented. *)
Record Particle : Type := mkParticle {
ptype : ParticleType;
x : Q;
y : Q;
vx : Q;
vy : Q;
spawnTime : Q;
initialLifetime : Q;
lifetime : Q;
size : Q;
color : option string;
alpha : Q
}.

(** The fields of a replicated campfire row that the engine reads. *)
Record Campfire : Type := mkCampfire {
posX : Q;
posY : Q;
isBurning : bool;
isPlayerInHotZone : bool
}.

Definition PARTICLE_FIRE_LIFETIME_MIN : Q := 80.
Definition PARTICLE_FIRE_LIFETIME_MAX : Q := 200.
Definition PARTICLE_FIRE_SPEED_Y_MIN : Q := -0.60.
Definition PARTICLE_FIRE_SPEED_Y_MAX : Q := -0.75.
Definition PARTICLE_FIRE_SPEED_X_SPREAD : Q := 0.8.
Definition PARTICLE_FIRE_SIZE_MIN : Q := 2.
Definition PARTICLE_FIRE_SIZE_MAX : Q := 4.
Definition PARTICLE_FIRE_COLORS : list string :=
["#FFD878"; "#FFB04A"; "#FF783C"; "#FC9842"]%string.

Definition PARTICLE_SMOKE_LIFETIME_MIN : Q := 800.
Definition PARTICLE_SMOKE_LIFETIME_MAX : Q := 1800.
Definition PARTICLE_SMOKE_SPEED_Y_MIN : Q := -0.1.
Definition PARTICLE_SMOKE_SPEED_Y_MAX : Q := -0.3.
Definition PARTICLE_SMOKE_SPEED_X_SPREAD : Q := 0.4.
Definition PARTICLE_SMOKE_SIZE_MIN : Q := 3.
Definition PARTICLE_SMOKE_SIZE_MAX : Q := 5.
Definition PARTICLE_SMOKE_GROWTH_RATE : Q := 0.03.
Definition SMOKE_PARTICLES_PER_CAMPFIRE_FRAME : Q := 0.3.
Definition SMOKE_INITIAL_ALPHA : Q := 0.6.
Definition SMOKE_TARGET_ALPHA : Q := 0.05.
Definition SMOKE_LINGER_DURATION_MS : Q := 4000.
Definition PARTICLE_SMOKE_COLORS : list string :=
["#666666"; "#777777"; "#888888"; "#999999"; "#555555"]%string.

Definition SMOKE_BURST_COLORS : list string :=
["#1a1a1a"; "#2a2a2a"; "#333333"; "#000000"]%string.
Definition SMOKE_BURST_LIFETIME_MIN : Q := 600.
Definition SMOKE_BURST_LIFETIME_MAX : Q := 1500.
Definition SMOKE_BURST_SPEED_X_SPREAD : Q := 0.5.
Definition SMOKE_BURST_SPEED_Y_MIN : Q := -0.2.
Definition SMOKE_BURST_SPEED_Y_MAX : Q := -0.5.
Definition SMOKE_BURST_SIZE_MIN : Q := 3.
Definition SMOKE_BURST_SIZE_MAX : Q := 6.
Definition SMOKE_BURST_INITIAL_ALPHA : Q := 0.9.
(** The rate written inline in the burst branch. *)
Definition SMOKE_BURST_RATE : Q := 4.0.

(** One 60fps frame, in milliseconds. *)
Definition FRAME_MS : Q := 16.667.

(** A fire emission zone; [yOffsetFactor] is the multiple of
  [CAMPFIRE_HEIGHT] that gives its [yOffset]. *)
Record Zone : Type := mkZone {
name : string;
yOffsetFactor : Q;
emissionRate : Q;
spreadX : Q;
spreadY : Q;
speedMultiplier : Q
}.

Definition FIRE_EMISSION_ZONES : list Zone :=
[ mkZone "top" (-0.35) 0.4 6 3 1.0;
  mkZone "middle" (-0.15) 0.3 10 5 0.8;
  mkZone "base" 0.05 0.15 12 6 0.6 ].

(** The key [`${campfireId}_${zone.name}`]. *)
Definition fireKey (campfireId : string) (zone : Zone) : string :=
(campfireId ++ "_" ++ name zone)%string.

(** [Math.floor]. *)
Definition floorQ (q : Q) : Q := inject_Z (Qfloor q).

(** [arr[Math.floor(q)]]: [undefined] outside the array. *)
Definition arrayAt {A : Type} (arr : list A) (q : Q) : option A :=
if (Qfloor q <? 0)%Z then None else nth_error arr (Z.to_nat (Qfloor q)).

(** [while (acc >= 1) { acc -= 1; body }].  The loop runs [floor acc]
  times when [acc >= 1] and not at all otherwise; [fuel] bounds the
  recursion. *)
Fixpoint whileAtLeastOne {St : Type} (fuel : nat) (body : St -> St)
  (acc : Q) (s : St) : Q * St :=
match fuel with
| O => (acc, s)
| S fuel' =>
    if Qle_bool 1 acc then whileAtLeastOne fuel' body (acc - 1) (body s)
    else (acc, s)
end.

Definition emitWhole {St : Type} (body : St -> St) (acc : Q) (s : St) : Q * St :=
whileAtLeastOne (Z.to_nat (Qfloor acc)) body acc s.

(** The accumulator alone: one tick adds [rate * deltaTimeFactor] and
  counts the whole units taken out. *)
Definition accumulate (rate deltaTime : Q) (acc : Q) : Q * nat :=
emitWhole S (acc + rate * (deltaTime / FRAME_MS)) O.

(** Sum of the tick deltas. *)
Definition totalTime (deltas : list Q) : Q := fold_right Qplus 0 deltas.

(** The refs of the hook. *)
Record EngineState : Type := mkEngine {
particles : list Particle;
fireEmissionAccumulator : gmap string Q;
smokeEmissionAccumulator : gmap string Q;
smokeBurstEmissionAccumulator : gmap string Q;
prevBurningStates : gmap string bool;
lingeringSmokeData : gmap string Q;     (* lingerUntil *)
lastUpdateTime : Q;
randomCalls : nat                       (* calls of Math.random() so far *)
}.

(** The refs when the loop starts at clock value [t0]. *)
Definition initialState (t0 : Q) : EngineState :=
mkEngine [] ∅ ∅ ∅ ∅ ∅ t0 O.

(** Aging of one particle in the compaction loop; [None] drops it. *)
Definition updateParticle (now deltaTimeFactor : Q) (p : Particle) : option Particle :=
let age := now - spawnTime p in
let lifetimeRemaining := initialLifetime p - age in
if Qle_bool lifetimeRemaining 0 then None
else
  let lifeRatio := Qmax 0 (lifetimeRemaining / initialLifetime p) in
  let newVx := vx p in
  let '(newVy, newSize, currentAlpha) :=
    match ptype p with
    | smoke =>
        (vy p - 0.003 * deltaTimeFactor,
         Qmin (size p + PARTICLE_SMOKE_GROWTH_RATE * deltaTimeFactor)
              PARTICLE_SMOKE_SIZE_MAX,
         SMOKE_TARGET_ALPHA + (SMOKE_INITIAL_ALPHA - SMOKE_TARGET_ALPHA) * lifeRatio)
    | fire => (vy p, size p, lifeRatio)
    | smoke_burst =>
        (vy p - 0.0015 * deltaTimeFactor, size p,
         SMOKE_TARGET_ALPHA
         + ((SMOKE_INITIAL_ALPHA + 0.4) - SMOKE_TARGET_ALPHA) * lifeRatio)
    end in
  let p' :=
    {| ptype := ptype p;
       x := x p + newVx * deltaTimeFactor;
       y := y p + newVy * deltaTimeFactor;
       vx := vx p; vy := vy p;
       spawnTime := spawnTime p;
       initialLifetime := initialLifetime p;
       lifetime := lifetimeRemaining;
       size := newSize;
       color := color p;
       alpha := Qmax 0 (Qmin 1 currentAlpha) |} in
  if Qgt_bool (alpha p') 0.01 then Some p' else None.






(** [Math.random() - 0.5]. *)
Definition centered (r : Q) : Q := r - 0.5.

Section Engine.
(** [random n] is the result of the [n]-th call of [Math.random()]. *)
Variable random : nat -> Q.
(** Imported from [campfireRenderingUtils]. *)
Variables CAMPFIRE_HEIGHT CAMPFIRE_RENDER_Y_OFFSET : Q.

(** The particles pushed so far in this tick, with the number of
random draws consumed. *)
Abbreviation Emission := (nat * list Particle)%type.

(** The body of the fire [while] loop for one zone. *)
Definition spawnFire (now visualCenterX visualCenterY : Q) (zone : Zone)
(e : Emission) : Emission :=
  let '(n, newGeneratedParticles) := e in
  let lifetime := PARTICLE_FIRE_LIFETIME_MIN
+ random n * (PARTICLE_FIRE_LIFETIME_MAX - PARTICLE_FIRE_LIFETIME_MIN) in
  let zoneEmissionX := visualCenterX in
  let zoneEmissionY := visualCenterY + CAMPFIRE_HEIGHT * yOffsetFactor zone in
  (* random (n + 1) goes into the id *)
  ((n + 8)%nat,
   newGeneratedParticles ++
   [ {| ptype := fire;
    x := zoneEmissionX + centered (random (n + 2)%nat) * spreadX zone;
    y := zoneEmissionY + centered (random (n + 3)%nat) * spreadY zone;
    vx := centered (random (n + 4)%nat) * PARTICLE_FIRE_SPEED_X_SPREAD;
    vy := (PARTICLE_FIRE_SPEED_Y_MIN + random (n + 5)%nat
             * (PARTICLE_FIRE_SPEED_Y_MAX - PARTICLE_FIRE_SPEED_Y_MIN))
          * speedMultiplier zone;
    spawnTime := now;
    initialLifetime := lifetime;
    lifetime := lifetime;
    size := floorQ (PARTICLE_FIRE_SIZE_MIN + random (n + 6)%nat
                      * (PARTICLE_FIRE_SIZE_MAX - PARTICLE_FIRE_SIZE_MIN)) + 1;
    color := arrayAt PARTICLE_FIRE_COLORS
               (random (n + 7)%nat * inject_Z (Z.of_nat (length PARTICLE_FIRE_COLORS)));
    alpha := 1.0 |} ]).

(** The body of the smoke [while] loop. *)
Definition spawnSmoke (now smokeEmissionX smokeEmissionY : Q) (e : Emission) : Emission :=
  let '(n, newGeneratedParticles) := e in
  let lifetime := PARTICLE_SMOKE_LIFETIME_MIN
+ random n * (PARTICLE_SMOKE_LIFETIME_MAX - PARTICLE_SMOKE_LIFETIME_MIN) in
  ((n + 8)%nat,
   newGeneratedParticles ++
   [ {| ptype := smoke;
    x := smokeEmissionX + centered (random (n + 2)%nat) * 8;
    y := smokeEmissionY + centered (random (n + 3)%nat) * 6;
    vx := centered (random (n + 4)%nat) * PARTICLE_SMOKE_SPEED_X_SPREAD;
    vy := PARTICLE_SMOKE_SPEED_Y_MIN + random (n + 5)%nat
            * (PARTICLE_SMOKE_SPEED_Y_MAX - PARTICLE_SMOKE_SPEED_Y_MIN);
    spawnTime := now;
    initialLifetime := lifetime;
    lifetime := lifetime;
    size := floorQ (PARTICLE_SMOKE_SIZE_MIN + random (n + 6)%nat
                      * (PARTICLE_SMOKE_SIZE_MAX - PARTICLE_SMOKE_SIZE_MIN)) + 1;
    color := arrayAt PARTICLE_SMOKE_COLORS
               (random (n + 7)%nat * inject_Z (Z.of_nat (length PARTICLE_SMOKE_COLORS)));
    alpha := SMOKE_INITIAL_ALPHA |} ]).

(** The body of the smoke-burst [while] loop. *)
Definition spawnSmokeBurst (now visualCenterX visualCenterY : Q) (e : Emission) : Emission :=
  let '(n, newGeneratedParticles) := e in
  let lifetime := SMOKE_BURST_LIFETIME_MIN
+ random n * (SMOKE_BURST_LIFETIME_MAX - SMOKE_BURST_LIFETIME_MIN) in
  ((n + 8)%nat,
   newGeneratedParticles ++
   [ {| ptype := smoke_burst;
    x := visualCenterX + centered (random (n + 2)%nat) * 20;
    y := visualCenterY + centered (random (n + 3)%nat) * 16;
    vx := centered (random (n + 4)%nat) * SMOKE_BURST_SPEED_X_SPREAD;
    vy := SMOKE_BURST_SPEED_Y_MIN + random (n + 5)%nat
            * (SMOKE_BURST_SPEED_Y_MAX - SMOKE_BURST_SPEED_Y_MIN);
    spawnTime := now;
    initialLifetime := lifetime;
    lifetime := lifetime;
    size := SMOKE_BURST_SIZE_MIN
            + floorQ (random (n + 6)%nat
                        * (SMOKE_BURST_SIZE_MAX - SMOKE_BURST_SIZE_MIN + 1));
    color := arrayAt SMOKE_BURST_COLORS
               (random (n + 7)%nat * inject_Z (Z.of_nat (length SMOKE_BURST_COLORS)));
    alpha := SMOKE_BURST_INITIAL_ALPHA |} ]).

(** The linger decision of one campfire:
[(generateFireThisFrame, generateSmokeThisFrame, lingeringSmokeData)]. *)
Definition lingerDecision (now : Q) (campfireId : string)
(wasBurning isCurrentlyBurning : bool) (lingering : gmap string Q)
  : bool * bool * gmap string Q :=
  if isCurrentlyBurning then
(true, true, delete campfireId lingering)
  else
let '(lingeringEntry, lingering1) :=
  if wasBurning then
    (Some (now + SMOKE_LINGER_DURATION_MS),
     <[campfireId := now + SMOKE_LINGER_DURATION_MS]> lingering)
  else (lingering !! campfireId, lingering) in
match lingeringEntry with
| Some lingerUntil =>
    if Qlt_bool now lingerUntil then (false, true, lingering1)
    else (false, false, delete campfireId lingering1)
| None => (false, false, lingering1)
end.

(** The body of [FIRE_EMISSION_ZONES.forEach] in the fire branch. *)
Definition fireZoneStep (now deltaTimeFactor visualCenterX visualCenterY : Q)
(campfireId : string) (st : gmap string Q * Emission) (zone : Zone)
  : gmap string Q * Emission :=
  let '(accs, e) := st in
  let fireAcc := default 0 (accs !! fireKey campfireId zone)
             + emissionRate zone * deltaTimeFactor in
  let '(fireAcc', e') :=
emitWhole (spawnFire now visualCenterX visualCenterY zone) fireAcc e in
  (<[fireKey campfireId zone := fireAcc']> accs, e').

(** The fire branch: every zone integrates its own accumulator, or all
zone accumulators are reset. *)
Definition fireStep (now deltaTimeFactor visualCenterX visualCenterY : Q)
(campfireId : string) (generateFireThisFrame : bool)
(accs : gmap string Q) (e : Emission) : gmap string Q * Emission :=
  if generateFireThisFrame then
fold_left
  (fireZoneStep now deltaTimeFactor visualCenterX visualCenterY campfireId)
  FIRE_EMISSION_ZONES (accs, e)
  else
(fold_left (fun (accs : gmap string Q) (zone : Zone) =>
              <[fireKey campfireId zone := 0]> accs)
           FIRE_EMISSION_ZONES accs,
 e).

Definition smokeStep (now deltaTimeFactor smokeEmissionX smokeEmissionY : Q)
(campfireId : string) (generateSmokeThisFrame : bool)
(accs : gmap string Q) (e : Emission) : gmap string Q * Emission :=
  if generateSmokeThisFrame then
let smokeAcc := default 0 (accs !! campfireId)
                + SMOKE_PARTICLES_PER_CAMPFIRE_FRAME * deltaTimeFactor in
let '(smokeAcc', e') :=
  emitWhole (spawnSmoke now smokeEmissionX smokeEmissionY) smokeAcc e in
(<[campfireId := smokeAcc']> accs, e')
  else (<[campfireId := 0]> accs, e).

Definition smokeBurstStep (now deltaTimeFactor visualCenterX visualCenterY : Q)
(campfireId : string) (campfire : Campfire)
(accs : gmap string Q) (e : Emission) : gmap string Q * Emission :=
  if isPlayerInHotZone campfire && isBurning campfire then
let burstAcc := default 0 (accs !! campfireId)
                + SMOKE_BURST_RATE * deltaTimeFactor in
let '(burstAcc', e') :=
  emitWhole (spawnSmokeBurst now visualCenterX visualCenterY) burstAcc e in
(<[campfireId := burstAcc']> accs, e')
  else (<[campfireId := 0]> accs, e).

(** The body of [visibleCampfiresMap.forEach]; the second component
is [newGeneratedParticles]. *)
Definition campfireStep (now deltaTimeFactor : Q)
(acc : EngineState * list Particle) (entry : string * Campfire)
  : EngineState * list Particle :=
  let '(st, newGeneratedParticles) := acc in
  let '(campfireId, campfire) := entry in
  let wasBurning := default false (prevBurningStates st !! campfireId) in
  let isCurrentlyBurning := isBurning campfire in
  let '(generateFireThisFrame, generateSmokeThisFrame, lingering') :=
lingerDecision now campfireId wasBurning isCurrentlyBurning
               (lingeringSmokeData st) in
  let prev' := <[campfireId := isCurrentlyBurning]> (prevBurningStates st) in
  let visualCenterX := posX campfire in
  let visualCenterY :=
posY campfire - (CAMPFIRE_HEIGHT / 2) - CAMPFIRE_RENDER_Y_OFFSET in
  let smokeEmissionX := visualCenterX in
  let smokeEmissionY := visualCenterY + CAMPFIRE_HEIGHT * -0.00 in
  let e0 : Emission := (randomCalls st, newGeneratedParticles) in
  let '(fireAccs', e1) :=
fireStep now deltaTimeFactor visualCenterX visualCenterY campfireId
         generateFireThisFrame (fireEmissionAccumulator st) e0 in
  let '(smokeAccs', e2) :=
smokeStep now deltaTimeFactor smokeEmissionX smokeEmissionY campfireId
          generateSmokeThisFrame (smokeEmissionAccumulator st) e1 in
  let '(burstAccs', e3) :=
smokeBurstStep now deltaTimeFactor visualCenterX visualCenterY campfireId
               campfire (smokeBurstEmissionAccumulator st) e2 in
  ({| particles := particles st;
  fireEmissionAccumulator := fireAccs';
  smokeEmissionAccumulator := smokeAccs';
  smokeBurstEmissionAccumulator := burstAccs';
  prevBurningStates := prev';
  lingeringSmokeData := lingering';
  lastUpdateTime := lastUpdateTime st;
  randomCalls := fst e3 |},
   snd e3).

(** Cleanup of the refs for campfires no longer in the visible map. *)
Definition cleanupRefs (visibleIds : gset string) (st : EngineState) : EngineState :=
  let stale : gset string := dom (prevBurningStates st) ∖ visibleIds in
  let dropStale (m : gmap string Q) : gmap string Q :=
filter (fun kv => kv.1 ∉ stale) m in
  let keepVisible (m : gmap string Q) : gmap string Q :=
filter (fun kv => kv.1 ∈ visibleIds) m in
  {| particles := particles st;
 fireEmissionAccumulator :=
   set_fold (fun campfireId (m : gmap string Q) =>
               fold_left (fun (m : gmap string Q) zone =>
                            delete (fireKey campfireId zone) m)
                         FIRE_EMISSION_ZONES m)
            (fireEmissionAccumulator st) stale;
 smokeEmissionAccumulator := dropStale (smokeEmissionAccumulator st);
 smokeBurstEmissionAccumulator :=
   keepVisible (dropStale (smokeBurstEmissionAccumulator st));
 prevBurningStates :=
   filter (fun kv => kv.1 ∉ stale) (prevBurningStates st);
 lingeringSmokeData := keepVisible (dropStale (lingeringSmokeData st));
 lastUpdateTime := lastUpdateTime st;
 randomCalls := randomCalls st |}.



(** One run of [updateParticles] at clock value [now]. *)
Definition updateParticles (now : Q) (visibleCampfiresMap : JsMap Campfire)
(st : EngineState) : EngineState :=
  let deltaTime := now - lastUpdateTime st in
  if Qle_bool deltaTime 0 then
{| particles := particles st;
   fireEmissionAccumulator := fireEmissionAccumulator st;
   smokeEmissionAccumulator := smokeEmissionAccumulator st;
   smokeBurstEmissionAccumulator := smokeBurstEmissionAccumulator st;
   prevBurningStates := prevBurningStates st;
   lingeringSmokeData := lingeringSmokeData st;
   lastUpdateTime := now;
   randomCalls := randomCalls st |}
  else
let deltaTimeFactor := deltaTime / FRAME_MS in
let currentParticles := omap (updateParticle now deltaTimeFactor) (particles st) in
let '(st1, newGeneratedParticles) :=
  fold_left (campfireStep now deltaTimeFactor) visibleCampfiresMap (st, []) in
let st2 := cleanupRefs (list_to_set (map fst visibleCampfiresMap)) st1 in
{| particles := currentParticles ++ newGeneratedParticles;
   fireEmissionAccumulator := fireEmissionAccumulator st2;
   smokeEmissionAccumulator := smokeEmissionAccumulator st2;
   smokeBurstEmissionAccumulator := smokeBurstEmissionAccumulator st2;
   prevBurningStates := prevBurningStates st2;
   lingeringSmokeData := lingeringSmokeData st2;
   lastUpdateTime := now;
   randomCalls := randomCalls st2 |}.

(** The loop over a sequence of animation frames, each with its clock
value and the visible campfires of that moment. *)
Fixpoint runFrames (frames : list (Q * JsMap Campfire)) (st : EngineState) : EngineState :=
  match frames with
  | [] => st
  | (now, visibleCampfiresMap) :: rest =>
  runFrames rest (updateParticles now visibleCampfiresMap st)
  end.


End Engine.





(** A loop body that pushes exactly one particle, of type [kind]. *)
Definition pushesOne (kind : ParticleType)
  (body : nat * list Particle -> nat * list Particle) : Prop :=
forall e, exists p, ptype p = kind /\ snd (body e) = snd e ++ [p].


End CampfireParticles.

(** ** IEEE 754 binary64 arithmetic *)

Module Binary64.

(** [floor (log2 x)] for a positive [x]: the difference of the bit lengths
  of numerator and denominator, or one less. *)
Definition ilog2 (x : Q) : Z :=
let e := (Z.log2 (Qnum x) - Z.log2 (Z.pos (Qden x)))%Z in
if Qle_bool (2 ^ e) x then e else (e - 1)%Z.

(** The integer nearest to [m]; of two nearest integers, the even one. *)
Definition roundHalfEven (m : Q) : Z :=
let f := Qfloor m in
let d := m - inject_Z f in
if Qlt_bool d (1 # 2) then f
else if Qlt_bool (1 # 2) d then (f + 1)%Z
else if Z.even f then f else (f + 1)%Z.

(** The exponent of the unit in the last place of the binary64 values
  around [x]: 53 significant bits for a normal number, and [-1074] for
  the subnormal numbers below [2 ^ -1022]. *)
Definition ulpExponent (x : Q) : Z :=
(Z.max (ilog2 (Qabs x)) (-1022) - 52)%Z.

(** The binary64 value nearest to [x] (roundTiesToEven), for
  [|x| < 2 ^ 1024]: the result of an arithmetic operation whose exact
  value is [x].  Overflow to an infinity is not represented. *)
Definition round64 (x : Q) : Q :=
if Qeq_bool x 0 then 0
else inject_Z (roundHalfEven (x / 2 ^ ulpExponent x)) * 2 ^ ulpExponent x.

(** [a + b], [a - b], [a * b] and [a / b] on numbers. *)
Definition add64 (a b : Q) : Q := round64 (a + b).
Definition sub64 (a b : Q) : Q := round64 (a - b).
Definition mul64 (a b : Q) : Q := round64 (a * b).
Definition div64 (a b : Q) : Q := round64 (a / b).

(** [x] is a binary64 value: an integer of less than 54 bits times a
  power of two not below [2 ^ -1074]. *)
Definition isBinary64 (x : Q) : Prop :=
exists (n e : Z), (Z.abs n < 2 ^ 53)%Z /\ (-1074 <= e)%Z /\ x == inject_Z n * 2 ^ e.

(** The unit roundoff and half the smallest subnormal number. *)
Definition unitRoundoff : Q := 2 ^ (-53).
Definition underflowError : Q := 2 ^ (-1075).

(** The literal [16.667]. *)
Definition FRAME_MS64 : Q := round64 16.667.

(** [while (acc >= 1) { acc -= 1; count++ }] on binary64 numbers;
  [fuel] bounds the recursion. *)
Fixpoint whileAtLeastOne64 (fuel : nat) (acc : Q) (count : nat) : Q * nat :=
match fuel with
| O => (acc, count)
| S fuel' =>
    if Qle_bool 1 acc then whileAtLeastOne64 fuel' (sub64 acc 1) (S count)
    else (acc, count)
end.

(** One tick of an emission accumulator as the code computes it:
  [deltaTimeFactor = deltaTime / 16.667], [acc += rate * deltaTimeFactor],
  then the [while] loop; the remainder and the number of particles. *)
Definition accumulate64 (rate deltaTime acc : Q) : Q * nat :=
let deltaTimeFactor := div64 deltaTime FRAME_MS64 in
let acc1 := add64 acc (mul64 rate deltaTimeFactor) in
whileAtLeastOne64 (Z.to_nat (Qfloor acc1)) acc1 O.

(** The accumulator over a sequence of tick deltas: the remainder, the
  total count, and the remainder after every tick. *)
Fixpoint accumulateAll64 (rate : Q) (deltas : list Q) (acc : Q) : Q * nat * list Q :=
match deltas with
| [] => (acc, O, [])
| deltaTime :: rest =>
    let '(acc1, n1) := accumulate64 rate deltaTime acc in
    let '(acc2, n2, rems) := accumulateAll64 rate rest acc1 in
    (acc2, (n1 + n2)%nat, acc1 :: rems)
end.

(** What the roundings of [ticks] ticks can add to or take from an
  accumulated total of [expected]: three operations are rounded in each
  tick. *)
Definition roundingAllowance (ticks : nat) (expected : Q) : Q :=
2 ^ (-52) * (inject_Z (Z.of_nat ticks) + 3 * expected).

End Binary64.

(** ** Sample rows *)

(** Rows as the server replicates them, with the fields the client reads. *)
Definition playerRow (ident : string) (x y : Q) (dead : bool) (jumpStart : Z) : Entity :=
  {| identity := Some ident; positionX := Some x; positionY := Some y;
     isDead := Some dead; jumpStartTimeMs := Some jumpStart;
     direction := Some "down"%string; treeType := None;
     posX := None; posY := None; health := Some 100;
     placedBy := None; itemDefId := None; isBurning := None;
     isPlayerInHotZone := None; id := None; respawnAt := None;
     slot_instance_id_0 := None; entityTypeTag := None |}.

Definition treeRow (n : Z) (x y hp : Q) : Entity :=
  {| identity := None; positionX := None; positionY := None; isDead := None;
     jumpStartTimeMs := None; direction := None; treeType := Some "Oak"%string;
     posX := Some x; posY := Some y; health := Some hp;
     placedBy := None; itemDefId := None; isBurning := None;
     isPlayerInHotZone := None; id := Some n; respawnAt := None;
     slot_instance_id_0 := None; entityTypeTag := None |}.

(** A mushroom row; a corn row has the same fields. *)
Definition mushroomRow (n : Z) (x y : Q) : Entity :=
  {| identity := None; positionX := None; positionY := None; isDead := None;
     jumpStartTimeMs := None; direction := None; treeType := None;
     posX := Some x; posY := Some y; health := None;
     placedBy := None; itemDefId := None; isBurning := None;
     isPlayerInHotZone := None; id := Some n; respawnAt := None;
     slot_instance_id_0 := None; entityTypeTag := None |}.

(** A 800 x 600 canvas with the camera at the origin. *)
Definition sampleBounds : ViewportBounds := getViewportBounds 0 0 800 600.

(** One mushroom and one corn in the middle of the screen, nothing else. *)
Definition harvestTables : Tables :=
  {| players := []; trees := []; stones := []; campfires := [];
     mushrooms := [("1"%string, mushroomRow 1 100 100)];
     corns := [("2"%string, mushroomRow 2 200 100)];
     droppedItems := []; woodenStorageBoxes := []; sleepingBags := [] |}.



(** A dead and a living player and one tree, all on screen. *)
Definition battleTables : Tables :=
  {| players := [("d1"%string, playerRow "d1" 100 100 true 0);
                 ("a1"%string, playerRow "a1" 200 100 false 0)];
     trees := [("1"%string, treeRow 1 300 300 50)];
     stones := []; campfires := []; mushrooms := []; corns := [];
     droppedItems := []; woodenStorageBoxes := []; sleepingBags := [] |}.

(** ** Sample engine runs *)

(** A random source that always answers one half. *)
Definition sampleRandom : nat -> Q := fun _ => 0.5.

(** The refs after a frame at clock value 0 in which campfire 1 burned. *)
Definition burningState : CampfireParticles.EngineState :=
  CampfireParticles.mkEngine [] ∅ ∅ ∅ {["1"%string := true]} ∅ 0 O.


(** A burning campfire without a player in its hot zone. *)
Definition quietCampfire : CampfireParticles.Campfire :=
  CampfireParticles.mkCampfire 100 100 true false.


(** Three frames, 50 ms apart, of a world with the quiet campfire. *)
Definition quietFrames : list (Q * JsMap CampfireParticles.Campfire) :=
  [(50, [("1"%string, quietCampfire)]);
   (100, [("1"%string, quietCampfire)]);
   (150, [("1"%string, quietCampfire)])].

(** ** The visible maps of the filtering code *)

Module VisibleMaps.

(** [map.set(key, value)] on a [Map] kept as its entries in insertion
  order: the value of an existing key is replaced in place, a new key is
  appended. *)
Fixpoint mapSet {V : Type} (key : string) (value : V) (m : JsMap V) : JsMap V :=
match m with
| [] => [(key, value)]
| (k, v) :: rest =>
    if String.eqb k key then (k, value) :: rest
    else (k, v) :: mapSet key value rest
end.

(** [map.get(key)]. *)
Fixpoint mapGet {V : Type} (key : string) (m : JsMap V) : option V :=
match m with
| [] => None
| (k, v) :: rest => if String.eqb k key then Some v else mapGet key rest
end.

(** [new Map(entries)]. *)
Definition newMap {V : Type} (entries : list (string * V)) : JsMap V :=
fold_left (fun m entry => mapSet (fst entry) (snd entry) m) entries [].

(** [e.id.toString()]: a [TypeError] ([None]) when the record has no
  [id]. *)
Definition idKey (entity : Entity) : option string :=
match id entity with
| Some n => Some (pretty n)
| None => None
end.

(** [visible.map(e => [e.id.toString(), e])]: [None] when the callback
  throws. *)
Fixpoint entriesOf (visible : list Entity) : option (list (string * Entity)) :=
match visible with
| [] => Some []
| e :: rest =>
    match idKey e with
    | Some key =>
        match entriesOf rest with
        | Some entries => Some ((key, e) :: entries)
        | None => None
        end
    | None => None
    end
end.

(** [new Map(visible.map(e => [e.id.toString(), e]))], as the hook and
  GameCanvas build [visibleMushroomsMap], [visibleCornsMap],
  [visibleCampfiresMap], [visibleDroppedItemsMap] and [visibleBoxesMap]. *)
Definition visibleMapOf (visible : list Entity) : option (JsMap Entity) :=
match entriesOf visible with
| Some entries => Some (newMap entries)
| None => None
end.

(** The last record of a list that carries the id with key [key]. *)
Definition lastWithKey (key : string) (visible : list Entity) : option Entity :=
List.find (fun e => match idKey e with
                    | Some k => String.eqb k key
                    | None => false
                    end) (rev visible).

End VisibleMaps.

(** ** utils/renderingUtils.ts: movement tracking of the Y-sorted loop *)

(** The [renderPlayer] sprite draws of a frame: player id, [isMoving] and
    [jumpOffsetY], in drawing order. *)
Definition spriteDraws (ops : list Rendering.RenderOp) : list (string * bool * Q) :=
  flat_map (fun op => match op with
                      | Rendering.OpSprite pid isMoving jumpOffsetY =>
                          [(pid, isMoving, jumpOffsetY)]
                      | _ => []
                      end) ops.

(** [isPlayerMoving] as the loop computes it from the position recorded for
    the player in [lastPositionsRef]: false without a record, otherwise
    whether either coordinate differs from the record by more than
    [MOVEMENT_POSITION_THRESHOLD]. *)
Definition isPlayerMovingSince (lastPositions : gmap string (option Q * option Q))
    (entity : Entity) : bool :=
  match lastPositions !! Rendering.playerIdOf entity with
  | Some lastPos =>
      Rendering.movedBy (positionX entity) (fst lastPos)
                        Rendering.MOVEMENT_POSITION_THRESHOLD
      || Rendering.movedBy (positionY entity) (snd lastPos)
                           Rendering.MOVEMENT_POSITION_THRESHOLD
  | None => false
  end.

(** The ids of the players of a list, in list order. *)
Definition playerIdsOf (entities : list Entity) : list string :=
  map Rendering.playerIdOf (List.filter isPlayer entities).

(** Two players, the second one 5 px to the right of where the sample
    record below has it. *)
Definition walkers : list Entity :=
  [playerRow "a1" 100 100 false 0; playerRow "b2" 205 100 false 0].

Definition walkersBefore : gmap string (option Q * option Q) :=
  {[ "b2"%string := (Some 200, Some 100) ]}.

(** ** utils/renderingUtils.ts: geometry of [renderPlayer] *)

Module PlayerRendering.

Definition PLAYER_SHAKE_DURATION_MS : Q := 200.
Definition PLAYER_SHAKE_AMOUNT_PX : Q := 3.
(** [gameConfig.spriteHeight]. *)
Definition spriteHeight : Q := 48.

(** The shake offset of [renderPlayer].  [lastHitTime] is
  [player.lastHitTime.microsSinceUnixEpoch], [None] when the player was
  never hit; the division [/ 1000n] of big integers truncates.  The two
  numbers are the two draws of [Math.random()]. *)
Definition shakeOffset (player : Entity) (lastHitTime : option Z) (nowMs : Q)
  (randomX randomY : Q) : Q * Q :=
if negb (truthy (isDead player)) then
  match lastHitTime with
  | Some microsSinceUnixEpoch =>
      let lastHitMs := inject_Z (Z.quot microsSinceUnixEpoch 1000) in
      let elapsedSinceHit := nowMs - lastHitMs in
      if Qle_bool 0 elapsedSinceHit
         && Qlt_bool elapsedSinceHit PLAYER_SHAKE_DURATION_MS
      then ((randomX - 0.5) * 2 * PLAYER_SHAKE_AMOUNT_PX,
            (randomY - 0.5) * 2 * PLAYER_SHAKE_AMOUNT_PX)
      else (0, 0)
  | None => (0, 0)
  end
else (0, 0).

(** The destination rectangle of the sprite: left, top, width, height. *)
Definition spriteRect (positionX positionY shakeX shakeY jumpOffsetY : Q)
  : Q * Q * Q * Q :=
let drawWidth := spriteWidth * 2 in
let drawHeight := spriteHeight * 2 in
let spriteBaseX := positionX - drawWidth / 2 + shakeX in
let spriteBaseY := positionY - drawHeight / 2 + shakeY in
let spriteDrawY := spriteBaseY - jumpOffsetY in
(spriteBaseX, spriteDrawY, drawWidth, drawHeight).

(** The shadow of a living player. *)
Record Shadow : Type := mkShadow {
shadowX : Q;
shadowY : Q;
shadowRadiusX : Q;
shadowRadiusY : Q;
shadowOpacity : Q      (* the alpha of the fill style *)
}.

Definition shadowOf (positionX positionY jumpOffsetY : Q) : Shadow :=
let drawWidth := spriteWidth * 2 in
let drawHeight := spriteHeight * 2 in
let shadowBaseRadiusX := drawWidth * 0.3 in
let shadowBaseRadiusY := shadowBaseRadiusX * 0.4 in
let shadowMaxJumpOffset := 10 in
let shadowYOffsetFromJump :=
  jumpOffsetY * (shadowMaxJumpOffset / Rendering.playerRadius) in
let shadowBaseYOffset := drawHeight * 0.4 in
let jumpProgress := Qmin 1 (jumpOffsetY / Rendering.playerRadius) in
let shadowScale := 1.0 - jumpProgress * 0.4 in
let shadowOpacity := 0.5 - jumpProgress * 0.3 in
{| shadowX := positionX;
   shadowY := positionY + shadowBaseYOffset + shadowYOffsetFromJump;
   shadowRadiusX := shadowBaseRadiusX * shadowScale;
   shadowRadiusY := shadowBaseRadiusY * shadowScale;
   shadowOpacity := Qmax 0 shadowOpacity |}.

(** The rectangle of the name tag drawn by [drawNameTag] for a text of
  width [textWidth]: left, top, width, height. *)
Definition nameTagRect (spriteTopY spriteX textWidth : Q) : Q * Q * Q * Q :=
let tagPadding := 4 in
let tagHeight := 16 in
let tagWidth := textWidth + tagPadding * 2 in
let tagX := spriteX - tagWidth / 2 in
let tagY := spriteTopY - tagHeight + 4 in
(tagX, tagY, tagWidth, tagHeight).

End PlayerRendering.

(** ** utils/renderingUtils.ts: the ground layer *)

Module GroundRendering.

(** A call of one of the imported ground renderers. *)
Inductive GroundOp (ItemDefinition : Type) : Type :=
| OpCorn (corn : Entity) (nowMs : Q)
| OpDroppedItem (item : Entity) (itemDef : option ItemDefinition)
| OpMushroom (mushroom : Entity) (nowMs : Q)
| OpCampfire (x y : option Q) (burning : option bool).

Arguments OpCorn {ItemDefinition} corn nowMs.
Arguments OpDroppedItem {ItemDefinition} item itemDef.
Arguments OpMushroom {ItemDefinition} mushroom nowMs.
Arguments OpCampfire {ItemDefinition} x y burning.

(** [entity.__entityType === 'corn']. *)
Definition markedCorn (entity : Entity) : bool :=
match entityTypeTag entity with
| Some tag => String.eqb tag "corn"
| None => false
end.

Section Ground.
Variable ItemDefinition : Type.
Variable itemDefinitions : gmap string ItemDefinition.
Variable nowMs : Q.

(** [itemDefinitions.get(entity.itemDefId.toString())]; the id is present
on every record that passed [isDroppedItem]. *)
Definition itemDefOf (entity : Entity) : option ItemDefinition :=
match itemDefId entity with
| Some defId => itemDefinitions !! pretty defId
| None => None
end.

(** The body of [groundItems.forEach]. *)
Definition renderGroundEntity (entity : Entity) : list (GroundOp ItemDefinition) :=
if markedCorn entity then [OpCorn entity nowMs]
else if isDroppedItem entity then [OpDroppedItem entity (itemDefOf entity)]
else if isCorn entity then [OpCorn entity nowMs]
else if isMushroom entity then [OpMushroom entity nowMs]
else if isCampfire entity then
  [OpCampfire (posX entity) (posY entity) (isBurning entity)]
else [].

Definition renderGroundEntities (groundItems : list Entity)
  : list (GroundOp ItemDefinition) :=
flat_map renderGroundEntity groundItems.
End Ground.

Definition isMushroomOp {ItemDefinition : Type} (op : GroundOp ItemDefinition) : bool :=
match op with OpMushroom _ _ => true | _ => false end.

(** The four tables of the ground layer hold rows of their own kind, and
  the rows of dropped items and campfires, which GameCanvas does not mark,
  carry no corn mark. *)
Definition groundTablesTyped (t : Tables) : Prop :=
Forall (fun e => isMushroom e = true) (values (mushrooms t)) /\
Forall (fun e => isCorn e = true) (values (corns t)) /\
Forall (fun e => isDroppedItem e = true /\ markedCorn e = false)
       (values (droppedItems t)) /\
Forall (fun e => isCampfire e = true /\ markedCorn e = false)
       (values (campfires t)).

End GroundRendering.

(** A dropped item and a burning campfire row. *)
Definition droppedItemRow (n defId : Z) (x y : Q) : Entity :=
  {| identity := None; positionX := None; positionY := None; isDead := None;
     jumpStartTimeMs := None; direction := None; treeType := None;
     posX := Some x; posY := Some y; health := None;
     placedBy := None; itemDefId := Some defId; isBurning := None;
     isPlayerInHotZone := None; id := Some n; respawnAt := None;
     slot_instance_id_0 := None; entityTypeTag := None |}.

Definition campfireRow (n : Z) (x y : Q) (burning : bool) : Entity :=
  {| identity := None; positionX := None; positionY := None; isDead := None;
     jumpStartTimeMs := None; direction := None; treeType := None;
     posX := Some x; posY := Some y; health := None;
     placedBy := Some "c200a1"%string; itemDefId := None;
     isBurning := Some burning; isPlayerInHotZone := Some false;
     id := Some n; respawnAt := None;
     slot_instance_id_0 := None; entityTypeTag := None |}.

(** A mushroom, a corn, a dropped item and a campfire, all on screen. *)
Definition campTables : Tables :=
  {| players := []; trees := []; stones := [];
     campfires := [("4"%string, campfireRow 4 400 100 true)];
     mushrooms := [("1"%string, mushroomRow 1 100 100)];
     corns := [("2"%string, mushroomRow 2 200 100)];
     droppedItems := [("3"%string, droppedItemRow 3 9 300 100)];
     woodenStorageBoxes := []; sleepingBags := [] |}.

(** ** hooks/useCampfireParticles.ts: what a frame creates and keeps *)

Module ParticleFacts.
Import CampfireParticles.

(** [Math.random()] answers in the half-open unit interval. *)
Definition unitInterval (random : nat -> Q) : Prop :=
forall n : nat, 0 <= random n /\ random n < 1.

(** The lifetime bounds, the sizes, the palette and the initial alpha that
  the three [push] calls use for a particle of each type. *)
Definition lifetimeMin (kind : ParticleType) : Q :=
match kind with
| fire => PARTICLE_FIRE_LIFETIME_MIN
| smoke => PARTICLE_SMOKE_LIFETIME_MIN
| smoke_burst => SMOKE_BURST_LIFETIME_MIN
end.

Definition lifetimeMax (kind : ParticleType) : Q :=
match kind with
| fire => PARTICLE_FIRE_LIFETIME_MAX
| smoke => PARTICLE_SMOKE_LIFETIME_MAX
| smoke_burst => SMOKE_BURST_LIFETIME_MAX
end.

(** Smallest and largest size that the rounding of each type can give:
  [floor(MIN + r * (MAX - MIN)) + 1] for fire and smoke,
  [MIN + floor(r * (MAX - MIN + 1))] for a smoke burst. *)
Definition sizeMin (kind : ParticleType) : Z :=
match kind with fire => 3 | smoke => 4 | smoke_burst => 3 end.

Definition sizeMax (kind : ParticleType) : Z :=
match kind with fire => 4 | smoke => 5 | smoke_burst => 6 end.

Definition palette (kind : ParticleType) : list string :=
match kind with
| fire => PARTICLE_FIRE_COLORS
| smoke => PARTICLE_SMOKE_COLORS
| smoke_burst => SMOKE_BURST_COLORS
end.

Definition initialAlpha (kind : ParticleType) : Q :=
match kind with
| fire => 1.0
| smoke => SMOKE_INITIAL_ALPHA
| smoke_burst => SMOKE_BURST_INITIAL_ALPHA
end.

(** A particle as it is pushed at clock value [now]. *)
Definition freshParticle (now : Q) (p : Particle) : Prop :=
spawnTime p = now /\
lifetime p = initialLifetime p /\
lifetimeMin (ptype p) <= initialLifetime p /\
initialLifetime p < lifetimeMax (ptype p) /\
(exists k : Z, size p == inject_Z k /\
               (sizeMin (ptype p) <= k)%Z /\ (k <= sizeMax (ptype p))%Z) /\
(exists c : string, color p = Some c /\ In c (palette (ptype p))) /\
alpha p = initialAlpha (ptype p) /\
vy p < 0.

(** A loop body that pushes exactly one particle, which satisfies [P]. *)
Definition pushesOneSuch (P : Particle -> Prop)
  (body : nat * list Particle -> nat * list Particle) : Prop :=
forall e, exists p, P p /\ snd (body e) = snd e ++ [p].

(** A particle that the compaction loop keeps is still to be drawn:
  visible, with lifetime left. *)
Definition liveParticle (p : Particle) : Prop :=
0.01 < alpha p /\ alpha p <= 1 /\ 0 < lifetime p.

(** The number of whole particles that one emission loop takes out of an
  accumulator holding [acc] after [rate * deltaTimeFactor] is added. *)
Definition emitted (rate deltaTimeFactor : Q) (acc : option Q) : nat :=
snd (emitWhole S (default 0 acc + rate * deltaTimeFactor) O).

(** The ids of the visible campfires. *)
Definition visibleIds (visibleCampfiresMap : JsMap Campfire) : gset string :=
list_to_set (map fst visibleCampfiresMap).

End ParticleFacts.

(** A random source that walks through the unit interval. *)
Definition steppedRandom : nat -> Q :=
  fun n => inject_Z (Z.of_nat (n mod 10)) / 10.

(** A burning campfire with a player in its hot zone. *)
Definition hotCampfire : CampfireParticles.Campfire :=
  CampfireParticles.mkCampfire 100 100 true true.

(** A fire particle born at clock value 0 with a lifetime of 200 ms, and a
    smoke particle born at 0 with a lifetime of 800 ms. *)
Definition dyingFlame : CampfireParticles.Particle :=
  CampfireParticles.mkParticle CampfireParticles.fire 0 0 0 (-0.6) 0 200 200 3
                               (Some "#FFD878"%string) 1.0.

Definition youngSmoke : CampfireParticles.Particle :=
  CampfireParticles.mkParticle CampfireParticles.smoke 0 0 0 (-0.1) 0 800 800 4
                               (Some "#666666"%string) 0.6.

(** ** utils/renderers/tileRenderingUtils.ts *)

Module TileAssets.

Record TileAssetConfig : Type := mkTileAssetConfig {
baseTexture : string;
variants : option (list string);
animationFrames : option (list string);
animationSpeed : option Q;
autotileSheet : option string;
autotileSize : option Q;
autotileColumns : option Q;
autotileRows : option Q
}.

(** Truthiness of an optional string: [undefined] and the empty string are
  falsy. *)
Definition truthyString (s : option string) : bool :=
match s with
| Some s => negb (String.eqb s "")
| None => false
end.

(** [v || d] on an optional number: [undefined] and [0] are falsy. *)
Definition orElse (v : option Q) (d : Q) : Q :=
match v with
| Some q => if Qeq_bool q 0 then d else q
| None => d
end.

(** The members that every object literal inherits from
  [Object.prototype]: a lookup of one of these names on [TILE_ASSETS]
  finds a function (or the prototype itself), not a tile config. *)
Definition objectPrototypeKeys : list string :=
[ "constructor"; "__defineGetter__"; "__defineSetter__"; "hasOwnProperty";
  "__lookupGetter__"; "__lookupSetter__"; "isPrototypeOf";
  "propertyIsEnumerable"; "toString"; "valueOf"; "__proto__";
  "toLocaleString" ]%string.

(** The result of [TILE_ASSETS[tileTypeName]]. *)
Inductive Lookup : Type :=
| Own (config : TileAssetConfig)
| Inherited
| Missing.

(** The object that [getAutotileConfig] returns. *)
Record AutotileConfig : Type := mkAutotileConfig {
sheet : string;
size : Q;
columns : Q;
rows : Q
}.

(** The imported asset paths. *)
Record AssetPaths : Type := mkAssetPaths {
grassTile : string;
dirtTile : string;
dirtRoadTile : string;
seaTile : string;
beachTile : string;
grassDirtAutotile : string;
beachSeaAutotile : string
}.

Section Assets.
Variable assetPaths : AssetPaths.
(** [`${n}`] for a number, a built-in. *)
Variable numberToString : Q -> string.

Definition TILE_ASSETS : list (string * TileAssetConfig) :=
[ ("Grass"%string,
   mkTileAssetConfig (grassTile assetPaths) None None None
                     (Some (grassDirtAutotile assetPaths)) (Some 213) (Some 6)
                     (Some 6));
  ("Dirt"%string,
   mkTileAssetConfig (dirtTile assetPaths) None None None None None None None);
  ("DirtRoad"%string,
   mkTileAssetConfig (dirtRoadTile assetPaths) None None None None None None None);
  ("Sea"%string,
   mkTileAssetConfig (seaTile assetPaths) None None None None None None None);
  ("Beach"%string,
   mkTileAssetConfig (beachTile assetPaths) None None None
                     (Some (beachSeaAutotile assetPaths)) (Some 213) (Some 6)
                     (Some 8));
  ("Sand"%string,
   mkTileAssetConfig (beachTile assetPaths) None None None None None None None) ].

Definition lookupTileAsset (tileTypeName : string) : Lookup :=
match List.find (fun entry => String.eqb (fst entry) tileTypeName) TILE_ASSETS with
| Some entry => Own (snd entry)
| None =>
    if existsb (String.eqb tileTypeName) objectPrototypeKeys then Inherited
    else Missing
end.

Definition getTileAssetKey (tileTypeName : string) (variant frameIndex : option Q)
  (autotileKey : option string) : string :=
let withoutAutotile :=
  match frameIndex with
  | Some frame => (tileTypeName ++ "_frame" ++ numberToString frame)%string
  | None =>
      match variant with
      | Some v =>
          if Qgt_bool v 128
          then (tileTypeName ++ "_variant" ++ numberToString v)%string
          else (tileTypeName ++ "_base")%string
      | None => (tileTypeName ++ "_base")%string
      end
  end in
match autotileKey with
| Some key =>
    if truthyString autotileKey
    then (tileTypeName ++ "_autotile_" ++ key)%string
    else withoutAutotile
| None => withoutAutotile
end.

(** The body of [Object.entries(TILE_ASSETS).forEach]. *)
Definition pushPaths (paths : list string) (entry : string * TileAssetConfig)
  : list string :=
let config := snd entry in
let paths1 := paths ++ [baseTexture config] in
let paths2 := match variants config with
              | Some vs => paths1 ++ vs
              | None => paths1
              end in
let paths3 := match animationFrames config with
              | Some frames => paths2 ++ frames
              | None => paths2
              end in
match autotileSheet config with
| Some path => if truthyString (autotileSheet config) then paths3 ++ [path] else paths3
| None => paths3
end.

Definition getAllTileAssetPaths : list string :=
fold_left pushPaths TILE_ASSETS [].

(** [config && !!config.autotileSheet]: [None] is [undefined]. *)
Definition hasAutotileSupport (tileTypeName : string) : option bool :=
match lookupTileAsset tileTypeName with
| Own config => Some (truthyString (autotileSheet config))
| Inherited => Some false
| Missing => None
end.

Definition getAutotileConfig (tileTypeName : string) : option AutotileConfig :=
match lookupTileAsset tileTypeName with
| Own config =>
    match autotileSheet config with
    | Some path =>
        if truthyString (autotileSheet config)
        then Some {| sheet := path;
                     size := orElse (autotileSize config) 16;
                     columns := orElse (autotileColumns config) 6;
                     rows := orElse (autotileRows config) 8 |}
        else None
    | None => None
    end
| Inherited => None
| Missing => None
end.
End Assets.

End TileAssets.

(** Asset paths as a bundler resolves the imports. *)
Definition bundledPaths : TileAssets.AssetPaths :=
  TileAssets.mkAssetPaths
    "/assets/grass2.png" "/assets/dirt.png" "/assets/dirt_road.png"
    "/assets/sea2.png" "/assets/beach3.png"
    "/assets/tileset_grass_dirt_autotile.png"
    "/assets/tileset_beach_sea_autotile.png".

(** ** components/Hotbar.tsx *)

Module Hotbar.

(** [itemInstance.location]: the Hotbar variant with its owner and slot,
  or another variant, of which only the tag is kept. *)
Inductive ItemLocation : Type :=
| InHotbar (ownerId : string) (slotIndex : Z)
| Elsewhere (tag : string).

Record InventoryItem : Type := mkInventoryItem {
instanceId : Z;
itemDefId : Z;
location : ItemLocation
}.

Record ItemDefinition : Type := mkItemDefinition {
defId : Z;
defName : string;
categoryTag : string;
isEquippable : bool;
iconAssetName : string;
equipmentSlotType : option string     (* null or undefined: [None] *)
}.

Record PopulatedItem : Type := mkPopulatedItem {
instance : InventoryItem;
definition : ItemDefinition
}.

Record PlacementItemInfo : Type := mkPlacementItemInfo {
placementItemDefId : Z;
placementItemName : string;
placementIconAssetName : string;
placementInstanceId : Z
}.

(** [connection]: [null], an object without [reducers], or a live
  connection. *)
Inductive Connection : Type :=
| NoConnection
| WithoutReducers
| Connected.

(** [connection?.reducers] is truthy. *)
Definition hasReducers (connection : Connection) : bool :=
match connection with Connected => true | _ => false end.

(** What a handler does to the component state, to its callbacks and to
  the reducers, in order.  A reducer call is recorded whether or not it
  throws (every call sits in a [try] whose [catch] only logs); console
  output is not represented. *)
Inductive Effect : Type :=
| SetSelectedSlot (index : Z)
| CancelPlacement
| StartPlacement (info : PlacementItemInfo)
| ConsumeItem (itemInstanceId : Z)
| EquipArmorFromInventory (itemInstanceId : Z)
| ClearActiveItemReducer (identity : string)
| SetActiveItemReducer (itemInstanceId : Z)
| QuickMoveToBox (boxId : Z) (itemInstanceId : Z)
| QuickMoveToCampfire (campfireId : Z) (itemInstanceId : Z)
| QuickMoveToCorpse (corpseId : Z) (itemInstanceId : Z)
| PreventDefault
| StopPropagation.

Definition numSlots : Z := 6.

Section Component.
Variable playerIdentity : option string.
Variable itemDefinitions : gmap string ItemDefinition.
Variable inventoryItems : JsMap InventoryItem.
Variable connection : Connection.
Variable interactingWith : option (string * Z).
(** [parseInt], a built-in: [None] is [NaN]. *)
Variable parseInt : string -> option Z.

(** The [for ... of inventoryItems.values()] loop of [findItemForSlot]. *)
Fixpoint findIn (me : string) (slotIndex : Z) (items : list InventoryItem)
  : option PopulatedItem :=
match items with
| [] => None
| itemInstance :: rest =>
    match location itemInstance with
    | InHotbar ownerId slot =>
        if String.eqb ownerId me && (slot =? slotIndex)%Z then
          match itemDefinitions !! pretty (itemDefId itemInstance) with
          | Some definition => Some (mkPopulatedItem itemInstance definition)
          | None => findIn me slotIndex rest
          end
        else findIn me slotIndex rest
    | Elsewhere _ => findIn me slotIndex rest
    end
end.

Definition findItemForSlot (slotIndex : Z) : option PopulatedItem :=
match playerIdentity with
| None => None
| Some me => findIn me slotIndex (values inventoryItems)
end.

(** [try { if (playerIdentity) connection.reducers.clearActiveItemReducer(playerIdentity) }]. *)
Definition clearActiveItem : list Effect :=
match playerIdentity with
| Some me => [ClearActiveItemReducer me]
| None => []
end.

Definition handleKeyDown (inventoryPanel : bool) (key : string) : list Effect :=
if inventoryPanel then []
else
  match parseInt key with
  | None => []
  | Some keyNum =>
      if (1 <=? keyNum)%Z && (keyNum <=? numSlots)%Z then
        let newSlotIndex := (keyNum - 1)%Z in
        let itemInNewSlot := findItemForSlot newSlotIndex in
        SetSelectedSlot newSlotIndex ::
        (if negb (hasReducers connection) then []
         else
           match itemInNewSlot with
           | Some item =>
               let categoryTag := categoryTag (definition item) in
               let name := defName (definition item) in
               let instanceId := instanceId (instance item) in
               if String.eqb categoryTag "Consumable" then
                 [CancelPlacement; ConsumeItem instanceId]
               else if String.eqb categoryTag "Armor" then
                 [CancelPlacement; EquipArmorFromInventory instanceId]
               else if String.eqb categoryTag "Placeable" then
                 StartPlacement
                   (mkPlacementItemInfo (defId (definition item)) name
                                        (iconAssetName (definition item))
                                        instanceId)
                 :: clearActiveItem
               else if isEquippable (definition item) then
                 [CancelPlacement; SetActiveItemReducer instanceId]
               else CancelPlacement :: clearActiveItem
           | None => CancelPlacement :: clearActiveItem
           end)
      else []
  end.

Definition handleSlotClick (index : Z) : list Effect :=
let clickedItem := findItemForSlot index in
SetSelectedSlot index ::
match clickedItem with
| None =>
    (* [connection?.reducers.clearActiveItemReducer]: no call without a
       connection, a caught [TypeError] without reducers *)
    CancelPlacement ::
    (if hasReducers connection then clearActiveItem else [])
| Some item =>
    if negb (hasReducers connection) then []
    else
      let categoryTag := categoryTag (definition item) in
      let name := defName (definition item) in
      let instanceId := instanceId (instance item) in
      if String.eqb categoryTag "Consumable" then
        [CancelPlacement; ConsumeItem instanceId]
      else if String.eqb categoryTag "Armor" then
        [CancelPlacement; EquipArmorFromInventory instanceId]
      else if String.eqb categoryTag "Placeable" then
        StartPlacement
          (mkPlacementItemInfo (defId (definition item)) name
                               (iconAssetName (definition item)) instanceId)
        :: clearActiveItem
      else if isEquippable (definition item) then
        [CancelPlacement; SetActiveItemReducer instanceId]
      else CancelPlacement :: clearActiveItem
end.

(** [interactingWith?.type === type]. *)
Definition interactingWithType (type : string) : bool :=
match interactingWith with
| Some target => String.eqb (fst target) type
| None => false
end.

(** [Number(interactingWith.id)] in a branch where a target is open. *)
Definition interactingId : Z :=
match interactingWith with
| Some target => snd target
| None => 0%Z
end.

Definition handleHotbarItemContextMenu (itemInfo : PopulatedItem) : list Effect :=
PreventDefault :: StopPropagation ::
(if negb (hasReducers connection) then []
 else
   let itemInstanceId := instanceId (instance itemInfo) in
   if interactingWithType "wooden_storage_box" then
     [QuickMoveToBox interactingId itemInstanceId]
   else if interactingWithType "campfire" then
     [QuickMoveToCampfire interactingId itemInstanceId]
   else if interactingWithType "player_corpse" then
     [QuickMoveToCorpse interactingId itemInstanceId]
   else
     let isArmor := String.eqb (categoryTag (definition itemInfo)) "Armor" in
     let hasEquipSlot := defined (equipmentSlotType (definition itemInfo)) in
     if isArmor && hasEquipSlot then [EquipArmorFromInventory itemInstanceId]
     else []).

End Component.

Definition isReducerCall (effect : Effect) : bool :=
match effect with
| ConsumeItem _ | EquipArmorFromInventory _ | ClearActiveItemReducer _
| SetActiveItemReducer _ | QuickMoveToBox _ _ | QuickMoveToCampfire _ _
| QuickMoveToCorpse _ _ => true
| _ => false
end.

Definition isPlacementCall (effect : Effect) : bool :=
match effect with
| CancelPlacement | StartPlacement _ => true
| _ => false
end.

(** The number of reducer calls, and of calls of [cancelPlacement] or
  [startPlacement], among the effects of a handler. *)
Definition reducerCalls (effects : list Effect) : nat :=
length (List.filter isReducerCall effects).

Definition placementCalls (effects : list Effect) : nat :=
length (List.filter isPlacementCall effects).

End Hotbar.

(** A parser for the keys of the sample below: the digits one to nine. *)
Definition digitKey (key : string) : option Z :=
  if String.eqb key "1" then Some 1%Z
  else if String.eqb key "2" then Some 2%Z
  else if String.eqb key "3" then Some 3%Z
  else if String.eqb key "7" then Some 7%Z
  else None.

(** A stone hatchet in slot 0 and a bandage in slot 1 of player [c200a1]. *)
Definition sampleDefinitions : gmap string Hotbar.ItemDefinition :=
  {[ "10"%string := Hotbar.mkItemDefinition 10 "Stone Hatchet" "Tool" true
                                            "hatchet.png" None;
     "11"%string := Hotbar.mkItemDefinition 11 "Bandage" "Consumable" false
                                            "bandage.png" None ]}.

Definition sampleInventory : JsMap Hotbar.InventoryItem :=
  [ ("1"%string, Hotbar.mkInventoryItem 1 10 (Hotbar.InHotbar "c200a1" 0));
    ("2"%string, Hotbar.mkInventoryItem 2 11 (Hotbar.InHotbar "c200a1" 1));
    ("3"%string, Hotbar.mkInventoryItem 3 11 (Hotbar.Elsewhere "Inventory")) ].

(** * Properties *)

(** ** Numbers *)

Lemma Qlt_bool_iff (a b : Q) : Qlt_bool a b = true <-> a < b.
Proof.
  unfold Qlt_bool. rewrite negb_true_iff.
  split; intros H.
  - apply Qnot_le_lt. intros Hle. apply Qle_bool_iff in Hle. congruence.
  - destruct (Qle_bool b a) eqn:E; [|reflexivity].
    apply Qle_bool_iff in E. exfalso. exact (Qlt_not_le _ _ H E).
Qed.

Lemma Qgt_bool_iff (a b : Q) : Qgt_bool a b = true <-> b < a.
Proof. unfold Qgt_bool. apply Qlt_bool_iff. Qed.

Lemma Qlt_bool_false_iff (a b : Q) : Qlt_bool a b = false <-> b <= a.
Proof.
  unfold Qlt_bool. rewrite negb_false_iff. apply Qle_bool_iff.
Qed.

Lemma Qle_bool_false_iff (a b : Q) : Qle_bool a b = false <-> b < a.
Proof.
  rewrite <- Qlt_bool_iff. unfold Qlt_bool.
  destruct (Qle_bool a b); simpl; split; congruence.
Qed.

(** ** Entity classifier *)

Lemma isCorn_isMushroom (e : Entity) : isCorn e = isMushroom e.
Proof. reflexivity. Qed.

Lemma isSleepingBag_isWoodenStorageBox (e : Entity) :
  isSleepingBag e = true -> isWoodenStorageBox e = true.
Proof.
  unfold isSleepingBag, isWoodenStorageBox.
  rewrite !andb_true_iff. tauto.
Qed.

(** The guards that test for the presence of each other's fields never
    accept the same record. *)
Lemma guards_with_exclusions_disjoint (e : Entity) :
  (isStone e && isMushroom e = false) /\
  (isStone e && isDroppedItem e = false) /\
  (isMushroom e && isDroppedItem e = false) /\
  (isCampfire e && isWoodenStorageBox e = false) /\
  (isCampfire e && isSleepingBag e = false) /\
  (isPlayer e && isStone e = false) /\
  (isPlayer e && isMushroom e = false) /\
  (isPlayer e && isDroppedItem e = false) /\
  (isTree e && isStone e = false) /\
  (isTree e && isMushroom e = false) /\
  (isTree e && isDroppedItem e = false) /\
  (isCampfire e && isStone e = false) /\
  (isCampfire e && isMushroom e = false) /\
  (isCampfire e && isDroppedItem e = false) /\
  (isWoodenStorageBox e && isStone e = false) /\
  (isWoodenStorageBox e && isMushroom e = false) /\
  (isWoodenStorageBox e && isDroppedItem e = false).
Proof.
  unfold isStone, isMushroom, isDroppedItem, isCampfire, isWoodenStorageBox,
    isSleepingBag, isPlayer, isTree, isNumber, isBoolean, undefined.
  destruct (identity e), (positionX e), (treeType e), (posX e), (posY e),
    (health e), (placedBy e), (itemDefId e), (isBurning e), (id e),
    (slot_instance_id_0 e); simpl; repeat split; reflexivity.
Qed.

(** C1. The claim says that no record satisfies both [isWoodenStorageBox]
    and [isSleepingBag].  A sleeping bag row (position, owner, id, neither
    [isBurning] nor a slot field) is accepted by both guards, so two of the
    nine predicates return true on it. *)
Theorem sleeping_bag_accepted_as_storage_box :
  isWoodenStorageBox sampleSleepingBag = true /\
  isSleepingBag sampleSleepingBag = true /\
  matchCount sampleSleepingBag = 2%nat.
Proof. repeat split; reflexivity. Qed.

(** ** Viewport culler *)

Lemma aabbOverlap_iff (x y width height : Q) (bounds : ViewportBounds) :
  aabbOverlap x y width height bounds = true <->
  strictOverlap x y width height bounds.
Proof.
  unfold aabbOverlap, strictOverlap.
  rewrite !andb_true_iff, !Qgt_bool_iff, !Qlt_bool_iff. tauto.
Qed.

Lemma kindWidth_pos (k : Kind) : 0 < kindWidth k / 2.
Proof. destruct k; reflexivity. Qed.

Lemma kindHeight_pos (k : Kind) : 0 < kindHeight k / 2.
Proof. destruct k; reflexivity. Qed.

(** Each branch of the chain uses the position fields and the fixed size of
    the kind it stands for. *)
Lemma hook_resolveExtent_kindOf (e : Entity) :
  EntityFiltering.resolveExtent e =
  option_map (fun k => mkExtent (kindCenterX k e) (kindCenterY k e)
                                (kindWidth k) (kindHeight k))
             (EntityFiltering.kindOf e).
Proof.
  unfold EntityFiltering.resolveExtent, EntityFiltering.kindOf.
  repeat match goal with
         | |- context [if ?g then _ else _] => destruct g; [reflexivity|]
         end.
  reflexivity.
Qed.

Lemma canvas_resolveExtent_kindOf (e : Entity) :
  GameCanvas.resolveExtent e =
  option_map (fun k => mkExtent (kindCenterX k e) (kindCenterY k e)
                                (kindWidth k) (kindHeight k))
             (GameCanvas.kindOf e).
Proof.
  unfold GameCanvas.resolveExtent, GameCanvas.kindOf.
  repeat match goal with
         | |- context [if ?g then _ else _] => destruct g; [reflexivity|]
         end.
  reflexivity.
Qed.

Section Culling.
Variable e : Entity.
Variable bounds : ViewportBounds.

Lemma inView_of_extent (kind : option Kind) :
match option_map (fun k => mkExtent (kindCenterX k e) (kindCenterY k e)
                                    (kindWidth k) (kindHeight k)) kind with
| None => false
| Some ext =>
    match ex ext, ey ext with
    | Some x, Some y => aabbOverlap x y (ewidth ext) (eheight ext) bounds
    | _, _ => false
    end
end = true <-> inViewSpec e bounds kind.
Proof.
unfold inViewSpec. destruct kind as [k|]; simpl.
- destruct (kindCenterX k e) as [x|] eqn:Ex, (kindCenterY k e) as [y|] eqn:Ey;
    simpl.
  + rewrite aabbOverlap_iff. split.
    * intros H. exists k, x, y. rewrite Ex, Ey. auto.
    * intros (k' & x' & y' & Hk & Hx & Hy & H).
      inversion Hk; subst k'. rewrite Ex in Hx. rewrite Ey in Hy.
      inversion Hx; inversion Hy; subst. exact H.
  + split; [discriminate|].
    intros (k' & x' & y' & Hk & Hx & Hy & H).
    inversion Hk; subst k'. congruence.
  + split; [discriminate|].
    intros (k' & x' & y' & Hk & Hx & Hy & H).
    inversion Hk; subst k'. congruence.
  + split; [discriminate|].
    intros (k' & x' & y' & Hk & Hx & Hy & H).
    inversion Hk; subst k'. congruence.
- split; [discriminate|].
  intros (k' & x' & y' & Hk & _). discriminate.
Qed.

Lemma hook_inView_iff :
EntityFiltering.isEntityInView e bounds = true <->
inViewSpec e bounds (EntityFiltering.kindOf e).
Proof.
unfold EntityFiltering.isEntityInView.
rewrite hook_resolveExtent_kindOf. apply inView_of_extent.
Qed.

Lemma canvas_inView_iff :
GameCanvas.isEntityInView e bounds = true <->
inViewSpec e bounds (GameCanvas.kindOf e).
Proof.
unfold GameCanvas.isEntityInView.
rewrite canvas_resolveExtent_kindOf. apply inView_of_extent.
Qed.


End Culling.

(** The corn and sleeping-bag branches of the hook's chain are never taken:
    a corn row is settled as a mushroom and a sleeping-bag row as a storage
    box. *)
Lemma hook_kindOf_never_corn_or_sleeping_bag (e : Entity) :
  EntityFiltering.kindOf e <> Some KCorn /\
  EntityFiltering.kindOf e <> Some KSleepingBag.
Proof.
  pose proof (isSleepingBag_isWoodenStorageBox e) as Hbag.
  unfold EntityFiltering.kindOf. change (isCorn e) with (isMushroom e).
  destruct (isPlayer e), (isTree e), (isStone e), (isCampfire e), (isMushroom e),
    (isDroppedItem e), (isWoodenStorageBox e), (isSleepingBag e);
    split; try discriminate; specialize (Hbag eq_refl); discriminate.
Qed.

Lemma canvas_kindOf_never_corn (e : Entity) :
  GameCanvas.kindOf e <> Some KCorn.
Proof.
  unfold GameCanvas.kindOf. change (isCorn e) with (isMushroom e).
  destruct (isPlayer e), (isTree e), (isStone e), (isCampfire e), (isMushroom e),
    (isDroppedItem e), (isWoodenStorageBox e); discriminate.
Qed.





(** ** Layer splitter *)

Lemma hook_groundItems_In (t : Tables) (b : ViewportBounds) (e : Entity) :
  In e (EntityFiltering.groundItems t b) <->
  In e (EntityFiltering.visibleDroppedItems t b) \/
  In e (EntityFiltering.visibleCampfires t b) \/
  In e (EntityFiltering.visibleSleepingBags t b).
Proof.
  unfold EntityFiltering.groundItems. rewrite !in_app_iff. tauto.
Qed.

Lemma canvas_groundItems_In (t : Tables) (b : ViewportBounds) (e : Entity) :
  In e (GameCanvas.groundItems t b) <->
  In e (GameCanvas.visibleMushrooms t b) \/
  In e (GameCanvas.visibleCorns t b) \/
  In e (GameCanvas.visibleDroppedItems t b) \/
  In e (GameCanvas.visibleCampfires t b).
Proof.
  unfold GameCanvas.groundItems. rewrite !in_app_iff. tauto.
Qed.

(** C3.  The claim puts the visible mushrooms and corn in the ground layer.
    With one visible mushroom and one visible corn and nothing else, the
    hook's [groundItems] is empty, while the inline copy in GameCanvas
    holds both. *)
Theorem hook_groundItems_omit_mushrooms_and_corn :
  EntityFiltering.visibleMushrooms harvestTables sampleBounds
    = [mushroomRow 1 100 100] /\
  EntityFiltering.visibleCorns harvestTables sampleBounds
    = [mushroomRow 2 200 100] /\
  EntityFiltering.groundItems harvestTables sampleBounds = [] /\
  GameCanvas.groundItems harvestTables sampleBounds
    = [GameCanvas.withEntityType "mushroom" (mushroomRow 1 100 100);
       GameCanvas.withEntityType "corn" (mushroomRow 2 200 100)].
Proof. repeat split; reflexivity. Qed.

(** ** The stable sort *)

Section JsSort.
Context {A : Type}.
Variable compareFn : A -> A -> Q.
Variable key : A -> Q.
(** The elements on which the comparator is the difference of keys. *)
Variable keyed : A -> Prop.
Hypothesis compare_keys :
forall a b, keyed a -> keyed b -> compareFn a b == key a - key b.

Lemma sortInsert_perm (x : A) (l : list A) :
Permutation (sortInsert compareFn x l) (x :: l).
Proof.
induction l as [|y r IH]; simpl; [reflexivity|].
destruct (Qle_bool (compareFn x y) 0); [reflexivity|].
rewrite IH. apply perm_swap.
Qed.

Lemma jsSort_perm (l : list A) : Permutation (jsSort compareFn l) l.
Proof.
induction l as [|x r IH]; simpl; [reflexivity|].
rewrite sortInsert_perm. now constructor.
Qed.

Lemma jsSort_keyed (l : list A) :
Forall keyed l -> Forall keyed (jsSort compareFn l).
Proof.
intros H. eapply Permutation_Forall; [|exact H].
symmetry. apply jsSort_perm.
Qed.

Lemma compare_le (a b : A) :
keyed a -> keyed b ->
(Qle_bool (compareFn a b) 0 = true <-> key a <= key b).
Proof.
intros Ha Hb. rewrite Qle_bool_iff, (compare_keys a b Ha Hb).
split; intros H; lra.
Qed.

Lemma sortInsert_sorted (x : A) (l : list A) :
keyed x -> Forall keyed l ->
StronglySorted (ascending key) l ->
StronglySorted (ascending key) (sortInsert compareFn x l).
Proof.
intros Hx Hl Hs. induction Hs as [|y r Hs IH Hy]; simpl.
- constructor; constructor.
- inversion Hl as [|? ? Hky Hkr]; subst.
  destruct (Qle_bool (compareFn x y) 0) eqn:E.
  + apply (compare_le x y Hx Hky) in E.
    constructor; [constructor; assumption|].
    constructor; [exact E|].
    eapply List.Forall_impl; [|exact Hy].
    unfold ascending. intros z Hz. lra.
  + constructor; [apply IH; assumption|].
    eapply Permutation_Forall; [symmetry; apply sortInsert_perm|].
    constructor; [|exact Hy].
    unfold ascending.
    destruct (Qlt_le_dec (key x) (key y)) as [Hlt|Hle]; [|exact Hle].
    exfalso. assert (Qle_bool (compareFn x y) 0 = true) as E'.
    { apply (compare_le x y Hx Hky). lra. }
    congruence.
Qed.

Lemma jsSort_sorted (l : list A) :
Forall keyed l -> StronglySorted (ascending key) (jsSort compareFn l).
Proof.
induction l as [|x r IH]; simpl; intros H; [constructor|].
inversion H; subst.
apply sortInsert_sorted; auto using jsSort_keyed.
Qed.

(** Inserting [x] in front of a list moves it only past elements with a
  strictly smaller key, so the order among equal keys is kept. *)
Lemma sortInsert_stable (q : Q) (x : A) (l : list A) :
keyed x -> Forall keyed l ->
withKey key q (sortInsert compareFn x l) = withKey key q (x :: l).
Proof.
intros Hx Hl. induction l as [|y r IH]; [reflexivity|].
inversion Hl as [|? ? Hky Hkr]; subst.
simpl. destruct (Qle_bool (compareFn x y) 0) eqn:E; [reflexivity|].
assert (key y < key x) as Hlt.
{ destruct (Qlt_le_dec (key y) (key x)) as [Hlt|Hle]; [exact Hlt|].
  apply (compare_le x y Hx Hky) in Hle. congruence. }
unfold withKey in *. simpl in *. rewrite (IH Hkr).
destruct (Qeq_bool (key x) q) eqn:Ex; [|reflexivity].
destruct (Qeq_bool (key y) q) eqn:Ey; [|reflexivity].
apply Qeq_bool_iff in Ex. apply Qeq_bool_iff in Ey. lra.
Qed.

Lemma jsSort_stable (q : Q) (l : list A) :
Forall keyed l -> withKey key q (jsSort compareFn l) = withKey key q l.
Proof.
induction l as [|x r IH]; [reflexivity|].
intros H. inversion H; subst. simpl jsSort.
rewrite sortInsert_stable by auto using jsSort_keyed.
unfold withKey in *. simpl. rewrite (IH ltac:(assumption)). reflexivity.
Qed.

(** A list that is already in ascending order is returned unchanged. *)
Lemma jsSort_fixed (l : list A) :
Forall keyed l -> StronglySorted (ascending key) l -> jsSort compareFn l = l.
Proof.
intros Hk Hs. induction Hs as [|x r Hs IH Hx]; [reflexivity|].
inversion Hk; subst. simpl. rewrite IH by assumption.
destruct r as [|y r']; [reflexivity|]. simpl.
inversion Hx; subst.
assert (keyed y) as Hy by (inversion H2; assumption).
assert (Qle_bool (compareFn x y) 0 = true) as E.
{ apply (compare_le x y); assumption. }
rewrite E. reflexivity.
Qed.
End JsSort.

(** ** Y-sorted layer *)

Lemma hook_kindOf_player (e : Entity) (k : Kind) :
  EntityFiltering.kindOf e = Some k ->
  if isPlayer e then k = KPlayer else k <> KPlayer.
Proof.
  unfold EntityFiltering.kindOf.
  destruct (isPlayer e); [congruence|].
  repeat match goal with
         | |- context [if ?g then _ else _] => destruct g; [congruence|]
         end.
  discriminate.
Qed.

Lemma canvas_kindOf_player (e : Entity) (k : Kind) :
  GameCanvas.kindOf e = Some k ->
  if isPlayer e then k = KPlayer else k <> KPlayer.
Proof.
  unfold GameCanvas.kindOf.
  destruct (isPlayer e); [congruence|].
  repeat match goal with
         | |- context [if ?g then _ else _] => destruct g; [congruence|]
         end.
  discriminate.
Qed.

(** An entity that passed the culler has a numeric Y key. *)
Lemma hook_inView_yOf (e : Entity) (b : ViewportBounds) :
  EntityFiltering.isEntityInView e b = true ->
  exists y, EntityFiltering.yOf e = Some y.
Proof.
  intros H. apply hook_inView_iff in H.
  destruct H as (k & x & y & Hk & Hx & Hy & _).
  apply hook_kindOf_player in Hk. unfold EntityFiltering.yOf.
  destruct (isPlayer e); [subst k; eauto|].
  destruct k; try congruence; eauto.
Qed.

Lemma canvas_inView_yOf (e : Entity) (b : ViewportBounds) :
  GameCanvas.isEntityInView e b = true ->
  exists y, GameCanvas.yOf e = Some y.
Proof.
  intros H. apply canvas_inView_iff in H.
  destruct H as (k & x & y & Hk & Hx & Hy & _).
  apply canvas_kindOf_player in Hk. unfold GameCanvas.yOf.
  destruct (isPlayer e); [subst k; eauto|].
  destruct k; try congruence; destruct (isWoodenStorageBox e); eauto.
Qed.

Lemma filter_and_r {A : Type} (f g : A -> bool) (l : list A) :
  Forall (fun a => g a = true) (List.filter (fun a => f a && g a) l).
Proof.
  apply List.Forall_forall. intros a Ha. apply filter_In in Ha.
  destruct Ha as [_ Ha]. apply andb_true_iff in Ha. tauto.
Qed.

Lemma filter_holds {A : Type} (g : A -> bool) (l : list A) :
  Forall (fun a => g a = true) (List.filter g l).
Proof.
  apply List.Forall_forall. intros a Ha. apply filter_In in Ha. tauto.
Qed.

Lemma filter_sub {A : Type} (P : A -> Prop) (g : A -> bool) (l : list A) :
  Forall P l -> Forall P (List.filter g l).
Proof.
  rewrite !List.Forall_forall. intros H a Ha. apply filter_In in Ha.
  apply H. tauto.
Qed.

Lemma hook_ySortedInput_inView (t : Tables) (b : ViewportBounds) :
  Forall (fun e => EntityFiltering.isEntityInView e b = true)
         (EntityFiltering.ySortedInput t b).
Proof.
  unfold EntityFiltering.ySortedInput.
  repeat apply Forall_app_2.
  - apply filter_holds.
  - apply (filter_and_r healthPositive).
  - apply filter_sub. apply (filter_and_r healthPositive).
  - apply filter_holds.
Qed.

Lemma canvas_ySortedInput_inView (t : Tables) (b : ViewportBounds) :
  Forall (fun e => GameCanvas.isEntityInView e b = true)
         (GameCanvas.ySortedInput t b).
Proof.
  unfold GameCanvas.ySortedInput.
  repeat apply Forall_app_2.
  - apply (filter_and_r (fun p => negb (truthy (isDead p)))).
  - apply (filter_and_r healthPositive).
  - apply (filter_and_r healthPositive).
  - apply filter_holds.
Qed.

Lemma compareResult_keys (a b : option Q) :
  (exists y, a = Some y) -> (exists y, b = Some y) ->
  compareResult a b == numberOf a - numberOf b.
Proof. intros [ya ->] [yb ->]. reflexivity. Qed.

(** The second filter on the stones in the hook removes nothing. *)
Lemma hook_stones_filtered_twice (t : Tables) (b : ViewportBounds) :
  List.filter healthPositive (EntityFiltering.visibleStones t b)
  = EntityFiltering.visibleStones t b.
Proof.
  unfold EntityFiltering.visibleStones.
  induction (values (stones t)) as [|e l IH]; [reflexivity|].
  simpl. destruct (healthPositive e) eqn:E; simpl; [|exact IH].
  destruct (EntityFiltering.isEntityInView e b); simpl; [|exact IH].
  rewrite E, IH. reflexivity.
Qed.

(** C8.  The Y-sorted layer of the hook and of GameCanvas is a rearrangement
    of the visible players, trees, stones and storage boxes in ascending
    order of the Y key ([positionY] for a player, [posY] otherwise); every
    key is a number; entities with equal keys keep the order in which they
    were put into the list; and sorting the result again returns the same
    list. *)
Theorem ySortedEntities_ascending_stable (t : Tables) (b : ViewportBounds) :
  (forall e, EntityFiltering.yOf e = if isPlayer e then positionY e else posY e) /\
  (forall e, GameCanvas.yOf e = if isPlayer e then positionY e else posY e) /\
  (let key := fun e => numberOf (EntityFiltering.yOf e) in
   let input := EntityFiltering.visiblePlayers t b ++ EntityFiltering.visibleTrees t b
                ++ EntityFiltering.visibleStones t b
                ++ EntityFiltering.visibleWoodenStorageBoxes t b in
   let sorted := EntityFiltering.ySortedEntities t b in
   Permutation sorted input /\
   Forall (fun e => EntityFiltering.yOf e <> None) sorted /\
   StronglySorted (ascending key) sorted /\
   (forall q, withKey key q sorted = withKey key q input) /\
   jsSort EntityFiltering.compareY sorted = sorted) /\
  (let key := fun e => numberOf (GameCanvas.yOf e) in
   let input := GameCanvas.visiblePlayers t b ++ GameCanvas.visibleTrees t b
                ++ GameCanvas.visibleStones t b
                ++ GameCanvas.visibleWoodenStorageBoxes t b in
   let sorted := GameCanvas.ySortedEntities t b in
   Permutation sorted input /\
   Forall (fun e => GameCanvas.yOf e <> None) sorted /\
   StronglySorted (ascending key) sorted /\
   (forall q, withKey key q sorted = withKey key q input) /\
   jsSort GameCanvas.compareY sorted = sorted).
Proof.
  split; [reflexivity|].
  split; [intros e; unfold GameCanvas.yOf;
          destruct (isPlayer e), (isWoodenStorageBox e); reflexivity|].
  split.
  - intros key input sorted.
    assert (EntityFiltering.ySortedInput t b = input) as Hin.
    { unfold EntityFiltering.ySortedInput, input.
      rewrite hook_stones_filtered_twice. reflexivity. }
    set (keyed := fun e => exists y, EntityFiltering.yOf e = Some y).
    assert (forall a c, keyed a -> keyed c ->
                        EntityFiltering.compareY a c == key a - key c) as Hcmp.
    { intros a c Ha Hc. apply compareResult_keys; assumption. }
    assert (Forall keyed input) as Hk.
    { rewrite <- Hin.
      eapply List.Forall_impl; [|apply hook_ySortedInput_inView].
      intros e He. exact (hook_inView_yOf e b He). }
    subst sorted. unfold EntityFiltering.ySortedEntities. rewrite Hin.
    pose proof (jsSort_keyed EntityFiltering.compareY keyed input Hk) as Hks.
    repeat split.
    + apply jsSort_perm.
    + eapply List.Forall_impl; [|exact Hks].
      intros e [y Hy]. congruence.
    + exact (jsSort_sorted _ key keyed Hcmp input Hk).
    + intros q. exact (jsSort_stable _ key keyed Hcmp q input Hk).
    + apply (jsSort_fixed _ key keyed Hcmp); [exact Hks|].
      exact (jsSort_sorted _ key keyed Hcmp input Hk).
  - intros key input sorted.
    set (keyed := fun e => exists y, GameCanvas.yOf e = Some y).
    assert (forall a c, keyed a -> keyed c ->
                        GameCanvas.compareY a c == key a - key c) as Hcmp.
    { intros a c Ha Hc. apply compareResult_keys; assumption. }
    assert (Forall keyed input) as Hk.
    { eapply List.Forall_impl; [|apply canvas_ySortedInput_inView].
      intros e He. exact (canvas_inView_yOf e b He). }
    subst sorted. unfold GameCanvas.ySortedEntities.
    change (GameCanvas.ySortedInput t b) with input.
    pose proof (jsSort_keyed GameCanvas.compareY keyed input Hk) as Hks.
    repeat split.
    + apply jsSort_perm.
    + eapply List.Forall_impl; [|exact Hks].
      intros e [y Hy]. congruence.
    + exact (jsSort_sorted _ key keyed Hcmp input Hk).
    + intros q. exact (jsSort_stable _ key keyed Hcmp q input Hk).
    + apply (jsSort_fixed _ key keyed Hcmp); [exact Hks|].
      exact (jsSort_sorted _ key keyed Hcmp input Hk).
Qed.

(** ** Jump arc *)

(** The parabola vanishes at both ends and reaches [h] in the middle, for
    every non-zero duration. *)
Lemma jumpArc_ends_and_peak (d h : Q) :
  ~ d == 0 ->
  Rendering.jumpArc d h 0 == 0 /\
  Rendering.jumpArc d h d == 0 /\
  Rendering.jumpArc d h (d / 2) == h.
Proof.
  intros Hd. unfold Rendering.jumpArc. repeat split; field; exact Hd.
Qed.

Lemma jumpArc_proper (x x' : Q) :
  x == x' ->
  Rendering.jumpArc Rendering.JUMP_DURATION_MS Rendering.JUMP_HEIGHT_PX x ==
  Rendering.jumpArc Rendering.JUMP_DURATION_MS Rendering.JUMP_HEIGHT_PX x'.
Proof. intros H. unfold Rendering.jumpArc. rewrite H. reflexivity. Qed.

(** C7.  For a player whose jump started at [jumpStartTime > 0], the
    vertical offset is 0 when no time has elapsed, is 0 when the whole
    duration of 400 ms has elapsed (the jump branch is then not taken),
    and is exactly the peak height of 40 px at the midpoint, 200 ms. *)
Theorem jumpOffset_start_end_peak (nowMs : Q) (player : Entity) (jumpStartTime : Z) :
  jumpStartTimeMs player = Some jumpStartTime ->
  (0 < jumpStartTime)%Z ->
  (nowMs - inject_Z jumpStartTime == 0 ->
   Rendering.jumpOffset nowMs player == 0) /\
  (nowMs - inject_Z jumpStartTime == Rendering.JUMP_DURATION_MS ->
   Rendering.jumpOffset nowMs player = 0 /\
   Rendering.jumpArc Rendering.JUMP_DURATION_MS Rendering.JUMP_HEIGHT_PX
                     (nowMs - inject_Z jumpStartTime) == 0) /\
  (nowMs - inject_Z jumpStartTime == Rendering.JUMP_DURATION_MS / 2 ->
   Rendering.jumpOffset nowMs player == Rendering.JUMP_HEIGHT_PX).
Proof.
  intros Hstart Hpos.
  assert ((0 <? jumpStartTime)%Z = true) as Hpos' by (apply Z.ltb_lt; exact Hpos).
  unfold Rendering.jumpOffset. rewrite Hstart, Hpos'.
  repeat split.
  - intros Hx.
    destruct (Qlt_bool _ _) eqn:E; [|reflexivity].
    rewrite (jumpArc_proper _ 0 Hx). reflexivity.
  - destruct (Qlt_bool _ _) eqn:E; [|reflexivity].
    apply Qlt_bool_iff in E. rewrite H in E. exfalso. exact (Qlt_irrefl _ E).
  - rewrite (jumpArc_proper _ _ H). reflexivity.
  - intros Hx.
    destruct (Qlt_bool _ _) eqn:E.
    + rewrite (jumpArc_proper _ _ Hx). reflexivity.
    + apply Qlt_bool_false_iff in E. rewrite Hx in E.
      exfalso. apply E. reflexivity.
Qed.

Lemma jumpOffset_start_end_peak_witness :
  Rendering.jumpOffset 1000 (playerRow "a1" 0 0 false 1000) == 0 /\
  Rendering.jumpOffset 1400 (playerRow "a1" 0 0 false 1000) = 0 /\
  Rendering.jumpOffset 1200 (playerRow "a1" 0 0 false 1000) == 40.
Proof.
  pose proof (jumpOffset_start_end_peak 1000 (playerRow "a1" 0 0 false 1000) 1000
                eq_refl eq_refl) as H0.
  pose proof (jumpOffset_start_end_peak 1400 (playerRow "a1" 0 0 false 1000) 1000
                eq_refl eq_refl) as H1.
  pose proof (jumpOffset_start_end_peak 1200 (playerRow "a1" 0 0 false 1000) 1000
                eq_refl eq_refl) as H2.
  split; [apply (proj1 H0); reflexivity|].
  split; [apply (proj1 (proj2 H1)); reflexivity|].
  apply (proj2 (proj2 H2)); reflexivity.
Defined.

(** ** Hover reporting *)

Lemma hoverCalls_app (l1 l2 : list Rendering.RenderOp) :
  Rendering.hoverCalls (l1 ++ l2) = Rendering.hoverCalls l1 ++ Rendering.hoverCalls l2.
Proof. unfold Rendering.hoverCalls. apply flat_map_app. Qed.

Lemma renderPlayer_hoverCalls (player : Entity) (isMoving isHovered : bool)
    (jumpOffsetY : Q) (shouldShowLabel : bool) :
  Rendering.hoverCalls
    (Rendering.renderPlayer player isMoving isHovered jumpOffsetY shouldShowLabel) = [].
Proof.
  unfold Rendering.renderPlayer. rewrite !hoverCalls_app.
  destruct (truthy (isDead player)); simpl; [reflexivity|].
  destruct (isHovered || shouldShowLabel); reflexivity.
Qed.

(** The [onPlayerHover] calls issued for one entity: the dispatch of a
    player, nothing for the other kinds. *)
Lemma renderEntity_hoverCalls
    (heroImg : bool) (canRenderItem : string -> bool)
    (worldMouseX worldMouseY : option Q) (nowMs : Q)
    (hoveredPlayerIds : gset string)
    (lastPositions : gmap string (option Q * option Q)) (entity : Entity) :
  Rendering.hoverCalls
    (snd (Rendering.renderEntity heroImg canRenderItem worldMouseX worldMouseY
            nowMs hoveredPlayerIds lastPositions entity))
  = if isPlayer entity then
      match Rendering.hoverDispatch worldMouseX worldMouseY hoveredPlayerIds entity with
      | Some call => [call]
      | None => []
      end
    else [].
Proof.
  unfold Rendering.renderEntity.
  destruct (isPlayer entity).
  - cbn [snd]. rewrite hoverCalls_app.
    assert (forall item body : list Rendering.RenderOp,
               Rendering.hoverCalls item = [] -> Rendering.hoverCalls body = [] ->
               Rendering.hoverCalls
                 (if Rendering.itemBehindPlayer (direction entity)
                  then item ++ body else body ++ item) = []) as Hrest.
    { intros item body Hi Hb.
      destruct (Rendering.itemBehindPlayer _); rewrite hoverCalls_app, Hi, Hb;
        reflexivity. }
    rewrite Hrest.
    + rewrite app_nil_r.
      destruct (Rendering.hoverDispatch _ _ _ _) as [[pid v]|]; reflexivity.
    + destruct (canRenderItem _); reflexivity.
    + destruct heroImg; [apply renderPlayer_hoverCalls | reflexivity].
  - destruct (isTree entity); [reflexivity|].
    destruct (isStone entity); [reflexivity|].
    destruct (isWoodenStorageBox entity); reflexivity.
Qed.

Lemma renderYSortedEntities_hoverCalls
    (heroImg : bool) (canRenderItem : string -> bool)
    (worldMouseX worldMouseY : option Q) (nowMs : Q)
    (hoveredPlayerIds : gset string) (ySortedEntities : list Entity) :
  forall lastPositions : gmap string (option Q * option Q),
  Rendering.hoverCalls
    (snd (Rendering.renderYSortedEntities heroImg canRenderItem worldMouseX
            worldMouseY nowMs hoveredPlayerIds lastPositions ySortedEntities))
  = flat_map
      (fun entity =>
         match Rendering.hoverDispatch worldMouseX worldMouseY hoveredPlayerIds entity with
         | Some call => [call]
         | None => []
         end)
      (List.filter isPlayer ySortedEntities).
Proof.
  induction ySortedEntities as [|entity rest IH]; intros lastPositions;
    [reflexivity|].
  simpl Rendering.renderYSortedEntities.
  pose proof (renderEntity_hoverCalls heroImg canRenderItem worldMouseX worldMouseY
                nowMs hoveredPlayerIds lastPositions entity) as Hone.
  destruct (Rendering.renderEntity _ _ _ _ _ _ _ _) as [lp ops].
  specialize (IH lp).
  destruct (Rendering.renderYSortedEntities _ _ _ _ _ _ _ _) as [lp' ops'].
  cbn [snd] in *. rewrite hoverCalls_app, Hone, IH. simpl List.filter.
  destruct (isPlayer entity); reflexivity.
Qed.

(** C9.  For a player processed by [renderYSortedEntities], with [persisted]
    its membership in the tracked hover set and [current] the hit test of
    this frame: while both mouse coordinates are non-null, [onPlayerHover]
    is called exactly when [current] differs from [persisted], with
    [current]; when both are null it is called exactly when the player was
    tracked as hovered, with [false].  Every call reports the negation of
    the tracked state, so there is no call when nothing changed, and once
    the tracked set holds the reported value the same mouse position gives
    no further call.  The calls of a frame are these dispatches, one at
    most for each player, in paint order. *)
Theorem onPlayerHover_only_on_change
    (worldMouseX worldMouseY : option Q) (hoveredPlayerIds : gset string)
    (player : Entity) :
  let playerId := Rendering.playerIdOf player in
  let persisted := bool_decide (playerId ∈ hoveredPlayerIds) in
  let current := Rendering.isPlayerHovered worldMouseX worldMouseY player in
  let call := Rendering.hoverDispatch worldMouseX worldMouseY hoveredPlayerIds player in
  (defined worldMouseX = true -> defined worldMouseY = true ->
   call = if Bool.eqb current persisted then None else Some (playerId, current)) /\
  (worldMouseX = None -> worldMouseY = None ->
   call = if persisted then Some (playerId, false) else None) /\
  (forall pid v, call = Some (pid, v) -> pid = playerId /\ v = negb persisted) /\
  (forall pid v hoveredPlayerIds',
      call = Some (pid, v) ->
      bool_decide (playerId ∈ hoveredPlayerIds') = v ->
      Rendering.hoverDispatch worldMouseX worldMouseY hoveredPlayerIds' player = None) /\
  (forall heroImg canRenderItem nowMs lastPositions ySortedEntities,
      Rendering.hoverCalls
        (snd (Rendering.renderYSortedEntities heroImg canRenderItem worldMouseX
                worldMouseY nowMs hoveredPlayerIds lastPositions ySortedEntities))
      = flat_map
          (fun entity =>
             match Rendering.hoverDispatch worldMouseX worldMouseY
                     hoveredPlayerIds entity with
             | Some c => [c]
             | None => []
             end)
          (List.filter isPlayer ySortedEntities)).
Proof.
  intros playerId persisted current call.
  subst playerId persisted current call.
  unfold Rendering.hoverDispatch, undefined.
  split; [|split; [|split; [|split]]].
  - intros Hx Hy. rewrite Hx, Hy. simpl.
    destruct (Bool.eqb _ _); simpl; rewrite ?orb_false_r; reflexivity.
  - intros -> ->. simpl. destruct (bool_decide _); reflexivity.
  - intros pid v.
    destruct (Rendering.isPlayerHovered _ _ _), (bool_decide _),
      worldMouseX, worldMouseY; simpl; intros H; inversion H; split; reflexivity.
  - intros pid v hoveredPlayerIds' Hcall Hset. rewrite Hset.
    destruct (Rendering.isPlayerHovered _ _ _), (bool_decide _),
      worldMouseX, worldMouseY; simpl in *; inversion Hcall; subst; reflexivity.
  - intros. apply renderYSortedEntities_hoverCalls.
Qed.

Lemma onPlayerHover_only_on_change_witness :
  Rendering.hoverDispatch (Some 5) (Some 5) ∅ (playerRow "a1" 0 0 false 0)
    = Some ("a1"%string, true) /\
  Rendering.hoverDispatch (Some 5) (Some 5) {["a1"%string]} (playerRow "a1" 0 0 false 0)
    = None /\
  Rendering.hoverDispatch None None {["a1"%string]} (playerRow "a1" 0 0 false 0)
    = Some ("a1"%string, false).
Proof.
  split; [|split].
  - exact (proj1 (onPlayerHover_only_on_change (Some 5) (Some 5) ∅
                    (playerRow "a1" 0 0 false 0)) eq_refl eq_refl).
  - apply (proj1 (proj2 (proj2 (proj2
             (onPlayerHover_only_on_change (Some 5) (Some 5) ∅
                (playerRow "a1" 0 0 false 0)))))
             "a1"%string true {["a1"%string]}); reflexivity.
  - exact (proj1 (proj2 (onPlayerHover_only_on_change None None {["a1"%string]}
                           (playerRow "a1" 0 0 false 0))) eq_refl eq_refl).
Defined.

(** ** Death pose *)

Lemma renderPlayer_alive_no_rotation (player : Entity) (isMoving isHovered : bool)
    (jumpOffsetY : Q) (shouldShowLabel : bool) :
  truthy (isDead player) = false ->
  Forall (fun op => Rendering.isDeathRotation op = false)
         (Rendering.renderPlayer player isMoving isHovered jumpOffsetY shouldShowLabel).
Proof.
  intros Halive. unfold Rendering.renderPlayer. rewrite Halive. simpl.
  destruct (isHovered || shouldShowLabel); repeat constructor.
Qed.

(** A dead player that reaches [renderPlayer] is drawn rotated. *)
Lemma renderPlayer_dead_rotates (player : Entity) (isMoving isHovered : bool)
    (jumpOffsetY : Q) (shouldShowLabel : bool) :
  truthy (isDead player) = true ->
  Exists (fun op => Rendering.isDeathRotation op = true)
         (Rendering.renderPlayer player isMoving isHovered jumpOffsetY shouldShowLabel).
Proof.
  intros Hdead. unfold Rendering.renderPlayer. rewrite Hdead. simpl.
  apply Exists_cons_hd. reflexivity.
Qed.

Lemma renderEntity_no_rotation
    (heroImg : bool) (canRenderItem : string -> bool)
    (worldMouseX worldMouseY : option Q) (nowMs : Q)
    (hoveredPlayerIds : gset string)
    (lastPositions : gmap string (option Q * option Q)) (entity : Entity) :
  (isPlayer entity = true -> truthy (isDead entity) = false) ->
  Forall (fun op => Rendering.isDeathRotation op = false)
         (snd (Rendering.renderEntity heroImg canRenderItem worldMouseX worldMouseY
                 nowMs hoveredPlayerIds lastPositions entity)).
Proof.
  intros Halive. unfold Rendering.renderEntity.
  destruct (isPlayer entity).
  - specialize (Halive eq_refl). cbn [snd].
    assert (Forall (fun op => Rendering.isDeathRotation op = false)
              (if canRenderItem (Rendering.playerIdOf entity)
               then [Rendering.OpEquippedItem (Rendering.playerIdOf entity)
                       (Rendering.jumpOffset nowMs entity)] else [])) as Hitem.
    { destruct (canRenderItem _); repeat constructor. }
    apply Forall_app_2.
    + destruct (Rendering.hoverDispatch _ _ _ _) as [[pid v]|]; repeat constructor.
    + destruct (Rendering.itemBehindPlayer _), heroImg;
        apply Forall_app_2;
        first [exact Hitem | constructor
              | apply renderPlayer_alive_no_rotation; exact Halive].
  - destruct (isTree entity); [repeat constructor|].
    destruct (isStone entity); [repeat constructor|].
    destruct (isWoodenStorageBox entity); repeat constructor.
Qed.

Lemma renderYSortedEntities_no_rotation
    (heroImg : bool) (canRenderItem : string -> bool)
    (worldMouseX worldMouseY : option Q) (nowMs : Q)
    (hoveredPlayerIds : gset string) (ySortedEntities : list Entity) :
  Forall (fun e => isPlayer e = true -> truthy (isDead e) = false) ySortedEntities ->
  forall lastPositions : gmap string (option Q * option Q),
  Forall (fun op => Rendering.isDeathRotation op = false)
         (snd (Rendering.renderYSortedEntities heroImg canRenderItem worldMouseX
                 worldMouseY nowMs hoveredPlayerIds lastPositions ySortedEntities)).
Proof.
  induction 1 as [|entity rest Hent Hrest IH]; intros lastPositions;
    [constructor|].
  simpl Rendering.renderYSortedEntities.
  pose proof (renderEntity_no_rotation heroImg canRenderItem worldMouseX worldMouseY
                nowMs hoveredPlayerIds lastPositions entity Hent) as Hone.
  destruct (Rendering.renderEntity _ _ _ _ _ _ _ _) as [lp ops].
  specialize (IH lp).
  destruct (Rendering.renderYSortedEntities _ _ _ _ _ _ _ _) as [lp' ops'].
  cbn [snd] in *. apply Forall_app_2; assumption.
Qed.

Lemma canvas_visiblePlayers_alive (t : Tables) (b : ViewportBounds) :
  Forall (fun p => truthy (isDead p) = false) (GameCanvas.visiblePlayers t b).
Proof.
  unfold GameCanvas.visiblePlayers. apply List.Forall_forall.
  intros p Hp. apply filter_In in Hp. destruct Hp as [_ Hp].
  apply andb_true_iff in Hp. destruct Hp as [Hp _].
  apply negb_true_iff in Hp. exact Hp.
Qed.

Lemma canvas_ySortedEntities_In (t : Tables) (b : ViewportBounds) (e : Entity) :
  In e (GameCanvas.ySortedEntities t b) <->
  In e (GameCanvas.visiblePlayers t b) \/ In e (GameCanvas.visibleTrees t b) \/
  In e (GameCanvas.visibleStones t b) \/
  In e (GameCanvas.visibleWoodenStorageBoxes t b).
Proof.
  unfold GameCanvas.ySortedEntities.
  split.
  - intros H. apply (Permutation_in _ (jsSort_perm GameCanvas.compareY _)) in H.
    unfold GameCanvas.ySortedInput in H. rewrite !in_app_iff in H. tauto.
  - intros H.
    apply (Permutation_in _ (Permutation_sym (jsSort_perm GameCanvas.compareY _))).
    unfold GameCanvas.ySortedInput. rewrite !in_app_iff. tauto.
Qed.

(** C10.  In GameCanvas every element of [visiblePlayers] has a falsy
    [isDead]; the Y-sorted list holds these players besides the visible
    trees, stones and storage boxes; and, when no row of the tree, stone
    and storage-box tables is itself a dead player record, rendering the
    Y-sorted list never performs the death rotation of [renderPlayer]. *)
Theorem GameCanvas_never_renders_dead_player (t : Tables) (b : ViewportBounds) :
  Forall (fun p => truthy (isDead p) = false) (GameCanvas.visiblePlayers t b) /\
  (forall e, In e (GameCanvas.ySortedEntities t b) <->
             In e (GameCanvas.visiblePlayers t b) \/
             In e (GameCanvas.visibleTrees t b) \/
             In e (GameCanvas.visibleStones t b) \/
             In e (GameCanvas.visibleWoodenStorageBoxes t b)) /\
  ((forall e, In e (values (trees t) ++ values (stones t)
                    ++ values (woodenStorageBoxes t)) ->
              isPlayer e = true -> truthy (isDead e) = false) ->
   forall heroImg canRenderItem worldMouseX worldMouseY nowMs hoveredPlayerIds
          lastPositions,
     Forall (fun op => Rendering.isDeathRotation op = false)
            (snd (Rendering.renderYSortedEntities heroImg canRenderItem worldMouseX
                    worldMouseY nowMs hoveredPlayerIds lastPositions
                    (GameCanvas.ySortedEntities t b)))).
Proof.
  split; [apply canvas_visiblePlayers_alive|].
  split; [apply canvas_ySortedEntities_In|].
  intros Hrows heroImg canRenderItem worldMouseX worldMouseY nowMs
         hoveredPlayerIds lastPositions.
  apply renderYSortedEntities_no_rotation.
  apply List.Forall_forall. intros e He Hplayer.
  apply canvas_ySortedEntities_In in He.
  destruct He as [He|He].
  - pose proof (canvas_visiblePlayers_alive t b) as Halive.
    rewrite List.Forall_forall in Halive. exact (Halive e He).
  - apply Hrows; [|exact Hplayer].
    rewrite !in_app_iff.
    unfold GameCanvas.visibleTrees, GameCanvas.visibleStones,
      GameCanvas.visibleWoodenStorageBoxes in He.
    rewrite !filter_In in He. tauto.
Qed.

Lemma GameCanvas_never_renders_dead_player_witness :
  GameCanvas.visiblePlayers battleTables sampleBounds
    = [playerRow "a1" 200 100 false 0] /\
  Forall (fun op => Rendering.isDeathRotation op = false)
         (snd (Rendering.renderYSortedEntities true (fun _ => false) None None 0 ∅ ∅
                 (GameCanvas.ySortedEntities battleTables sampleBounds))).
Proof.
  split; [reflexivity|].
  apply (proj2 (proj2 (GameCanvas_never_renders_dead_player battleTables sampleBounds))).
  intros e He. simpl in He. destruct He as [<-|[]]. discriminate.
Defined.

(** ** Emission accumulator *)

Lemma Qfloor_unique (q : Q) (z : Z) :
  inject_Z z <= q -> q < inject_Z (z + 1) -> Qfloor q = z.
Proof.
  intros Hle Hlt.
  pose proof (Qfloor_le q) as H1. pose proof (Qlt_floor q) as H2.
  assert (inject_Z (Qfloor q) < inject_Z (z + 1)) as H3
      by (eapply Qle_lt_trans; eassumption).
  assert (inject_Z z < inject_Z (Qfloor q + 1)) as H4
      by (eapply Qle_lt_trans; eassumption).
  rewrite <- Zlt_Qlt in H3, H4. lia.
Qed.

Lemma Qfloor_minus_one (q : Q) : Qfloor (q - 1) = (Qfloor q - 1)%Z.
Proof.
  pose proof (Qfloor_le q) as H1. pose proof (Qlt_floor q) as H2.
  apply Qfloor_unique.
  - unfold Z.sub. rewrite inject_Z_plus, inject_Z_opp.
    change (inject_Z 1) with 1. lra.
  - replace (Qfloor q - 1 + 1)%Z with (Qfloor q) by lia.
    rewrite inject_Z_plus in H2. change (inject_Z 1) with 1 in H2. lra.
Qed.

Lemma Qfloor_lt_one (q : Q) : (Qfloor q <= 0)%Z -> q < 1.
Proof.
  intros H. pose proof (Qlt_floor q) as H2.
  assert (inject_Z (Qfloor q + 1) <= 1) as H3.
  { change 1 with (inject_Z 1). rewrite <- Zle_Qle. lia. }
  lra.
Qed.

Lemma Qfloor_ge_one (q : Q) : (1 <= Qfloor q)%Z -> 1 <= q.
Proof.
  intros H. pose proof (Qfloor_le q) as H1.
  assert (1 <= inject_Z (Qfloor q)) as H3.
  { change 1 with (inject_Z 1). rewrite <- Zle_Qle. lia. }
  lra.
Qed.

Section WhileLoop.
Import CampfireParticles.
Context {St : Type}.
Variable body : St -> St.

(** With the fuel that [emitWhole] supplies the loop stops because its
  condition fails: the remainder is below one, the loop ran
  [floor acc] times and took one unit out per run. *)
Lemma whileAtLeastOne_spec (fuel : nat) :
forall (acc : Q) (s : St),
  fuel = Z.to_nat (Qfloor acc) ->
  fst (whileAtLeastOne fuel body acc s) == acc - inject_Z (Z.of_nat fuel) /\
  fst (whileAtLeastOne fuel body acc s) < 1 /\
  (0 <= acc -> 0 <= fst (whileAtLeastOne fuel body acc s)) /\
  snd (whileAtLeastOne fuel body acc s) = Nat.iter fuel body s.
Proof.
induction fuel as [|fuel IH]; intros acc s Hfuel.
- cbn [whileAtLeastOne fst snd Nat.iter nat_rect].
  change (inject_Z (Z.of_nat 0)) with 0. repeat split.
  + ring.
  + apply Qfloor_lt_one. lia.
  + auto.
- assert (1 <= acc) as Hge by (apply Qfloor_ge_one; lia).
  assert (Qle_bool 1 acc = true) as Hb by (apply Qle_bool_iff; exact Hge).
  simpl whileAtLeastOne. rewrite Hb.
  assert (fuel = Z.to_nat (Qfloor (acc - 1))) as Hfuel'
      by (rewrite Qfloor_minus_one; lia).
  destruct (IH (acc - 1) (body s) Hfuel') as (H1 & H2 & H3 & H4).
  repeat split.
  + rewrite H1. rewrite Nat2Z.inj_succ. unfold Z.succ.
    rewrite inject_Z_plus. change (inject_Z 1) with 1. lra.
  + exact H2.
  + intros _. apply H3. lra.
  + rewrite H4. symmetry. apply Nat.iter_succ_r.
Qed.

(** The remainder does not depend on the body of the loop. *)
Lemma whileAtLeastOne_fst (fuel : nat) :
forall (acc : Q) (s : St) (n : nat),
  fst (whileAtLeastOne fuel body acc s) = fst (whileAtLeastOne fuel S acc n).
Proof.
induction fuel as [|fuel IH]; intros acc s n; [reflexivity|].
simpl. destruct (Qle_bool 1 acc); [apply IH | reflexivity].
Qed.

End WhileLoop.

Lemma iter_S (n m : nat) : Nat.iter n S m = (n + m)%nat.
Proof. induction n as [|n IH]; simpl; [reflexivity | now rewrite IH]. Qed.

Lemma deltaTimeFactor_nonneg (rate deltaTime : Q) :
  0 <= rate -> 0 <= deltaTime ->
  0 <= rate * (deltaTime / CampfireParticles.FRAME_MS).
Proof.
  intros Hr Hd. apply Qmult_le_0_compat; [exact Hr|].
  unfold Qdiv. apply Qmult_le_0_compat; [exact Hd|].
  discriminate.
Qed.

(** One tick of the accumulator: the remainder stays in [0, 1) and the
    count and the remainder add up to what was integrated. *)
Lemma accumulate_spec (rate deltaTime acc : Q) :
  0 <= rate -> 0 <= deltaTime -> 0 <= acc ->
  0 <= fst (CampfireParticles.accumulate rate deltaTime acc) /\
  fst (CampfireParticles.accumulate rate deltaTime acc) < 1 /\
  inject_Z (Z.of_nat (snd (CampfireParticles.accumulate rate deltaTime acc)))
  + fst (CampfireParticles.accumulate rate deltaTime acc)
  == acc + rate * (deltaTime / CampfireParticles.FRAME_MS).
Proof.
  intros Hr Hd Ha.
  pose proof (deltaTimeFactor_nonneg rate deltaTime Hr Hd) as Hstep.
  unfold CampfireParticles.accumulate, CampfireParticles.emitWhole.
  set (a := acc + rate * (deltaTime / CampfireParticles.FRAME_MS)) in *.
  destruct (whileAtLeastOne_spec S (Z.to_nat (Qfloor a)) a O eq_refl)
    as (H1 & H2 & H3 & H4).
  rewrite H4, iter_S, Nat.add_0_r.
  repeat split.
  - apply H3. unfold a. lra.
  - exact H2.
  - rewrite H1. ring.
Qed.

Lemma totalTime_cons (deltaTime : Q) (deltas : list Q) :
  CampfireParticles.totalTime (deltaTime :: deltas)
  = deltaTime + CampfireParticles.totalTime deltas.
Proof. reflexivity. Qed.

(** ** Binary64 arithmetic *)

Section Binary64Facts.
Import Binary64.

Lemma pow2_pos (e : Z) : 0 < 2 ^ e.
Proof. apply Qpower_0_lt. reflexivity. Qed.

Lemma pow2_nonzero (e : Z) : ~ 2 ^ e == 0.
Proof. pose proof (pow2_pos e). lra. Qed.

Lemma pow2_succ (e : Z) : 2 ^ (e + 1) == 2 * 2 ^ e.
Proof.
rewrite Qpower_plus by discriminate. change (2 ^ 1) with 2. ring.
Qed.

Lemma pow2_pred (e : Z) : 2 ^ (e - 1) == 2 ^ e / 2.
Proof.
rewrite Qpower_minus by discriminate. change (2 ^ 1) with 2. reflexivity.
Qed.

Lemma pow2_le (a b : Z) : (a <= b)%Z -> 2 ^ a <= 2 ^ b.
Proof. intros H. apply Qpower_le_compat_l; [exact H | discriminate]. Qed.

Lemma pow2_lt (a b : Z) : (a < b)%Z -> 2 ^ a < 2 ^ b.
Proof. intros H. apply Qpower_lt_compat_l; [exact H | reflexivity]. Qed.

Lemma pow2_Z (n : Z) : (0 <= n)%Z -> 2 ^ n == inject_Z (2 ^ n).
Proof. intros H. rewrite Zpower_Qpower by exact H. reflexivity. Qed.

(** [ilog2] is the floor of the binary logarithm. *)
Lemma ilog2_spec (x : Q) :
0 < x -> 2 ^ ilog2 x <= x /\ x < 2 ^ (ilog2 x + 1).
Proof.
intros Hx. unfold ilog2.
destruct x as [p q]. cbn [Qnum Qden].
assert (0 < p)%Z as Hp by (unfold Qlt in Hx; cbn in Hx; lia).
pose proof (Z.log2_spec p Hp) as [Hp1 Hp2].
pose proof (Z.log2_spec (Z.pos q) (Pos2Z.is_pos q)) as [Hq1 Hq2].
pose proof (Z.log2_nonneg p) as Ha. pose proof (Z.log2_nonneg (Z.pos q)) as Hb.
set (a := Z.log2 p) in *. set (b := Z.log2 (Z.pos q)) in *.
assert (p # q == inject_Z p / inject_Z (Z.pos q)) as Hpq by apply Qmake_Qdiv.
assert (0 < inject_Z (Z.pos q)) as Hq0
    by (change 0 with (inject_Z 0); rewrite <- Zlt_Qlt; lia).
assert (p # q < 2 ^ (a - b + 1)) as Hupper.
{ replace (a - b + 1)%Z with ((a + 1) - b)%Z by lia.
  rewrite Qpower_minus by discriminate.
  rewrite (pow2_Z (a + 1)), (pow2_Z b), Hpq by lia.
  assert (0 < inject_Z (2 ^ b)) as Hb0
      by (change 0 with (inject_Z 0); rewrite <- Zlt_Qlt; lia).
  apply Qlt_shift_div_l; [exact Hb0|].
  assert (inject_Z p / inject_Z (Z.pos q) * inject_Z (2 ^ b)
          == inject_Z (p * 2 ^ b) / inject_Z (Z.pos q)) as ->
      by (rewrite inject_Z_mult; field; lra).
  apply Qlt_shift_div_r; [exact Hq0|].
  rewrite <- inject_Z_mult, <- Zlt_Qlt.
  replace (Z.succ a) with (a + 1)%Z in Hp2 by lia. nia. }
assert (2 ^ (a - b - 1) < p # q) as Hlower.
{ replace (a - b - 1)%Z with (a - (b + 1))%Z by lia.
  rewrite Qpower_minus by discriminate.
  rewrite (pow2_Z a), (pow2_Z (b + 1)), Hpq by lia.
  assert (0 < inject_Z (2 ^ (b + 1))) as Hb0
      by (change 0 with (inject_Z 0); rewrite <- Zlt_Qlt; lia).
  apply Qlt_shift_div_r; [exact Hb0|].
  assert (inject_Z p / inject_Z (Z.pos q) * inject_Z (2 ^ (b + 1))
          == inject_Z (p * 2 ^ (b + 1)) / inject_Z (Z.pos q)) as ->
      by (rewrite inject_Z_mult; field; lra).
  apply Qlt_shift_div_l; [exact Hq0|].
  rewrite <- inject_Z_mult, <- Zlt_Qlt.
  replace (Z.succ b) with (b + 1)%Z in Hq2 by lia. nia. }
destruct (Qle_bool (2 ^ (a - b)) (p # q)) eqn:E.
- apply Qle_bool_iff in E. split; [exact E | exact Hupper].
- apply Qle_bool_false_iff in E.
  replace (a - b - 1 + 1)%Z with (a - b)%Z by lia.
  split; [apply Qlt_le_weak; exact Hlower | exact E].
Qed.

(** The nearest integer is at most one half away. *)
Lemma roundHalfEven_spec (m : Q) :
inject_Z (roundHalfEven m) - (1 # 2) <= m /\
m <= inject_Z (roundHalfEven m) + (1 # 2).
Proof.
unfold roundHalfEven.
pose proof (Qfloor_le m) as H1. pose proof (Qlt_floor m) as H2.
rewrite inject_Z_plus in H2. change (inject_Z 1) with 1 in H2.
destruct (Qlt_bool (m - inject_Z (Qfloor m)) (1 # 2)) eqn:E1.
- apply Qlt_bool_iff in E1. split; lra.
- apply Qlt_bool_false_iff in E1.
  destruct (Qlt_bool (1 # 2) (m - inject_Z (Qfloor m))) eqn:E2.
  + rewrite inject_Z_plus. change (inject_Z 1) with 1. split; lra.
  + apply Qlt_bool_false_iff in E2.
    destruct (Z.even (Qfloor m));
      rewrite ?inject_Z_plus; change (inject_Z 1) with 1; split; lra.
Qed.

(** An integer is its own nearest integer. *)
Lemma roundHalfEven_Z (m : Q) (n : Z) : m == inject_Z n -> roundHalfEven m = n.
Proof.
intros H. unfold roundHalfEven.
assert (Qfloor m = n) as -> by (rewrite H; apply Qfloor_Z).
assert (Qlt_bool (m - inject_Z n) (1 # 2) = true) as ->; [|reflexivity].
apply Qlt_bool_iff. rewrite H. lra.
Qed.

(** Rounding to the nearest integer is monotone across integers. *)
Lemma roundHalfEven_le (m : Q) (n : Z) :
m <= inject_Z n -> (roundHalfEven m <= n)%Z.
Proof.
intros H. destruct (roundHalfEven_spec m) as [H1 _].
assert (inject_Z (roundHalfEven m) < inject_Z (n + 1)) as Hlt.
{ rewrite inject_Z_plus. change (inject_Z 1) with 1. lra. }
rewrite <- Zlt_Qlt in Hlt. lia.
Qed.

Lemma roundHalfEven_ge (m : Q) (n : Z) :
inject_Z n <= m -> (n <= roundHalfEven m)%Z.
Proof.
intros H. destruct (roundHalfEven_spec m) as [_ H1].
assert (inject_Z (n - 1) < inject_Z (roundHalfEven m)) as Hlt.
{ unfold Z.sub. rewrite inject_Z_plus, inject_Z_opp. change (inject_Z 1) with 1. lra. }
rewrite <- Zlt_Qlt in Hlt. lia.
Qed.

End Binary64Facts.

Section Round64Facts.
Import Binary64.

Lemma Qabs_inject_Z (n : Z) : Qabs (inject_Z n) = inject_Z (Z.abs n).
Proof. reflexivity. Qed.

Lemma round64_zero (x : Q) : x == 0 -> round64 x = 0.
Proof.
intros H. unfold round64.
assert (Qeq_bool x 0 = true) as -> by (apply Qeq_bool_iff; exact H).
reflexivity.
Qed.

Lemma round64_nonzero (x : Q) :
~ x == 0 ->
round64 x = inject_Z (roundHalfEven (x / 2 ^ ulpExponent x)) * 2 ^ ulpExponent x.
Proof.
intros H. unfold round64.
destruct (Qeq_bool x 0) eqn:E; [|reflexivity].
apply Qeq_bool_iff in E. contradiction.
Qed.

(** The result is within half a unit in the last place. *)
Lemma round64_ulp (x : Q) :
~ x == 0 ->
x - 2 ^ ulpExponent x / 2 <= round64 x /\
round64 x <= x + 2 ^ ulpExponent x / 2.
Proof.
intros Hx. rewrite (round64_nonzero x Hx).
pose proof (pow2_pos (ulpExponent x)) as Hpos.
destruct (roundHalfEven_spec (x / 2 ^ ulpExponent x)) as [H1 H2].
remember (2 ^ ulpExponent x) as P eqn:EP.
remember (inject_Z (roundHalfEven (x / P))) as N eqn:EN.
assert (x / P * P == x) as Hm by (field; lra).
assert ((N - (1 # 2)) * P <= x / P * P) as H1'
    by (apply Qmult_le_compat_r; [exact H1 | lra]).
assert (x / P * P <= (N + (1 # 2)) * P) as H2'
    by (apply Qmult_le_compat_r; [exact H2 | lra]).
rewrite Hm in H1', H2'.
assert ((N - (1 # 2)) * P == N * P - P / 2) as E1 by field.
assert ((N + (1 # 2)) * P == N * P + P / 2) as E2 by field.
rewrite E1 in H1'. rewrite E2 in H2'. split; lra.
Qed.

Lemma ulp_bound (x : Q) :
~ x == 0 ->
2 ^ ulpExponent x / 2 <= unitRoundoff * Qabs x + underflowError.
Proof.
intros Hx. unfold ulpExponent, unitRoundoff, underflowError.
assert (0 < Qabs x) as Hpos.
{ apply Qabs_case; intros H; [|]; destruct (Qlt_le_dec 0 x) as [H1|H1]; lra. }
destruct (ilog2_spec (Qabs x) Hpos) as [Hlo _].
pose proof (pow2_pos (-1075)) as Heta. pose proof (pow2_pos (-53)) as Hu.
destruct (Z.max_spec (ilog2 (Qabs x)) (-1022)) as [[Hlt ->]|[Hle ->]].
- assert (2 ^ (-1022 - 52) / 2 == 2 ^ (-1075)) as -> by (vm_compute; reflexivity).
  assert (0 <= 2 ^ (-53) * Qabs x) by (apply Qmult_le_0_compat; lra).
  lra.
- replace (ilog2 (Qabs x) - 52)%Z with (ilog2 (Qabs x) + -52)%Z by lia.
  rewrite Qpower_plus by discriminate.
  assert (2 ^ ilog2 (Qabs x) * 2 ^ (-52) / 2 == 2 ^ (-53) * 2 ^ ilog2 (Qabs x)) as ->.
  { assert (2 ^ (-52) == 2 * 2 ^ (-53)) as -> by (vm_compute; reflexivity). field. }
  assert (2 ^ (-53) * 2 ^ ilog2 (Qabs x) <= 2 ^ (-53) * Qabs x)
      by (apply Qmult_le_l; [exact Hu | exact Hlo]).
  lra.
Qed.

(** The standard model of binary64 arithmetic with gradual underflow. *)
Lemma round64_error (x : Q) :
0 <= x ->
x - (unitRoundoff * x + underflowError) <= round64 x /\
round64 x <= x + (unitRoundoff * x + underflowError).
Proof.
intros Hx.
assert (0 < unitRoundoff) as Hu by apply pow2_pos.
assert (0 < underflowError) as Heta by apply pow2_pos.
destruct (Qeq_dec x 0) as [H0|Hne].
- rewrite (round64_zero x H0). rewrite H0. split; lra.
- pose proof (round64_ulp x Hne) as [H1 H2].
  pose proof (ulp_bound x Hne) as H3.
  rewrite (Qabs_pos x Hx) in H3. split; lra.
Qed.

Lemma round64_nonneg (x : Q) : 0 <= x -> 0 <= round64 x.
Proof.
intros Hx. destruct (Qeq_dec x 0) as [H0|Hne].
- rewrite (round64_zero x H0). lra.
- rewrite (round64_nonzero x Hne).
  pose proof (pow2_pos (ulpExponent x)) as Hpos.
  apply Qmult_le_0_compat; [|lra].
  change 0 with (inject_Z 0). rewrite <- Zle_Qle.
  apply roundHalfEven_ge. change (inject_Z 0) with 0.
  apply Qle_shift_div_l; [exact Hpos | lra].
Qed.

(** The result is a binary64 value. *)
Lemma round64_isBinary64 (x : Q) : isBinary64 (round64 x).
Proof.
destruct (Qeq_dec x 0) as [H0|Hne].
- rewrite (round64_zero x H0). exists 0%Z, 0%Z.
  split; [reflexivity|]. split; [lia | reflexivity].
- rewrite (round64_nonzero x Hne).
  assert (0 < Qabs x) as Hpos.
  { apply Qabs_case; intros H; destruct (Qlt_le_dec 0 x) as [H1|H1]; lra. }
  destruct (ilog2_spec (Qabs x) Hpos) as [_ Hhi].
  pose proof (pow2_pos (ulpExponent x)) as HP.
  assert (Qabs x <= 2 ^ (ulpExponent x + 53)) as Hbound.
  { eapply Qle_trans; [apply Qlt_le_weak; exact Hhi|].
    apply pow2_le. unfold ulpExponent. lia. }
  rewrite Qpower_plus in Hbound by discriminate.
  rewrite (pow2_Z 53) in Hbound by lia.
  set (m := x / 2 ^ ulpExponent x).
  assert (- inject_Z (2 ^ 53) <= m /\ m <= inject_Z (2 ^ 53)) as [Hm1 Hm2].
  { unfold m. split.
    - apply Qle_shift_div_l; [exact HP|].
      revert Hbound. apply Qabs_case; intros; lra.
    - apply Qle_shift_div_r; [exact HP|].
      revert Hbound. apply Qabs_case; intros; lra. }
  rewrite <- inject_Z_opp in Hm1.
  apply roundHalfEven_ge in Hm1. apply roundHalfEven_le in Hm2.
  assert (-1074 <= ulpExponent x)%Z as He by (unfold ulpExponent; lia).
  destruct (Z.eq_dec (Z.abs (roundHalfEven m)) (2 ^ 53)%Z) as [Hcarry|Hno].
  + exists (roundHalfEven m / 2)%Z, (ulpExponent x + 1)%Z.
    split; [|split; [lia|]].
    * change (2 ^ 53)%Z with 9007199254740992%Z in *.
      apply Z.abs_lt. split.
      -- assert (-9007199254740992 <= roundHalfEven m)%Z by lia.
         apply Z.lt_le_trans with (-4503599627370496)%Z; [lia|].
         apply Z.div_le_lower_bound; lia.
      -- apply Z.div_lt_upper_bound; lia.
    * rewrite pow2_succ.
      assert (roundHalfEven m = 2 * (roundHalfEven m / 2))%Z as Heven.
      { change (2 ^ 53)%Z with 9007199254740992%Z in *.
        destruct (Z.abs_spec (roundHalfEven m)) as [[_ E]|[_ E]];
          rewrite E in Hcarry.
        - rewrite Hcarry. reflexivity.
        - assert (roundHalfEven m = -9007199254740992)%Z as -> by lia.
          reflexivity. }
      rewrite Heven at 1. rewrite inject_Z_mult. change (inject_Z 2) with 2. ring.
  + exists (roundHalfEven m), (ulpExponent x).
    split; [|split; [exact He | reflexivity]].
    change (- 2 ^ 53)%Z with (- (2 ^ 53))%Z in Hm1. lia.
Qed.

(** A binary64 value is not changed by rounding. *)
Lemma round64_exact (x : Q) : isBinary64 x -> round64 x == x.
Proof.
intros (n & e0 & Hn & He0 & Hx).
destruct (Qeq_dec x 0) as [H0|Hne].
- rewrite (round64_zero x H0). symmetry. exact H0.
- rewrite (round64_nonzero x Hne).
  assert (0 < Qabs x) as Hpos.
  { apply Qabs_case; intros H; destruct (Qlt_le_dec 0 x) as [H1|H1]; lra. }
  destruct (ilog2_spec (Qabs x) Hpos) as [Hlo _].
  assert (Qabs x < 2 ^ (53 + e0)) as Hhi.
  { rewrite Hx, Qabs_Qmult, Qabs_inject_Z, (Qabs_pos (2 ^ e0))
      by (apply Qlt_le_weak, pow2_pos).
    rewrite Qpower_plus by discriminate. rewrite (pow2_Z 53) by lia.
    apply Qmult_lt_compat_r; [apply pow2_pos|].
    rewrite <- Zlt_Qlt. exact Hn. }
  assert (ilog2 (Qabs x) < 53 + e0)%Z as Hil.
  { apply (Qpower_lt_compat_l_inv 2); [|reflexivity].
    eapply Qle_lt_trans; eassumption. }
  assert (ulpExponent x <= e0)%Z as HE by (unfold ulpExponent; lia).
  set (E := ulpExponent x) in *.
  assert (2 ^ e0 == inject_Z (2 ^ (e0 - E)) * 2 ^ E) as Hsplit.
  { rewrite <- pow2_Z by lia. rewrite <- Qpower_plus by discriminate.
    replace (e0 - E + E)%Z with e0 by lia. reflexivity. }
  assert (x / 2 ^ E == inject_Z (n * 2 ^ (e0 - E))) as Hm.
  { rewrite Hx, Hsplit, inject_Z_mult. field. apply pow2_nonzero. }
  rewrite (roundHalfEven_Z _ _ Hm), Hx, Hsplit, inject_Z_mult. ring.
Qed.

(** Taking one from a binary64 value between 1 and [2 ^ 53] is exact. *)
Lemma isBinary64_minus_one (x : Q) :
isBinary64 x -> 1 <= x -> x <= 2 ^ 53 -> isBinary64 (x - 1).
Proof.
intros (n & e & Hn & He & Hx) H1 Hmax.
destruct (Z_le_gt_dec 0 e) as [Hpos|Hneg].
- exists (n * 2 ^ e - 1)%Z, 0%Z.
  assert (x == inject_Z (n * 2 ^ e)) as Hint.
  { rewrite Hx, inject_Z_mult, <- pow2_Z by exact Hpos. reflexivity. }
  rewrite Hint in H1, Hmax. rewrite (pow2_Z 53) in Hmax by lia.
  change 1 with (inject_Z 1) in H1.
  rewrite <- Zle_Qle in H1, Hmax.
  split; [lia|]. split; [lia|].
  rewrite Hint. unfold Z.sub. rewrite inject_Z_plus, inject_Z_opp.
  change (inject_Z 1) with 1. change (2 ^ 0) with 1. ring.
- exists (n - 2 ^ (- e))%Z, e.
  assert (1 == inject_Z (2 ^ (- e)) * 2 ^ e) as Hone.
  { rewrite <- pow2_Z by lia. rewrite <- Qpower_plus by discriminate.
    replace (- e + e)%Z with 0%Z by lia. reflexivity. }
  assert (2 ^ (- e) <= n)%Z as Hge.
  { rewrite Zle_Qle.
    apply (Qmult_le_r _ _ (2 ^ e)); [apply pow2_pos|].
    rewrite <- Hone, <- Hx. exact H1. }
  assert (0 < 2 ^ (- e))%Z by (apply Z.pow_pos_nonneg; lia).
  split; [lia|]. split; [exact He|].
  unfold Z.sub at 1. rewrite inject_Z_plus, inject_Z_opp, Hx.
  rewrite Hone at 1. ring.
Qed.

(** Above [2 ^ 53] taking one away can leave a number as it is: there the
  loop of the code would not end. *)
Lemma sub64_absorbs_one : sub64 (2 ^ 54) 1 == 2 ^ 54.
Proof. vm_compute. reflexivity. Qed.

End Round64Facts.

Section Accumulator64.
Import Binary64 CampfireParticles.

(** On binary64 values up to [2 ^ 53] the loop takes out one unit per
  run, exactly, and with the fuel [floor acc] it stops because its
  condition fails. *)
Lemma whileAtLeastOne64_spec (fuel : nat) :
forall (acc : Q) (count : nat),
  isBinary64 acc -> acc <= 2 ^ 53 -> fuel = Z.to_nat (Qfloor acc) ->
  fst (whileAtLeastOne64 fuel acc count) == acc - inject_Z (Z.of_nat fuel) /\
  fst (whileAtLeastOne64 fuel acc count) < 1 /\
  (0 <= acc -> 0 <= fst (whileAtLeastOne64 fuel acc count)) /\
  isBinary64 (fst (whileAtLeastOne64 fuel acc count)) /\
  snd (whileAtLeastOne64 fuel acc count) = (count + fuel)%nat.
Proof.
induction fuel as [|fuel IH]; intros acc count Hacc Hmax Hfuel.
- cbn [whileAtLeastOne64 fst snd]. change (inject_Z (Z.of_nat 0)) with 0.
  split; [ring|]. split; [apply Qfloor_lt_one; lia|].
  split; [auto|]. split; [exact Hacc | lia].
- assert (1 <= acc) as Hge by (apply Qfloor_ge_one; lia).
  assert (Qle_bool 1 acc = true) as Hb by (apply Qle_bool_iff; exact Hge).
  cbn [whileAtLeastOne64]. rewrite Hb.
  assert (sub64 acc 1 == acc - 1) as Hexact.
  { apply round64_exact. apply isBinary64_minus_one; assumption. }
  assert (fuel = Z.to_nat (Qfloor (sub64 acc 1))) as Hfuel'.
  { rewrite Hexact, Qfloor_minus_one. lia. }
  destruct (IH (sub64 acc 1) (S count)) as (H1 & H2 & H3 & H4 & H5).
  + apply round64_isBinary64.
  + rewrite Hexact. lra.
  + exact Hfuel'.
  + split; [|split; [exact H2 | split; [|split; [exact H4 | lia]]]].
    * rewrite H1, Hexact, Nat2Z.inj_succ. unfold Z.succ.
      rewrite inject_Z_plus. change (inject_Z 1) with 1. ring.
    * intros _. apply H3. rewrite Hexact. lra.
Qed.

Lemma FRAME_MS64_value : FRAME_MS64 == 586417929604563 # 35184372088832.
Proof. vm_compute. reflexivity. Qed.

(** The division by the double [16.667] in place of the decimal. *)
Lemma deltaTimeFactor_bounds (deltaTime : Q) :
0 <= deltaTime ->
(1 - unitRoundoff) * (deltaTime / FRAME_MS) <= deltaTime / FRAME_MS64 /\
deltaTime / FRAME_MS64 <= (1 + unitRoundoff) * (deltaTime / FRAME_MS).
Proof.
intros Hd. rewrite FRAME_MS64_value. unfold FRAME_MS.
assert (unitRoundoff == 1 # 9007199254740992) as -> by (vm_compute; reflexivity).
unfold Qdiv.
assert (/ (16667 # 1000) == 1000 # 16667) as -> by reflexivity.
assert (/ (586417929604563 # 35184372088832)
        == 35184372088832 # 586417929604563) as -> by reflexivity.
split; lra.
Qed.

Lemma mult_between (c lo v hi : Q) :
0 <= c -> lo <= v -> v <= hi -> c * lo <= c * v /\ c * v <= c * hi.
Proof.
intros Hc H1 H2. split.
- rewrite !(Qmult_comm c). apply Qmult_le_compat_r; assumption.
- rewrite !(Qmult_comm c). apply Qmult_le_compat_r; assumption.
Qed.

(** The accumulator after the addition of one tick, before the loop. *)
Lemma tick_rounding (rate deltaTime acc : Q) :
0 <= rate -> rate <= 1048576 ->
0 < deltaTime -> deltaTime <= 1048576 ->
0 <= acc -> acc < 1 ->
let step := rate * (deltaTime / FRAME_MS) in
let acc1 := add64 acc (mul64 rate (div64 deltaTime FRAME_MS64)) in
0 <= acc1 /\ acc1 <= 2 ^ 53 /\
acc + step - roundingAllowance 1 step <= acc1 /\
acc1 <= acc + step + roundingAllowance 1 step.
Proof.
intros Hr0 Hr1 Hd0 Hd1 Ha0 Ha1. cbv zeta.
unfold add64, mul64, div64, roundingAllowance.
assert (0 <= deltaTime / FRAME_MS) as HD0.
{ unfold Qdiv. apply Qmult_le_0_compat; [lra | discriminate]. }
assert (deltaTime / FRAME_MS <= 65536) as HD1.
{ unfold FRAME_MS, Qdiv.
  assert (/ (16667 # 1000) == 1000 # 16667) as -> by reflexivity. lra. }
destruct (deltaTimeFactor_bounds deltaTime (Qlt_le_weak _ _ Hd0)) as [Hq1 Hq2].
assert (0 <= deltaTime / FRAME_MS64) as Hq0.
{ unfold Qdiv. apply Qmult_le_0_compat; [lra|].
  rewrite FRAME_MS64_value. discriminate. }
pose proof (round64_error _ Hq0) as [Hf1 Hf2].
pose proof (round64_nonneg _ Hq0) as Hf0.
remember (round64 (deltaTime / FRAME_MS64)) as f eqn:Ef.
assert (0 <= rate * f) as Hrf0 by (apply Qmult_le_0_compat; assumption).
pose proof (round64_error _ Hrf0) as [Hp1 Hp2].
pose proof (round64_nonneg _ Hrf0) as Hp0.
remember (round64 (rate * f)) as p eqn:Ep.
assert (0 <= acc + p) as Hs0 by lra.
pose proof (round64_error _ Hs0) as [Hs1 Hs2].
pose proof (round64_nonneg _ Hs0) as Hacc1.
remember (round64 (acc + p)) as acc1 eqn:Eacc1.
(* the products with [rate] *)
destruct (mult_between rate _ _ _ Hr0 Hq1 Hq2) as [HA1 HA2].
destruct (mult_between rate _ _ _ Hr0 Hf1 Hf2) as [HF1 HF2].
destruct (mult_between rate _ _ _ Hr0 HD0 HD1) as [_ HX1].
assert (0 <= rate * (deltaTime / FRAME_MS)) as HX0
    by (apply Qmult_le_0_compat; assumption).
assert (rate * 65536 <= 68719476736) as HX2 by lra.
assert (0 < underflowError) as Hh0 by apply pow2_pos.
assert (underflowError <= 1 # 1208925819614629174706176) as Hh1
    by (vm_compute; discriminate).
destruct (mult_between rate 0 underflowError (1 # 1208925819614629174706176) Hr0
            (Qlt_le_weak _ _ Hh0) Hh1) as [HB0 HB1].
assert (rate * (1 # 1208925819614629174706176) <= 1 # 1152921504606846976) as HB2 by lra.
rewrite Qmult_0_r in HB0.
assert (rate * ((1 - unitRoundoff) * (deltaTime / FRAME_MS))
        == (1 - unitRoundoff) * (rate * (deltaTime / FRAME_MS))) as E1 by ring.
assert (rate * ((1 + unitRoundoff) * (deltaTime / FRAME_MS))
        == (1 + unitRoundoff) * (rate * (deltaTime / FRAME_MS))) as E2 by ring.
assert (rate * (deltaTime / FRAME_MS64
                - (unitRoundoff * (deltaTime / FRAME_MS64) + underflowError))
        == rate * (deltaTime / FRAME_MS64)
           - (unitRoundoff * (rate * (deltaTime / FRAME_MS64))
              + rate * underflowError)) as E3 by ring.
assert (rate * (deltaTime / FRAME_MS64
                + (unitRoundoff * (deltaTime / FRAME_MS64) + underflowError))
        == rate * (deltaTime / FRAME_MS64)
           + (unitRoundoff * (rate * (deltaTime / FRAME_MS64))
              + rate * underflowError)) as E4 by ring.
rewrite E1 in HA1. rewrite E2 in HA2. rewrite E3 in HF1. rewrite E4 in HF2.
clear E1 E2 E3 E4 Hq1 Hq2 Hf1 Hf2 Ef Ep Eacc1 Hq0 Hf0.
remember (rate * (deltaTime / FRAME_MS)) as X eqn:EX.
remember (rate * (deltaTime / FRAME_MS64)) as A eqn:EA.
remember (rate * f) as F eqn:EF.
remember (rate * underflowError) as B eqn:EB.
remember underflowError as h eqn:Eh.
clear EX EA EF EB Eh HD0 HD1.
assert (unitRoundoff == 1 # 9007199254740992) as Hu by (vm_compute; reflexivity).
assert (2 ^ (-52) == 1 # 4503599627370496) as H52 by (vm_compute; reflexivity).
assert (2 ^ 53 == 9007199254740992) as H53 by (vm_compute; reflexivity).
rewrite Hu in *. rewrite H52, H53.
change (inject_Z (Z.of_nat 1)) with 1.
repeat split; lra.
Qed.

End Accumulator64.

Section Emission64.
Import Binary64 CampfireParticles.

(** One tick of the binary64 accumulator: the remainder is a binary64
  value in [0, 1), and the count and the remainder add up to what was
  integrated, up to the rounding of the tick. *)
Lemma accumulate64_spec (rate deltaTime acc : Q) :
0 <= rate -> rate <= 1048576 ->
0 < deltaTime -> deltaTime <= 1048576 ->
0 <= acc -> acc < 1 -> isBinary64 acc ->
let step := rate * (deltaTime / FRAME_MS) in
let total := inject_Z (Z.of_nat (snd (accumulate64 rate deltaTime acc)))
             + fst (accumulate64 rate deltaTime acc) in
0 <= fst (accumulate64 rate deltaTime acc) /\
fst (accumulate64 rate deltaTime acc) < 1 /\
isBinary64 (fst (accumulate64 rate deltaTime acc)) /\
acc + step - roundingAllowance 1 step <= total /\
total <= acc + step + roundingAllowance 1 step.
Proof.
intros Hr0 Hr1 Hd0 Hd1 Ha0 Ha1 Hacc. cbv zeta.
destruct (tick_rounding rate deltaTime acc Hr0 Hr1 Hd0 Hd1 Ha0 Ha1)
  as (T0 & T1 & T2 & T3).
unfold accumulate64.
remember (add64 acc (mul64 rate (div64 deltaTime FRAME_MS64))) as acc1 eqn:E.
assert (isBinary64 acc1) as Hrep by (rewrite E; apply round64_isBinary64).
destruct (whileAtLeastOne64_spec (Z.to_nat (Qfloor acc1)) acc1 O Hrep T1 eq_refl)
  as (L1 & L2 & L3 & L4 & L5).
rewrite L5, Nat.add_0_l.
split; [exact (L3 T0)|]. split; [exact L2|]. split; [exact L4|].
rewrite L1.
split; [eapply Qle_trans; [exact T2|] | eapply Qle_trans; [|exact T3]];
  apply Qle_lteq; right; ring.
Qed.

Lemma totalTime_step (rate deltaTime : Q) (deltas : list Q) :
rate * (totalTime (deltaTime :: deltas) / FRAME_MS)
== rate * (deltaTime / FRAME_MS) + rate * (totalTime deltas / FRAME_MS).
Proof. rewrite totalTime_cons. field. discriminate. Qed.

Lemma accumulateAll64_spec (rate : Q) (deltas : list Q) :
0 <= rate -> rate <= 1048576 ->
Forall (fun deltaTime => 0 < deltaTime /\ deltaTime <= 1048576) deltas ->
forall acc, 0 <= acc -> acc < 1 -> isBinary64 acc ->
  let '(remainder, emitted, remainders) := accumulateAll64 rate deltas acc in
  let expected := rate * (totalTime deltas / FRAME_MS) in
  let rounding := roundingAllowance (length deltas) expected in
  0 <= remainder /\ remainder < 1 /\
  Forall (fun r => 0 <= r /\ r < 1) remainders /\
  acc + expected - rounding <= inject_Z (Z.of_nat emitted) + remainder /\
  inject_Z (Z.of_nat emitted) + remainder <= acc + expected + rounding.
Proof.
intros Hr0 Hr1 Hd.
induction Hd as [|deltaTime rest [Hd0 Hd1] Hrest IH]; intros acc Ha0 Ha1 Hacc.
- cbn [accumulateAll64 length]. cbv zeta. unfold roundingAllowance, totalTime.
  cbn [fold_right]. change (inject_Z (Z.of_nat 0)) with 0.
  assert (rate * (0 / FRAME_MS) == 0) as -> by (field; discriminate).
  assert (2 ^ (-52) * (0 + 3 * 0) == 0) as -> by ring.
  repeat split; try assumption; try constructor; lra.
- cbn [accumulateAll64 length].
  destruct (accumulate64_spec rate deltaTime acc Hr0 Hr1 Hd0 Hd1 Ha0 Ha1 Hacc)
    as (S0 & S1 & S2 & S3 & S4).
  destruct (accumulate64 rate deltaTime acc) as [acc1 n1]. cbn [fst snd] in *.
  specialize (IH acc1 S0 S1 S2).
  destruct (accumulateAll64 rate rest acc1) as [[acc2 n2] rems].
  cbv zeta in IH |- *. destruct IH as (I0 & I1 & I2 & I3 & I4).
  split; [exact I0|]. split; [exact I1|].
  split; [constructor; [split; assumption | exact I2]|].
  pose proof (totalTime_step rate deltaTime rest) as Estep.
  unfold roundingAllowance in *.
  rewrite Nat2Z.inj_succ. unfold Z.succ. rewrite !Nat2Z.inj_add, !inject_Z_plus.
  change (inject_Z (Z.of_nat 1)) with 1 in *. change (inject_Z 1) with 1.
  assert (2 ^ (-52) == 1 # 4503599627370496) as H52 by (vm_compute; reflexivity).
  rewrite H52 in *.
  remember (rate * (totalTime (deltaTime :: rest) / FRAME_MS)) as Xall.
  remember (rate * (deltaTime / FRAME_MS)) as X1.
  remember (rate * (totalTime rest / FRAME_MS)) as Xrest.
  remember (inject_Z (Z.of_nat (length rest))) as ticks.
  split; lra.
Qed.

(** C4 (as amended).  For a constant rate from 0 to [2 ^ 20] and tick
  deltas, each positive and at most [2 ^ 20] ms, that sum to [T] ms, the
  accumulator started at 0 and computed in binary64 keeps its remainder
  in [0, 1) after every tick; the count and the final remainder add up
  to [rate * T / 16.667] up to the rounding of three operations per tick,
  which is at most [2 ^ -52 * (ticks + 3 * rate * T / 16.667)]; so the
  number of particles emitted differs from [rate * T / 16.667] by less
  than one plus that rounding allowance. *)
Theorem emission_count_within_one (rate : Q) (deltas : list Q) :
0 <= rate -> rate <= 1048576 ->
Forall (fun deltaTime => 0 < deltaTime /\ deltaTime <= 1048576) deltas ->
let '(remainder, emitted, remainders) := accumulateAll64 rate deltas 0 in
let expected := rate * (totalTime deltas / FRAME_MS) in
let rounding := roundingAllowance (length deltas) expected in
Forall (fun r => 0 <= r /\ r < 1) remainders /\
Qabs (inject_Z (Z.of_nat emitted) + remainder - expected) <= rounding /\
expected - 1 - rounding < inject_Z (Z.of_nat emitted) /\
inject_Z (Z.of_nat emitted) <= expected + rounding /\
Qabs (inject_Z (Z.of_nat emitted) - expected) < 1 + rounding.
Proof.
intros Hr0 Hr1 Hd.
assert (isBinary64 0) as Hzero.
{ exists 0%Z, 0%Z. split; [reflexivity|]. split; [lia | reflexivity]. }
pose proof (accumulateAll64_spec rate deltas Hr0 Hr1 Hd 0 (Qle_refl 0) eq_refl Hzero)
  as H.
destruct (accumulateAll64 rate deltas 0) as [[remainder emitted] rems].
cbv zeta in H |- *. destruct H as (H0 & H1 & H2 & H3 & H4).
remember (rate * (totalTime deltas / FRAME_MS)) as expected eqn:Ee.
remember (roundingAllowance (length deltas) expected) as rounding eqn:Er.
split; [exact H2|].
split; [apply Qabs_case; intros _; lra|].
split; [lra|]. split; [lra|].
apply Qabs_case; intros _; lra.
Qed.

End Emission64.

(** C4, the claim as stated.  At the burst rate of 4, five ticks of
    10.000200000000001 ms (a double) integrate to more than 12 particles,
    and 11 have been emitted.  At the top fire zone's rate of 0.4, ten
    ticks of 4.16675 ms (a quarter of a 60 fps frame each) integrate to
    more than one particle, and none has been emitted: ten times the
    double [0.1] add up to less than 1.  The count is more than one off,
    with the decimal [16.667] and with the double alike. *)
Lemma emission_count_off_by_more_than_one :
  (let rate := 4 in
   let deltaTime := 5629612124203805 # 562949953421312 in
   let deltas := repeat deltaTime 5 in
   let emitted := snd (fst (Binary64.accumulateAll64 rate deltas 0)) in
   Binary64.round64 deltaTime == deltaTime /\
   emitted = 11%nat /\
   1 < Qabs (inject_Z (Z.of_nat emitted)
             - rate * (CampfireParticles.totalTime deltas
                       / CampfireParticles.FRAME_MS)) /\
   1 < Qabs (inject_Z (Z.of_nat emitted)
             - rate * (CampfireParticles.totalTime deltas / Binary64.FRAME_MS64))) /\
  (let rate := Binary64.round64 0.4 in
   let deltas := repeat (Binary64.round64 4.16675) 10 in
   let emitted := snd (fst (Binary64.accumulateAll64 rate deltas 0)) in
   emitted = O /\
   1 < Qabs (inject_Z (Z.of_nat emitted)
             - rate * (CampfireParticles.totalTime deltas
                       / CampfireParticles.FRAME_MS)) /\
   1 < Qabs (inject_Z (Z.of_nat emitted)
             - rate * (CampfireParticles.totalTime deltas / Binary64.FRAME_MS64))).
Proof. vm_compute. repeat split. Qed.

(** C4 on the example of the specification: rate 0.8 over sixty ticks of
    16.667 ms yields 48 particles. *)
Lemma emission_count_within_one_witness :
  let rate := Binary64.round64 0.8 in
  let deltas := repeat (Binary64.round64 16.667) 60 in
  let expected :=
    rate * (CampfireParticles.totalTime deltas / CampfireParticles.FRAME_MS) in
  snd (fst (Binary64.accumulateAll64 rate deltas 0)) = 48%nat /\
  Qabs (48 - expected) < 1 + Binary64.roundingAllowance 60 expected.
Proof.
  cbv zeta.
  assert (0 <= Binary64.round64 0.8) as Hr0 by (vm_compute; discriminate).
  assert (Binary64.round64 0.8 <= 1048576) as Hr1 by (vm_compute; discriminate).
  assert (Forall (fun deltaTime => 0 < deltaTime /\ deltaTime <= 1048576)
                 (repeat (Binary64.round64 16.667) 60)) as Hd.
  { apply List.Forall_forall. intros d Hin. apply repeat_spec in Hin. subst d.
    split; [reflexivity | vm_compute; discriminate]. }
  pose proof (emission_count_within_one (Binary64.round64 0.8)
                (repeat (Binary64.round64 16.667) 60) Hr0 Hr1 Hd) as H.
  assert (snd (fst (Binary64.accumulateAll64 (Binary64.round64 0.8)
                      (repeat (Binary64.round64 16.667) 60) 0)) = 48%nat)
    as Hcount by (vm_compute; reflexivity).
  destruct (Binary64.accumulateAll64 (Binary64.round64 0.8)
              (repeat (Binary64.round64 16.667) 60) 0) as [[remainder emitted] rems].
  cbn [fst snd] in Hcount. subst emitted. cbv zeta in H.
  split; [reflexivity|].
  exact (proj2 (proj2 (proj2 (proj2 H)))).
Defined.

(** ** Particle engine *)

Section ParticleEngine.
Import CampfireParticles.
Variable random : nat -> Q.
Variables CAMPFIRE_HEIGHT CAMPFIRE_RENDER_Y_OFFSET : Q.

Lemma spawnFire_pushes (now cx cy : Q) (zone : Zone) :
pushesOne fire (spawnFire random CAMPFIRE_HEIGHT now cx cy zone).
Proof. intros [n out]. eexists. split; [|reflexivity]. reflexivity. Qed.

Lemma spawnSmoke_pushes (now sx sy : Q) :
pushesOne smoke (spawnSmoke random now sx sy).
Proof. intros [n out]. eexists. split; [|reflexivity]. reflexivity. Qed.

Lemma spawnSmokeBurst_pushes (now cx cy : Q) :
pushesOne smoke_burst (spawnSmokeBurst random now cx cy).
Proof. intros [n out]. eexists. split; [|reflexivity]. reflexivity. Qed.

Lemma whileAtLeastOne_pushes (kind : ParticleType)
  (body : nat * list Particle -> nat * list Particle) (fuel : nat) :
pushesOne kind body ->
forall (acc : Q) (e : nat * list Particle) (n : nat),
exists added,
  snd (snd (whileAtLeastOne fuel body acc e)) = snd e ++ added /\
  Forall (fun p => ptype p = kind) added /\
  (n + length added)%nat = snd (whileAtLeastOne fuel S acc n).
Proof.
intros Hbody. induction fuel as [|fuel IH]; intros acc e n.
- exists []. simpl. rewrite app_nil_r, Nat.add_0_r. auto.
- simpl. destruct (Qle_bool 1 acc).
  + destruct (Hbody e) as (p & Hp & He).
    destruct (IH (acc - 1) (body e) (S n)) as (added & H1 & H2 & H3).
    exists (p :: added). rewrite H1, He, <- app_assoc. simpl.
    repeat split; [constructor; assumption|].
    rewrite <- H3. simpl. lia.
  + exists []. simpl. rewrite app_nil_r, Nat.add_0_r. auto.
Qed.

(** An emission loop appends as many particles of its type as the bare
  accumulator counts, and leaves the accumulator's remainder. *)
Lemma emitWhole_pushes (kind : ParticleType)
  (body : nat * list Particle -> nat * list Particle)
  (acc : Q) (e : nat * list Particle) :
pushesOne kind body ->
fst (emitWhole body acc e) = fst (emitWhole S acc O) /\
exists added,
  snd (snd (emitWhole body acc e)) = snd e ++ added /\
  Forall (fun p => ptype p = kind) added /\
  length added = snd (emitWhole S acc O).
Proof.
intros Hbody. unfold emitWhole. split.
- apply whileAtLeastOne_fst.
- destruct (whileAtLeastOne_pushes kind body (Z.to_nat (Qfloor acc)) Hbody acc e O)
    as (added & H1 & H2 & H3).
  exists added. auto.
Qed.

Lemma fireZones_push (now dtf cx cy : Q) (campfireId : string) (zones : list Zone) :
forall (accs : gmap string Q) (e : nat * list Particle),
exists added,
  snd (snd (fold_left
              (fireZoneStep random CAMPFIRE_HEIGHT now dtf cx cy campfireId)
              zones (accs, e))) = snd e ++ added /\
  Forall (fun p => ptype p = fire) added.
Proof.
induction zones as [|zone rest IH]; intros accs e.
- exists []. simpl. rewrite app_nil_r. auto.
- cbn [fold_left]. unfold fireZoneStep at 2.
  destruct (emitWhole_pushes fire
              (spawnFire random CAMPFIRE_HEIGHT now cx cy zone)
              (default 0 (accs !! fireKey campfireId zone)
               + emissionRate zone * dtf) e
              (spawnFire_pushes now cx cy zone)) as (_ & added1 & H1 & H2 & _).
  destruct (emitWhole _ _ e) as [fireAcc' e'] eqn:E. cbn [snd] in H1.
  destruct (IH (<[fireKey campfireId zone := fireAcc']> accs) e')
    as (added2 & H3 & H4).
  exists (added1 ++ added2). rewrite H3, H1, <- app_assoc.
  split; [reflexivity | apply Forall_app_2; assumption].
Qed.

Lemma fireStep_pushes (now dtf cx cy : Q) (campfireId : string)
  (generateFireThisFrame : bool) (accs : gmap string Q) (e : nat * list Particle) :
exists added,
  snd (snd (fireStep random CAMPFIRE_HEIGHT now dtf cx cy campfireId
              generateFireThisFrame accs e)) = snd e ++ added /\
  Forall (fun p => ptype p = fire) added /\
  (generateFireThisFrame = false -> added = []).
Proof.
unfold fireStep. destruct generateFireThisFrame.
- destruct (fireZones_push now dtf cx cy campfireId FIRE_EMISSION_ZONES accs e)
    as (added & H1 & H2).
  exists added. repeat split; [exact H1 | exact H2 | discriminate].
- exists []. cbn [snd]. rewrite app_nil_r. auto.
Qed.

Lemma smokeStep_spec (now dtf sx sy : Q) (campfireId : string)
  (generateSmokeThisFrame : bool) (accs : gmap string Q) (e : nat * list Particle) :
let smokeAcc := default 0 (accs !! campfireId)
                + SMOKE_PARTICLES_PER_CAMPFIRE_FRAME * dtf in
fst (smokeStep random now dtf sx sy campfireId generateSmokeThisFrame accs e)
= <[campfireId := if generateSmokeThisFrame
                  then fst (emitWhole S smokeAcc O) else 0]> accs /\
exists added,
  snd (snd (smokeStep random now dtf sx sy campfireId
              generateSmokeThisFrame accs e)) = snd e ++ added /\
  Forall (fun p => ptype p = smoke) added /\
  length added = if generateSmokeThisFrame
                 then snd (emitWhole S smokeAcc O) else O.
Proof.
intros smokeAcc. unfold smokeStep. destruct generateSmokeThisFrame.
- fold smokeAcc.
  destruct (emitWhole_pushes smoke (spawnSmoke random now sx sy) smokeAcc e
              (spawnSmoke_pushes now sx sy)) as (H0 & added & H1 & H2 & H3).
  destruct (emitWhole (spawnSmoke random now sx sy) smokeAcc e) as [acc' e'].
  cbn [fst snd] in *. subst acc'. split; [reflexivity|].
  exists added. auto.
- cbn [fst snd]. split; [reflexivity|].
  exists []. rewrite app_nil_r. auto.
Qed.

Lemma smokeBurstStep_pushes (now dtf cx cy : Q) (campfireId : string)
  (campfire : Campfire) (accs : gmap string Q) (e : nat * list Particle) :
exists added,
  snd (snd (smokeBurstStep random now dtf cx cy campfireId campfire accs e))
  = snd e ++ added /\
  Forall (fun p => ptype p = smoke_burst) added /\
  (isPlayerInHotZone campfire && isBurning campfire = false -> added = []).
Proof.
unfold smokeBurstStep.
destruct (isPlayerInHotZone campfire && isBurning campfire).
- destruct (emitWhole_pushes smoke_burst (spawnSmokeBurst random now cx cy)
              (default 0 (accs !! campfireId) + SMOKE_BURST_RATE * dtf) e
              (spawnSmokeBurst_pushes now cx cy)) as (_ & added & H1 & H2 & _).
  destruct (emitWhole _ _ e) as [acc' e']. cbn [snd] in *.
  exists added. repeat split; [exact H1 | exact H2 | discriminate].
- exists []. cbn [snd]. rewrite app_nil_r. auto.
Qed.
(** What one campfire does to the refs and to [newGeneratedParticles]. *)
Lemma campfireStep_spec (now dtf : Q) (st : EngineState) (out : list Particle)
  (campfireId : string) (campfire : Campfire) :
let wasBurning := default false (prevBurningStates st !! campfireId) in
let decision := lingerDecision now campfireId wasBurning (isBurning campfire)
                               (lingeringSmokeData st) in
let smokeAcc := default 0 (smokeEmissionAccumulator st !! campfireId)
                + SMOKE_PARTICLES_PER_CAMPFIRE_FRAME * dtf in
let result := campfireStep random CAMPFIRE_HEIGHT CAMPFIRE_RENDER_Y_OFFSET
                           now dtf (st, out) (campfireId, campfire) in
particles (fst result) = particles st /\
lastUpdateTime (fst result) = lastUpdateTime st /\
prevBurningStates (fst result)
= <[campfireId := isBurning campfire]> (prevBurningStates st) /\
lingeringSmokeData (fst result) = snd decision /\
smokeEmissionAccumulator (fst result)
= <[campfireId := if snd (fst decision) then fst (emitWhole S smokeAcc O) else 0]>
    (smokeEmissionAccumulator st) /\
exists addedFire addedSmoke addedBurst,
  snd result = out ++ addedFire ++ addedSmoke ++ addedBurst /\
  Forall (fun p => ptype p = fire) addedFire /\
  (fst (fst decision) = false -> addedFire = []) /\
  Forall (fun p => ptype p = smoke) addedSmoke /\
  length addedSmoke = (if snd (fst decision)
                       then snd (emitWhole S smokeAcc O) else O) /\
  Forall (fun p => ptype p = smoke_burst) addedBurst /\
  (isPlayerInHotZone campfire && isBurning campfire = false -> addedBurst = []).
Proof.
cbv zeta. unfold campfireStep.
destruct (lingerDecision now campfireId _ (isBurning campfire) (lingeringSmokeData st))
  as [[generateFire generateSmoke] lingering'].
cbn [fst snd].
set (cx := posX campfire).
set (cy := posY campfire - CAMPFIRE_HEIGHT / 2 - CAMPFIRE_RENDER_Y_OFFSET).
destruct (fireStep_pushes now dtf cx cy campfireId generateFire
            (fireEmissionAccumulator st) (randomCalls st, out))
  as (addedFire & F1 & F2 & F3).
destruct (fireStep _ _ _ _ _ _ _ _ _ _) as [fireAccs' e1]. cbn [snd] in F1.
destruct (smokeStep_spec now dtf cx (cy + CAMPFIRE_HEIGHT * -0.00) campfireId
            generateSmoke (smokeEmissionAccumulator st) e1)
  as (S0 & addedSmoke & S1 & S2 & S3).
destruct (smokeStep _ _ _ _ _ _ _ _ _) as [smokeAccs' e2]. cbn [fst snd] in S0, S1.
destruct (smokeBurstStep_pushes now dtf cx cy campfireId campfire
            (smokeBurstEmissionAccumulator st) e2)
  as (addedBurst & B1 & B2 & B3).
destruct (smokeBurstStep _ _ _ _ _ _ _ _ _) as [burstAccs' e3]. cbn [snd] in B1.
cbn [fst snd particles lastUpdateTime prevBurningStates lingeringSmokeData
     smokeEmissionAccumulator].
repeat split; try reflexivity; try assumption.
exists addedFire, addedSmoke, addedBurst.
rewrite B1, S1, F1, <- !app_assoc.
repeat split; assumption.
Qed.

(** *** The linger decision, case by case *)

Lemma lingerDecision_burning (now : Q) (campfireId : string) (wasBurning : bool)
  (lingering : gmap string Q) :
lingerDecision now campfireId wasBurning true lingering
= (true, true, delete campfireId lingering).
Proof. reflexivity. Qed.





(** *** One frame with a single visible campfire *)


Lemma tick_runs (now : Q) (st : EngineState) :
lastUpdateTime st < now -> Qle_bool (now - lastUpdateTime st) 0 = false.
Proof. intros H. apply Qle_bool_false_iff. lra. Qed.

Lemma tick_skips (now : Q) (st : EngineState) :
now <= lastUpdateTime st -> Qle_bool (now - lastUpdateTime st) 0 = true.
Proof. intros H. apply Qle_bool_iff. lra. Qed.


(** A skipped frame only moves [lastUpdateTimeRef]. *)
Lemma updateParticles_skipped (now : Q) (visibleCampfiresMap : JsMap Campfire)
  (st : EngineState) :
now <= lastUpdateTime st ->
let st' := updateParticles random CAMPFIRE_HEIGHT CAMPFIRE_RENDER_Y_OFFSET now
             visibleCampfiresMap st in
prevBurningStates st' = prevBurningStates st /\
lingeringSmokeData st' = lingeringSmokeData st /\
smokeEmissionAccumulator st' = smokeEmissionAccumulator st /\
particles st' = particles st /\
lastUpdateTime st' = now.
Proof.
intros H. cbv zeta. unfold updateParticles. rewrite (tick_skips now st H).
repeat split.
Qed.

(** *** One campfire among the visible ones *)










(** *** Lingering smoke *)









(** *** Smoke bursts *)

Lemma updateParticle_ptype (now dtf : Q) (p p' : Particle) :
updateParticle now dtf p = Some p' -> ptype p' = ptype p.
Proof.
unfold updateParticle.
destruct (Qle_bool _ 0); [discriminate|].
destruct (ptype p) eqn:E; cbv zeta beta iota;
  match goal with
  | |- context [Qgt_bool ?a ?b] => destruct (Qgt_bool a b)
  end; intros H; inversion H; reflexivity.
Qed.

Lemma compaction_keeps_types (P : ParticleType -> Prop) (now dtf : Q)
  (ps : list Particle) :
Forall (fun p => P (ptype p)) ps ->
Forall (fun p => P (ptype p)) (omap (updateParticle now dtf) ps).
Proof.
induction 1 as [|p ps Hp Hps IH]; [constructor|].
cbn [omap list_omap]. destruct (updateParticle now dtf p) as [p'|] eqn:E.
- constructor; [|exact IH].
  rewrite (updateParticle_ptype now dtf p p' E). exact Hp.
- exact IH.
Qed.

(** A campfire without a player in its hot zone, or not burning, adds no
  smoke burst. *)
Lemma campfireStep_no_burst (now dtf : Q) (st : EngineState) (out : list Particle)
  (campfireId : string) (campfire : Campfire) :
isPlayerInHotZone campfire && isBurning campfire = false ->
exists added,
  snd (campfireStep random CAMPFIRE_HEIGHT CAMPFIRE_RENDER_Y_OFFSET now dtf
         (st, out) (campfireId, campfire)) = out ++ added /\
  Forall (fun p => ptype p <> smoke_burst) added.
Proof.
intros Hzone.
destruct (campfireStep_spec now dtf st out campfireId campfire)
  as (_ & _ & _ & _ & _ & addedFire & addedSmoke & addedBurst & E & F1 & _ & S1
      & _ & _ & B0).
rewrite (B0 Hzone), app_nil_r in E.
exists (addedFire ++ addedSmoke). split; [exact E|].
apply Forall_app_2.
- eapply List.Forall_impl; [|exact F1]. intros p Hp. rewrite Hp. discriminate.
- eapply List.Forall_impl; [|exact S1]. intros p Hp. rewrite Hp. discriminate.
Qed.

Lemma campfires_no_burst (now dtf : Q) (visibleCampfiresMap : JsMap Campfire) :
Forall (fun entry => isPlayerInHotZone (snd entry) && isBurning (snd entry) = false)
       visibleCampfiresMap ->
forall (st : EngineState) (out : list Particle),
exists added,
  snd (fold_left (campfireStep random CAMPFIRE_HEIGHT CAMPFIRE_RENDER_Y_OFFSET
                    now dtf) visibleCampfiresMap (st, out)) = out ++ added /\
  Forall (fun p => ptype p <> smoke_burst) added.
Proof.
induction 1 as [|[campfireId campfire] rest Hzone Hrest IH]; intros st out.
- exists []. cbn. rewrite app_nil_r. auto.
- cbn [fold_left].
  destruct (campfireStep_no_burst now dtf st out campfireId campfire Hzone)
    as (added1 & E1 & H1).
  destruct (campfireStep _ _ _ now dtf (st, out) (campfireId, campfire))
    as [st1 out1].
  cbn [snd] in E1. subst out1.
  destruct (IH st1 (out ++ added1)) as (added2 & E2 & H2).
  exists (added1 ++ added2). rewrite E2, <- app_assoc.
  split; [reflexivity | apply Forall_app_2; assumption].
Qed.

Lemma updateParticles_no_burst (now : Q) (visibleCampfiresMap : JsMap Campfire)
  (st : EngineState) :
Forall (fun p => ptype p <> smoke_burst) (particles st) ->
Forall (fun entry => isPlayerInHotZone (snd entry) && isBurning (snd entry) = false)
       visibleCampfiresMap ->
Forall (fun p => ptype p <> smoke_burst)
       (particles (updateParticles random CAMPFIRE_HEIGHT CAMPFIRE_RENDER_Y_OFFSET
                     now visibleCampfiresMap st)).
Proof.
intros Hold Hzone. unfold updateParticles.
destruct (Qle_bool _ 0); [exact Hold|].
destruct (campfires_no_burst now ((now - lastUpdateTime st) / FRAME_MS)
            visibleCampfiresMap Hzone st []) as (added & E & Hadded).
destruct (fold_left _ visibleCampfiresMap (st, [])) as [st1 newGenerated].
cbn [snd app] in E. subst newGenerated. cbn [particles].
apply Forall_app_2; [|exact Hadded].
apply (compaction_keeps_types (fun k => k <> smoke_burst)). exact Hold.
Qed.

(** C6.  A smoke-burst particle generated by a campfire's step comes from a
  frame in which [isPlayerInHotZone] and [isBurning] are both true on its
  record; and a run, of any length, in which no visible campfire has a
  player in its hot zone while burning leaves a particle list without
  smoke-burst particles, fire and smoke only. *)
Theorem smoke_burst_only_in_hot_zone :
(forall (now dtf : Q) (st : EngineState) (campfireId : string)
        (campfire : Campfire) (p : Particle),
    In p (snd (campfireStep random CAMPFIRE_HEIGHT CAMPFIRE_RENDER_Y_OFFSET now
                 dtf (st, []) (campfireId, campfire))) ->
    ptype p = smoke_burst ->
    isPlayerInHotZone campfire = true /\ isBurning campfire = true) /\
(forall (frames : list (Q * JsMap Campfire)) (st : EngineState),
    Forall (fun p => ptype p <> smoke_burst) (particles st) ->
    Forall (fun frame =>
              Forall (fun entry => isPlayerInHotZone (snd entry)
                                   && isBurning (snd entry) = false)
                     (snd frame)) frames ->
    Forall (fun p => ptype p = fire \/ ptype p = smoke)
           (particles (runFrames random CAMPFIRE_HEIGHT CAMPFIRE_RENDER_Y_OFFSET
                         frames st))).
Proof.
split.
- intros now dtf st campfireId campfire p Hin Hburst.
  destruct (isPlayerInHotZone campfire && isBurning campfire) eqn:Hzone;
    [apply andb_true_iff in Hzone; exact Hzone|].
  exfalso.
  destruct (campfireStep_no_burst now dtf st [] campfireId campfire Hzone)
    as (added & E & Hadded).
  rewrite E in Hin. cbn [app] in Hin.
  rewrite List.Forall_forall in Hadded. exact (Hadded p Hin Hburst).
- intros frames st Hold Hzones.
  assert (Forall (fun p => ptype p <> smoke_burst)
            (particles (runFrames random CAMPFIRE_HEIGHT CAMPFIRE_RENDER_Y_OFFSET
                          frames st))) as Hno.
  { revert st Hold. induction Hzones as [|[now cs] rest Hzone Hrest IH];
      intros st Hold; [exact Hold|].
    cbn [runFrames]. apply IH. apply updateParticles_no_burst; assumption. }
  eapply List.Forall_impl; [|exact Hno].
  intros p Hp. cbv beta in Hp.
  destruct (ptype p); [left; reflexivity | right; reflexivity | congruence].
Qed.

End ParticleEngine.



Lemma smoke_burst_only_in_hot_zone_witness :
  Forall (fun p => CampfireParticles.ptype p = CampfireParticles.fire
                   \/ CampfireParticles.ptype p = CampfireParticles.smoke)
         (CampfireParticles.particles
            (CampfireParticles.runFrames sampleRandom 64 10 quietFrames
               (CampfireParticles.initialState 0))).
Proof.
  apply (proj2 (smoke_burst_only_in_hot_zone sampleRandom 64 10)).
  - constructor.
  - repeat constructor.
Defined.

(** ** The two copies of the culler *)

Lemma kindOf_copies_agree (e : Entity) :
  EntityFiltering.kindOf e = GameCanvas.kindOf e.
Proof.
  pose proof (isSleepingBag_isWoodenStorageBox e) as Hbag.
  unfold EntityFiltering.kindOf, GameCanvas.kindOf.
  change (isCorn e) with (isMushroom e).
  destruct (isPlayer e), (isTree e), (isStone e), (isCampfire e), (isMushroom e),
    (isDroppedItem e), (isWoodenStorageBox e), (isSleepingBag e);
    try reflexivity; specialize (Hbag eq_refl); discriminate.
Qed.

Lemma isEntityInView_copies_agree (e : Entity) (bounds : ViewportBounds) :
  EntityFiltering.isEntityInView e bounds = GameCanvas.isEntityInView e bounds.
Proof.
  unfold EntityFiltering.isEntityInView, GameCanvas.isEntityInView.
  rewrite hook_resolveExtent_kindOf, canvas_resolveExtent_kindOf,
    kindOf_copies_agree.
  reflexivity.
Qed.

(** X1.  The culler of the hook and the inline culler of GameCanvas differ
    in the order of their chains (corn before or after dropped items, a
    sleeping-bag branch or none), and still settle every record on the same
    kind and return the same answer for every record and all bounds. *)
Theorem culler_copies_agree (e : Entity) (bounds : ViewportBounds) :
  EntityFiltering.kindOf e = GameCanvas.kindOf e /\
  EntityFiltering.resolveExtent e = GameCanvas.resolveExtent e /\
  EntityFiltering.isEntityInView e bounds = GameCanvas.isEntityInView e bounds.
Proof.
  split; [apply kindOf_copies_agree|].
  split; [|apply isEntityInView_copies_agree].
  rewrite hook_resolveExtent_kindOf, canvas_resolveExtent_kindOf,
    kindOf_copies_agree.
  reflexivity.
Qed.

(** X2.  With the bounds of [getViewportBounds], an entity is in view
    exactly when its chain settles on a kind, both coordinates are present,
    and its centre is less than two tiles (96 px) plus half the kind's
    size away from the canvas rectangle on each axis.  In particular an
    entity of a known kind whose centre is on the canvas, or within the
    two-tile buffer around it, is never culled. *)
Theorem in_view_within_two_tile_buffer (e : Entity)
    (cameraOffsetX cameraOffsetY canvasWidth canvasHeight : Q) :
  let bounds := getViewportBounds cameraOffsetX cameraOffsetY canvasWidth
                                  canvasHeight in
  (EntityFiltering.isEntityInView e bounds = true <->
   exists k x y,
     EntityFiltering.kindOf e = Some k /\
     kindCenterX k e = Some x /\ kindCenterY k e = Some y /\
     - cameraOffsetX - (96 + kindWidth k / 2) < x /\
     x < - cameraOffsetX + canvasWidth + (96 + kindWidth k / 2) /\
     - cameraOffsetY - (96 + kindHeight k / 2) < y /\
     y < - cameraOffsetY + canvasHeight + (96 + kindHeight k / 2)) /\
  (forall k x y,
      EntityFiltering.kindOf e = Some k ->
      kindCenterX k e = Some x -> kindCenterY k e = Some y ->
      - cameraOffsetX - 96 <= x <= - cameraOffsetX + canvasWidth + 96 ->
      - cameraOffsetY - 96 <= y <= - cameraOffsetY + canvasHeight + 96 ->
      EntityFiltering.isEntityInView e bounds = true /\
      GameCanvas.isEntityInView e bounds = true).
Proof.
  cbv zeta.
  assert (EntityFiltering.isEntityInView e
            (getViewportBounds cameraOffsetX cameraOffsetY canvasWidth canvasHeight)
          = true <->
          exists k x y,
            EntityFiltering.kindOf e = Some k /\
            kindCenterX k e = Some x /\ kindCenterY k e = Some y /\
            - cameraOffsetX - (96 + kindWidth k / 2) < x /\
            x < - cameraOffsetX + canvasWidth + (96 + kindWidth k / 2) /\
            - cameraOffsetY - (96 + kindHeight k / 2) < y /\
            y < - cameraOffsetY + canvasHeight + (96 + kindHeight k / 2)) as Hiff.
  { rewrite hook_inView_iff. unfold inViewSpec, strictOverlap, getViewportBounds.
    cbn [viewMinX viewMaxX viewMinY viewMaxY].
    change (tileSize * 2) with (48 * 2).
    split; intros (k & x & y & Hk & Hx & Hy & H); exists k, x, y;
      (split; [exact Hk|]); (split; [exact Hx|]); (split; [exact Hy|]);
      destruct H as (H1 & H2 & H3 & H4); repeat split; lra. }
  split; [exact Hiff|].
  intros k x y Hk Hx Hy [Hx1 Hx2] [Hy1 Hy2].
  rewrite <- isEntityInView_copies_agree.
  assert (EntityFiltering.isEntityInView e
            (getViewportBounds cameraOffsetX cameraOffsetY canvasWidth canvasHeight)
          = true) as Hin; [|split; exact Hin].
  apply Hiff. exists k, x, y.
  pose proof (kindWidth_pos k) as Hw. pose proof (kindHeight_pos k) as Hh.
  repeat split; try assumption; lra.
Qed.

(** ** The filtered lists of the two copies *)

Lemma filter_ext_eq {A : Type} (f g : A -> bool) (l : list A) :
  (forall a, f a = g a) -> List.filter f l = List.filter g l.
Proof.
  intros H. induction l as [|a l IH]; [reflexivity|].
  simpl. rewrite H, IH. reflexivity.
Qed.

Lemma filter_and_nested {A : Type} (f g : A -> bool) (l : list A) :
  List.filter (fun a => f a && g a) l = List.filter f (List.filter g l).
Proof.
  induction l as [|a l IH]; [reflexivity|].
  simpl. destruct (g a) eqn:Eg, (f a) eqn:Ef; simpl; rewrite ?Ef, ?IH;
    reflexivity.
Qed.

(** X3.  GameCanvas filters the replicated tables as the hook does, with two
    differences: it drops dead players, which the hook keeps, and it tags
    the visible mushrooms and corn with [__entityType].  Every other
    visible list is the same list in both copies. *)
Theorem canvas_filters_match_hook (t : Tables) (b : ViewportBounds) :
  GameCanvas.visiblePlayers t b
  = List.filter (fun p => negb (truthy (isDead p)))
                (EntityFiltering.visiblePlayers t b) /\
  GameCanvas.visibleTrees t b = EntityFiltering.visibleTrees t b /\
  GameCanvas.visibleStones t b = EntityFiltering.visibleStones t b /\
  GameCanvas.visibleWoodenStorageBoxes t b
  = EntityFiltering.visibleWoodenStorageBoxes t b /\
  GameCanvas.visibleDroppedItems t b = EntityFiltering.visibleDroppedItems t b /\
  GameCanvas.visibleCampfires t b = EntityFiltering.visibleCampfires t b /\
  GameCanvas.visibleMushrooms t b
  = map (GameCanvas.withEntityType "mushroom") (EntityFiltering.visibleMushrooms t b) /\
  GameCanvas.visibleCorns t b
  = map (GameCanvas.withEntityType "corn") (EntityFiltering.visibleCorns t b).
Proof.
  unfold GameCanvas.visiblePlayers, GameCanvas.visibleTrees, GameCanvas.visibleStones,
    GameCanvas.visibleWoodenStorageBoxes, GameCanvas.visibleDroppedItems,
    GameCanvas.visibleCampfires, GameCanvas.visibleMushrooms, GameCanvas.visibleCorns,
    EntityFiltering.visiblePlayers, EntityFiltering.visibleTrees,
    EntityFiltering.visibleStones, EntityFiltering.visibleWoodenStorageBoxes,
    EntityFiltering.visibleDroppedItems, EntityFiltering.visibleCampfires,
    EntityFiltering.visibleMushrooms, EntityFiltering.visibleCorns.
  split.
  { rewrite <- filter_and_nested. apply filter_ext_eq. intros a.
    rewrite isEntityInView_copies_agree. reflexivity. }
  repeat split;
    first [apply filter_ext_eq | apply (f_equal (map _)); apply filter_ext_eq];
    intros a; rewrite isEntityInView_copies_agree; reflexivity.
Qed.

(** ** The Y-sorted layer of the two copies *)

Section FilterSorted.
Context {A : Type}.
Variable compareFn : A -> A -> Q.
Variable key : A -> Q.
Variable keyed : A -> Prop.
Hypothesis compare_keys :
  forall a b, keyed a -> keyed b -> compareFn a b == key a - key b.
Variable keep : A -> bool.

Lemma sortInsert_below_all (x : A) (l : list A) :
  keyed x -> Forall keyed l -> Forall (ascending key x) l ->
  sortInsert compareFn x l = x :: l.
Proof.
  intros Hx Hl Hle. destruct l as [|y r]; [reflexivity|].
  inversion Hl; subst. inversion Hle; subst. cbn [sortInsert].
  assert (Qle_bool (compareFn x y) 0 = true) as ->; [|reflexivity].
  apply (compare_le compareFn key keyed compare_keys); assumption.
Qed.

Lemma filter_sortInsert (x : A) (l : list A) :
  keyed x -> Forall keyed l -> StronglySorted (ascending key) l ->
  List.filter keep (sortInsert compareFn x l)
  = if keep x then sortInsert compareFn x (List.filter keep l)
    else List.filter keep l.
Proof.
  intros Hx Hl Hs. induction Hs as [|y r Hs IH Hy].
  - cbn. destruct (keep x); reflexivity.
  - inversion Hl as [|? ? Hky Hkr]; subst. cbn [sortInsert].
    destruct (Qle_bool (compareFn x y) 0) eqn:E.
    + cbn [List.filter]. destruct (keep x) eqn:Ex; [|reflexivity].
      apply (compare_le compareFn key keyed compare_keys x y Hx Hky) in E.
      symmetry. apply sortInsert_below_all; [exact Hx | |].
      * destruct (keep y); [constructor; [exact Hky|]|]; apply filter_sub; exact Hkr.
      * assert (Forall (ascending key x) (y :: r)) as Hall.
        { constructor; [exact E|].
          eapply List.Forall_impl; [|exact Hy]. unfold ascending. intros z Hz. lra. }
        apply (filter_sub _ keep) in Hall. exact Hall.
    + cbn [List.filter]. rewrite (IH Hkr).
      destruct (keep y) eqn:Ey, (keep x) eqn:Ex; try reflexivity.
      cbn [sortInsert]. rewrite E. reflexivity.
Qed.

Lemma filter_jsSort (l : list A) :
  Forall keyed l ->
  List.filter keep (jsSort compareFn l) = jsSort compareFn (List.filter keep l).
Proof.
  induction l as [|x r IH]; intros H; [reflexivity|].
  inversion H as [|? ? Hx Hr]; subst. cbn [jsSort List.filter].
  rewrite filter_sortInsert.
  - rewrite (IH Hr). destruct (keep x); reflexivity.
  - exact Hx.
  - apply jsSort_keyed. exact Hr.
  - apply (jsSort_sorted compareFn key keyed compare_keys). exact Hr.
Qed.
End FilterSorted.

Lemma jsSort_ext {A : Type} (c1 c2 : A -> A -> Q) (l : list A) :
  (forall a b, c1 a b = c2 a b) -> jsSort c1 l = jsSort c2 l.
Proof.
  intros H. induction l as [|x r IH]; [reflexivity|].
  cbn [jsSort]. rewrite IH. generalize (jsSort c2 r). intros s.
  induction s as [|y s IHs]; [reflexivity|].
  cbn [sortInsert]. rewrite H, IHs. reflexivity.
Qed.

Lemma filter_all_kept {A : Type} (f : A -> bool) (l : list A) :
  Forall (fun a => f a = true) l -> List.filter f l = l.
Proof.
  induction 1 as [|a l Ha Hl IH]; [reflexivity|].
  cbn [List.filter]. rewrite Ha, IH. reflexivity.
Qed.

(** X28.  When only player rows carry a truthy [isDead] (the tree, stone
    and storage-box rows have no such field), the Y-sorted layer that
    GameCanvas paints is the Y-sorted layer of the hook with the dead
    players removed: the same entities in the same order. *)
Theorem canvas_sorted_layer_is_hook_layer_without_dead
    (t : Tables) (b : ViewportBounds)
    (Hrows : Forall (fun e => truthy (isDead e) = false)
                    (values (trees t) ++ values (stones t)
                     ++ values (woodenStorageBoxes t))) :
  GameCanvas.ySortedEntities t b
  = List.filter (fun e => negb (truthy (isDead e)))
                (EntityFiltering.ySortedEntities t b).
Proof.
  apply Forall_app in Hrows. destruct Hrows as [Htrees Hrows].
  apply Forall_app in Hrows. destruct Hrows as [Hstones Hboxes].
  unfold GameCanvas.ySortedEntities, EntityFiltering.ySortedEntities.
  rewrite (filter_jsSort EntityFiltering.compareY
             (fun e => numberOf (EntityFiltering.yOf e))
             (fun e => exists y, EntityFiltering.yOf e = Some y)).
  - rewrite (jsSort_ext GameCanvas.compareY EntityFiltering.compareY).
    + f_equal. unfold GameCanvas.ySortedInput, EntityFiltering.ySortedInput.
      rewrite hook_stones_filtered_twice, !List.filter_app.
      assert (forall l : list Entity,
                 Forall (fun e => truthy (isDead e) = false) l ->
                 forall f, List.filter (fun e => negb (truthy (isDead e)))
                                       (List.filter f l) = List.filter f l) as Hkept.
      { intros l Hl f. apply filter_all_kept. apply filter_sub.
        eapply List.Forall_impl; [|exact Hl]. cbn. intros e ->. reflexivity. }
      unfold EntityFiltering.visibleTrees, EntityFiltering.visibleStones,
        EntityFiltering.visibleWoodenStorageBoxes.
      rewrite (Hkept _ Htrees), (Hkept _ Hstones), (Hkept _ Hboxes).
      unfold GameCanvas.visiblePlayers, GameCanvas.visibleTrees,
        GameCanvas.visibleStones, GameCanvas.visibleWoodenStorageBoxes,
        EntityFiltering.visiblePlayers.
      rewrite <- filter_and_nested.
      repeat (f_equal; try (apply filter_ext_eq; intros e;
                            rewrite isEntityInView_copies_agree; reflexivity)).
    + intros x y. unfold GameCanvas.compareY, EntityFiltering.compareY,
        GameCanvas.yOf, EntityFiltering.yOf.
      destruct (isPlayer x), (isPlayer y), (isWoodenStorageBox x),
        (isWoodenStorageBox y); reflexivity.
  - intros x y Hx Hy. apply compareResult_keys; assumption.
  - eapply List.Forall_impl; [|apply hook_ySortedInput_inView].
    intros e He. eapply hook_inView_yOf. exact He.
Qed.

Lemma canvas_sorted_layer_is_hook_layer_without_dead_witness :
  GameCanvas.ySortedEntities battleTables sampleBounds
  = List.filter (fun e => negb (truthy (isDead e)))
                (EntityFiltering.ySortedEntities battleTables sampleBounds).
Proof.
  apply canvas_sorted_layer_is_hook_layer_without_dead.
  vm_compute. repeat constructor.
Defined.

(** ** Visible maps *)

Section MapFacts.
Import VisibleMaps.
Context {V : Type}.

Lemma mapGet_mapSet (key key' : string) (value : V) (m : JsMap V) :
mapGet key (mapSet key' value m)
= if String.eqb key' key then Some value else mapGet key m.
Proof.
induction m as [|[k v] rest IH]; cbn [mapSet mapGet].
- reflexivity.
- destruct (String.eqb k key') eqn:E; cbn [mapGet].
  + apply String.eqb_eq in E. subst k.
    destruct (String.eqb key' key); reflexivity.
  + rewrite IH. destruct (String.eqb k key) eqn:E'; [|reflexivity].
    apply String.eqb_eq in E'. subst k. rewrite String.eqb_sym, E. reflexivity.
Qed.

Lemma mapSet_keys (key : string) (value : V) (m : JsMap V) :
map fst (mapSet key value m)
= if existsb (String.eqb key) (map fst m) then map fst m else map fst m ++ [key].
Proof.
induction m as [|[k v] rest IH]; cbn [mapSet map fst existsb app orb].
- reflexivity.
- rewrite (String.eqb_sym key k).
  destruct (String.eqb k key); cbn [map fst orb]; [reflexivity|].
  rewrite IH. destruct (existsb _ _); reflexivity.
Qed.

Lemma mapSet_NoDup (key : string) (value : V) (m : JsMap V) :
List.NoDup (map fst m) -> List.NoDup (map fst (mapSet key value m)).
Proof.
intros H. rewrite mapSet_keys.
destruct (existsb (String.eqb key) (map fst m)) eqn:E; [exact H|].
apply List.NoDup_app; [exact H | repeat constructor; intros [] |].
intros k Hk [<-|[]].
assert (existsb (String.eqb key) (map fst m) = true); [|congruence].
apply existsb_exists. exists key. split; [exact Hk | apply String.eqb_refl].
Qed.

Lemma fold_mapSet_NoDup (entries : list (string * V)) (m : JsMap V) :
List.NoDup (map fst m) ->
List.NoDup (map fst (fold_left (fun m entry => mapSet (fst entry) (snd entry) m)
                               entries m)).
Proof.
revert m. induction entries as [|entry rest IH]; intros m H; [exact H|].
cbn [fold_left]. apply IH. apply mapSet_NoDup. exact H.
Qed.

Lemma find_over_app {A : Type} (f : A -> bool) (l1 l2 : list A) :
List.find f (l1 ++ l2)
= match List.find f l1 with
  | Some x => Some x
  | None => List.find f l2
  end.
Proof.
induction l1 as [|x l1 IH]; [reflexivity|].
cbn [app List.find]. destruct (f x); [reflexivity | exact IH].
Qed.

Lemma fold_mapSet_get (key : string) (entries : list (string * V)) (m : JsMap V) :
mapGet key (fold_left (fun m entry => mapSet (fst entry) (snd entry) m) entries m)
= match List.find (fun entry => String.eqb (fst entry) key) (rev entries) with
  | Some entry => Some (snd entry)
  | None => mapGet key m
  end.
Proof.
revert m. induction entries as [|entry rest IH]; intros m; [reflexivity|].
cbn [fold_left rev]. rewrite IH, find_over_app.
destruct (List.find _ (rev rest)) as [found|]; [reflexivity|].
cbn [List.find]. rewrite mapGet_mapSet.
destruct (String.eqb (fst entry) key); reflexivity.
Qed.

Lemma fold_mapSet_fresh (entries : list (string * V)) (m : JsMap V) :
List.NoDup (map fst m ++ map fst entries) ->
fold_left (fun m entry => mapSet (fst entry) (snd entry) m) entries m
= m ++ entries.
Proof.
revert m. induction entries as [|[k v] rest IH]; intros m H.
- cbn. rewrite app_nil_r. reflexivity.
- cbn [fold_left fst snd].
  assert (mapSet k v m = m ++ [(k, v)]) as ->.
  { cbn [map fst] in H. apply List.NoDup_remove_2 in H.
    assert (~ In k (map fst m)) as Hfresh
        by (intros Hin; apply H; apply in_or_app; left; exact Hin).
    clear H IH. induction m as [|[k' v'] m IH]; [reflexivity|].
    cbn [mapSet app]. cbn [map fst In] in Hfresh.
    destruct (String.eqb_spec k' k) as [->|Hne]; [tauto|].
    rewrite IH by tauto. reflexivity. }
  rewrite IH.
  + rewrite <- app_assoc. reflexivity.
  + rewrite map_app, <- app_assoc. exact H.
Qed.

End MapFacts.

Section VisibleMapFacts.
Import VisibleMaps.

Lemma entriesOf_spec (visible : list Entity) :
match entriesOf visible with
| Some entries =>
    map snd entries = visible /\
    Forall (fun entry => idKey (snd entry) = Some (fst entry)) entries
| None => exists e, In e visible /\ id e = None
end.
Proof.
induction visible as [|e rest IH]; cbn [entriesOf].
- split; [reflexivity | constructor].
- unfold idKey at 1. destruct (id e) as [n|] eqn:Hid.
  + destruct (entriesOf rest) as [entries|].
    * destruct IH as [H1 H2]. cbn [map snd]. split; [rewrite H1; reflexivity|].
      constructor; [|exact H2]. cbn [fst snd]. unfold idKey. rewrite Hid. reflexivity.
    * destruct IH as (e' & Hin & He'). exists e'. split; [right; exact Hin | exact He'].
  + exists e. split; [left; reflexivity | exact Hid].
Qed.

Lemma find_entries (key : string) (entries : list (string * Entity)) :
Forall (fun entry => idKey (snd entry) = Some (fst entry)) entries ->
option_map snd (List.find (fun entry => String.eqb (fst entry) key) entries)
= List.find (fun e => match idKey e with
                      | Some k => String.eqb k key
                      | None => false
                      end) (map snd entries).
Proof.
induction 1 as [|entry rest Hentry Hrest IH]; [reflexivity|].
cbn [List.find map]. rewrite Hentry.
destruct (String.eqb (fst entry) key); [reflexivity | exact IH].
Qed.

(** X27.  The visible maps are built by [new Map(list.map(e =>
  [e.id.toString(), e]))].  The construction throws exactly when a record
  of the list has no [id].  Otherwise the map has no key twice, every
  value of it is a record of the list, [get] returns the last record of
  the list with that id (a later record replaces an earlier one with the
  same id, at the earlier one's place), and when no id occurs twice the
  values of the map are the list itself, in its order. *)
Theorem visible_map_indexes_by_id (visible : list Entity) :
(visibleMapOf visible = None <-> exists e, In e visible /\ id e = None) /\
(forall m,
    visibleMapOf visible = Some m ->
    List.NoDup (map fst m) /\
    (forall key, mapGet key m = lastWithKey key visible) /\
    (forall key e, In (key, e) m -> In e visible /\ idKey e = Some key) /\
    (List.NoDup (omap idKey visible) -> values m = visible)).
Proof.
unfold visibleMapOf. pose proof (entriesOf_spec visible) as Hspec.
destruct (entriesOf visible) as [entries|].
- destruct Hspec as [Hvalues Hkeys]. split.
  + split; [discriminate|]. intros (e & Hin & Hid). exfalso.
    rewrite <- Hvalues in Hin. apply in_map_iff in Hin.
    destruct Hin as (entry & <- & Hentry).
    rewrite List.Forall_forall in Hkeys. specialize (Hkeys entry Hentry).
    unfold idKey in Hkeys. rewrite Hid in Hkeys. discriminate.
  + intros m Hm. inversion Hm; subst m. unfold newMap.
    split; [apply fold_mapSet_NoDup; constructor|].
    split; [|split].
    * intros key. rewrite fold_mapSet_get. cbn [mapGet].
      unfold lastWithKey. rewrite <- Hvalues, <- map_rev.
      rewrite <- find_entries.
      -- destruct (List.find _ (rev entries)); reflexivity.
      -- apply Forall_rev. exact Hkeys.
    * intros key e Hin.
      assert (forall (acc : JsMap Entity) (l : list (string * Entity)),
                 In (key, e) (fold_left (fun m entry => mapSet (fst entry) (snd entry) m)
                                        l acc) ->
                 In (key, e) acc \/ In (key, e) l) as Hfold.
      { intros acc l. revert acc. induction l as [|[k v] l IH]; intros acc H;
          [left; exact H|].
        cbn [fold_left fst snd] in H. destruct (IH _ H) as [Hacc|Hl];
          [|right; right; exact Hl].
        clear IH H. induction acc as [|[k' v'] acc IH].
        - destruct Hacc as [Heq|[]]. right. left. exact Heq.
        - cbn [mapSet] in Hacc. destruct (String.eqb_spec k' k) as [->|Hne].
          + destruct Hacc as [Heq|Hacc]; [right; left; exact Heq|].
            left. right. exact Hacc.
          + destruct Hacc as [Heq|Hacc]; [left; left; exact Heq|].
            destruct (IH Hacc) as [H1|H1]; [left; right; exact H1 | right; exact H1]. }
      destruct (Hfold [] entries Hin) as [[]|Hentry].
      rewrite List.Forall_forall in Hkeys. specialize (Hkeys _ Hentry).
      split; [|exact Hkeys].
      rewrite <- Hvalues. apply in_map_iff. exists (key, e). auto.
    * intros Hnodup. rewrite fold_mapSet_fresh.
      -- cbn [app]. exact Hvalues.
      -- cbn [map app].
         assert (map fst entries = omap idKey visible) as ->; [|exact Hnodup].
         rewrite <- Hvalues. clear Hvalues Hnodup Hm.
         induction Hkeys as [|entry rest Hentry Hrest IH]; [reflexivity|].
         cbn [map omap list_omap]. rewrite Hentry, IH. reflexivity.
- destruct Hspec as (e & Hin & Hid). split.
  + split; [intros _; exists e; auto | reflexivity].
  + intros m Hm. discriminate.
Qed.

End VisibleMapFacts.

(** ** Range of the jump offset *)

Lemma jumpArc_closed_form (x : Q) :
  Rendering.jumpArc Rendering.JUMP_DURATION_MS Rendering.JUMP_HEIGHT_PX x
  == x * (400 - x) / 1000.
Proof.
  unfold Rendering.jumpArc, Rendering.JUMP_DURATION_MS, Rendering.JUMP_HEIGHT_PX.
  field.
Qed.

Lemma Qsquare_nonneg (a : Q) : 0 <= a * a.
Proof.
  destruct (Qlt_le_dec a 0) as [H|H].
  - assert (a * a == (- a) * (- a)) as -> by ring.
    apply Qmult_le_0_compat; lra.
  - apply Qmult_le_0_compat; exact H.
Qed.

Lemma arc_at_most_peak (x : Q) : x * (400 - x) / 1000 <= 40.
Proof.
  pose proof (Qsquare_nonneg (x - 200)) as Hsq.
  unfold Qdiv. change (/ 1000) with (1 # 1000). lra.
Qed.

Lemma arc_nonneg (x : Q) : 0 <= x -> x < 400 -> 0 <= x * (400 - x) / 1000.
Proof.
  intros H0 H1. assert (0 <= x * (400 - x)) by (apply Qmult_le_0_compat; lra).
  unfold Qdiv. change (/ 1000) with (1 # 1000). lra.
Qed.

Lemma arc_negative (x : Q) : x < 0 -> x * (400 - x) / 1000 < 0.
Proof.
  intros H0.
  assert (0 < (- x) * (400 - x)) by (apply Qmult_lt_0_compat; lra).
  unfold Qdiv. change (/ 1000) with (1 # 1000). lra.
Qed.

(** X4.  The jump offset never exceeds the jump height of 40 px.  It is not
    negative when the jump did not start after the frame's clock value, and
    it is zero when no jump is recorded, when the recorded start is not
    positive, and from 400 ms after the start on.  A start that lies after
    the frame's clock value gives a negative offset: the sprite is drawn
    below its ground position. *)
Theorem jumpOffset_range (nowMs : Q) (player : Entity) :
  Rendering.jumpOffset nowMs player <= Rendering.JUMP_HEIGHT_PX /\
  (match jumpStartTimeMs player with
   | Some jumpStartTime => inject_Z jumpStartTime <= nowMs
   | None => True
   end -> 0 <= Rendering.jumpOffset nowMs player) /\
  (match jumpStartTimeMs player with
   | Some jumpStartTime =>
       (jumpStartTime <= 0)%Z \/
       inject_Z jumpStartTime + Rendering.JUMP_DURATION_MS <= nowMs
   | None => True
   end -> Rendering.jumpOffset nowMs player = 0) /\
  (forall jumpStartTime,
      jumpStartTimeMs player = Some jumpStartTime ->
      (0 < jumpStartTime)%Z -> nowMs < inject_Z jumpStartTime ->
      Rendering.jumpOffset nowMs player < 0).
Proof.
  unfold Rendering.jumpOffset.
  destruct (jumpStartTimeMs player) as [s|]; cbn beta iota.
  2:{ repeat split; try reflexivity; discriminate. }
  set (x := nowMs - inject_Z s).
  pose proof (jumpArc_closed_form x) as Harc.
  pose proof (arc_at_most_peak x) as Hmax.
  destruct (0 <? s)%Z eqn:Hpos.
  - destruct (Qlt_bool x Rendering.JUMP_DURATION_MS) eqn:Hlt.
    + apply Qlt_bool_iff in Hlt. unfold Rendering.JUMP_DURATION_MS in Hlt.
      unfold Rendering.JUMP_HEIGHT_PX at 1.
      repeat split.
      * rewrite Harc. exact Hmax.
      * intros Hstart. rewrite Harc.
        apply arc_nonneg; [unfold x; lra | exact Hlt].
      * intros [Hs|Hs]; [apply Z.ltb_lt in Hpos; lia|].
        unfold Rendering.JUMP_DURATION_MS in Hs. unfold x in Hlt. lra.
      * intros s' Hs' _ Hfuture. inversion Hs'; subst s'. rewrite Harc.
        apply arc_negative. unfold x. lra.
    + apply Qlt_bool_false_iff in Hlt. unfold Rendering.JUMP_DURATION_MS in Hlt.
      repeat split; try reflexivity; try discriminate.
      intros s' Hs' _ Hfuture. inversion Hs'; subst s'.
      unfold x in Hlt. lra.
  - repeat split; try reflexivity; try discriminate.
    intros s' Hs' Hs'pos _. inversion Hs'; subst s'.
    apply Z.ltb_lt in Hs'pos. congruence.
Qed.

(** ** Movement tracking *)

Lemma spriteDraws_app (l1 l2 : list Rendering.RenderOp) :
  spriteDraws (l1 ++ l2) = spriteDraws l1 ++ spriteDraws l2.
Proof. unfold spriteDraws. apply flat_map_app. Qed.

Lemma renderPlayer_spriteDraws (player : Entity) (isMoving isHovered : bool)
    (jumpOffsetY : Q) (shouldShowLabel : bool) :
  spriteDraws (Rendering.renderPlayer player isMoving isHovered jumpOffsetY
                                      shouldShowLabel)
  = [(Rendering.playerIdOf player, isMoving, jumpOffsetY)].
Proof.
  unfold Rendering.renderPlayer.
  destruct (truthy (isDead player)), (isHovered || shouldShowLabel); reflexivity.
Qed.

(** One entity of the loop: a player is recorded at its position and, when
    the hero image is loaded, drawn once; nothing else touches the record
    or draws a player sprite. *)
Lemma renderEntity_sprite
    (heroImg : bool) (canRenderItem : string -> bool)
    (worldMouseX worldMouseY : option Q) (nowMs : Q)
    (hoveredPlayerIds : gset string)
    (lastPositions : gmap string (option Q * option Q)) (entity : Entity) :
  let result := Rendering.renderEntity heroImg canRenderItem worldMouseX worldMouseY
                  nowMs hoveredPlayerIds lastPositions entity in
  fst result
  = (if isPlayer entity
     then <[Rendering.playerIdOf entity := (positionX entity, positionY entity)]>
            lastPositions
     else lastPositions) /\
  spriteDraws (snd result)
  = (if isPlayer entity && heroImg
     then [(Rendering.playerIdOf entity, isPlayerMovingSince lastPositions entity,
            Rendering.jumpOffset nowMs entity)]
     else []).
Proof.
  cbv zeta. unfold Rendering.renderEntity.
  destruct (isPlayer entity); cbn [fst snd andb].
  - split; [reflexivity|].
    rewrite spriteDraws_app.
    assert (spriteDraws
              (match Rendering.hoverDispatch worldMouseX worldMouseY hoveredPlayerIds
                       entity with
               | Some (pid, v) => [Rendering.OpPlayerHover pid v]
               | None => []
               end) = []) as ->.
    { destruct (Rendering.hoverDispatch _ _ _ _) as [[pid v]|]; reflexivity. }
    assert (spriteDraws
              (if canRenderItem (Rendering.playerIdOf entity)
               then [Rendering.OpEquippedItem (Rendering.playerIdOf entity)
                       (Rendering.jumpOffset nowMs entity)] else []) = []) as Hitem.
    { destruct (canRenderItem _); reflexivity. }
    cbn [app].
    destruct (Rendering.itemBehindPlayer _), heroImg;
      rewrite spriteDraws_app, Hitem, ?renderPlayer_spriteDraws, ?app_nil_r;
      reflexivity.
  - destruct (isTree entity); [split; reflexivity|].
    destruct (isStone entity); [split; reflexivity|].
    destruct (isWoodenStorageBox entity); split; reflexivity.
Qed.

Lemma isPlayerMovingSince_other (lastPositions : gmap string (option Q * option Q))
    (other : string) (pos : option Q * option Q) (entity : Entity) :
  other <> Rendering.playerIdOf entity ->
  isPlayerMovingSince (<[other := pos]> lastPositions) entity
  = isPlayerMovingSince lastPositions entity.
Proof.
  intros Hne. unfold isPlayerMovingSince.
  rewrite lookup_insert_ne by exact Hne. reflexivity.
Qed.

(** The whole loop, for a list in which no player id occurs twice. *)
Lemma renderYSortedEntities_sprites
    (heroImg : bool) (canRenderItem : string -> bool)
    (worldMouseX worldMouseY : option Q) (nowMs : Q)
    (hoveredPlayerIds : gset string) (ySortedEntities : list Entity) :
  List.NoDup (playerIdsOf ySortedEntities) ->
  forall lastPositions : gmap string (option Q * option Q),
    let result := Rendering.renderYSortedEntities heroImg canRenderItem worldMouseX
                    worldMouseY nowMs hoveredPlayerIds lastPositions
                    ySortedEntities in
    spriteDraws (snd result)
    = (if heroImg
       then map (fun e => (Rendering.playerIdOf e,
                           isPlayerMovingSince lastPositions e,
                           Rendering.jumpOffset nowMs e))
                (List.filter isPlayer ySortedEntities)
       else []) /\
    (forall e, In e ySortedEntities -> isPlayer e = true ->
               fst result !! Rendering.playerIdOf e
               = Some (positionX e, positionY e)) /\
    (forall k, ~ In k (playerIdsOf ySortedEntities) ->
               fst result !! k = lastPositions !! k).
Proof.
  unfold playerIdsOf.
  induction ySortedEntities as [|entity rest IH]; intros Hnodup lastPositions.
  - cbv zeta. cbn. destruct heroImg; repeat split; tauto.
  - cbv zeta. simpl Rendering.renderYSortedEntities.
    destruct (renderEntity_sprite heroImg canRenderItem worldMouseX worldMouseY
                nowMs hoveredPlayerIds lastPositions entity) as [Hfst Hsnd].
    destruct (Rendering.renderEntity _ _ _ _ _ _ _ _) as [lp ops].
    cbn [fst snd] in Hfst, Hsnd. subst lp.
    cbn [List.filter] in Hnodup |- *.
    destruct (isPlayer entity) eqn:Hplayer.
    + cbn [map] in Hnodup. apply List.NoDup_cons_iff in Hnodup.
      destruct Hnodup as [Hfresh Hnodup].
      specialize (IH Hnodup
                    (<[Rendering.playerIdOf entity
                       := (positionX entity, positionY entity)]> lastPositions)).
      cbv zeta in IH.
      destruct (Rendering.renderYSortedEntities _ _ _ _ _ _ _ _) as [lp' ops'].
      cbn [fst snd] in IH |- *. destruct IH as (IH1 & IH2 & IH3).
      rewrite spriteDraws_app, Hsnd, IH1. cbn [andb].
      split; [|split].
      * destruct heroImg; [|reflexivity].
        cbn [map app]. f_equal.
        apply map_ext_in. intros e He.
        rewrite isPlayerMovingSince_other; [reflexivity|].
        intros Heq. apply Hfresh. rewrite Heq. apply in_map. exact He.
      * intros e [->|He] He'.
        -- rewrite (IH3 _ Hfresh). apply lookup_insert_eq.
        -- apply IH2; assumption.
      * intros k Hk. cbn [map In] in Hk.
        rewrite IH3 by tauto. apply lookup_insert_ne. tauto.
    + specialize (IH Hnodup lastPositions). cbv zeta in IH.
      destruct (Rendering.renderYSortedEntities _ _ _ _ _ _ _ _) as [lp' ops'].
      cbn [fst snd] in IH |- *. destruct IH as (IH1 & IH2 & IH3).
      rewrite spriteDraws_app, Hsnd, IH1. cbn [andb app].
      split; [reflexivity|]. split; [|exact IH3].
      intros e [->|He] He'; [congruence | apply IH2; assumption].
Qed.

(** X5.  In a frame whose Y-sorted list holds no player id twice,
    [renderPlayer] is called once per player, in list order, when the hero
    image is loaded (and never otherwise), with [isMoving] decided against
    the position recorded before the frame and with the player's jump
    offset; after the frame [lastPositionsRef] holds every player of the
    list at its current position and is unchanged for every other id. *)
Theorem sprites_follow_recorded_positions
    (heroImg : bool) (canRenderItem : string -> bool)
    (worldMouseX worldMouseY : option Q) (nowMs : Q)
    (hoveredPlayerIds : gset string)
    (lastPositions : gmap string (option Q * option Q))
    (ySortedEntities : list Entity) :
  List.NoDup (playerIdsOf ySortedEntities) ->
  let result := Rendering.renderYSortedEntities heroImg canRenderItem worldMouseX
                  worldMouseY nowMs hoveredPlayerIds lastPositions
                  ySortedEntities in
  spriteDraws (snd result)
  = (if heroImg
     then map (fun e => (Rendering.playerIdOf e,
                         isPlayerMovingSince lastPositions e,
                         Rendering.jumpOffset nowMs e))
              (List.filter isPlayer ySortedEntities)
     else []) /\
  (forall e, In e ySortedEntities -> isPlayer e = true ->
             fst result !! Rendering.playerIdOf e
             = Some (positionX e, positionY e)) /\
  (forall k, ~ In k (playerIdsOf ySortedEntities) ->
             fst result !! k = lastPositions !! k).
Proof.
  intros Hnodup.
  exact (renderYSortedEntities_sprites heroImg canRenderItem worldMouseX worldMouseY
           nowMs hoveredPlayerIds ySortedEntities Hnodup lastPositions).
Qed.

Lemma sprites_follow_recorded_positions_witness :
  spriteDraws
    (snd (Rendering.renderYSortedEntities true (fun _ => false) None None 0 ∅
            walkersBefore walkers))
  = [("a1"%string, false, 0); ("b2"%string, true, 0)].
Proof.
  assert (List.NoDup (playerIdsOf walkers)) as Hnodup.
  { repeat constructor; cbn; intuition discriminate. }
  destruct (sprites_follow_recorded_positions true (fun _ => false) None None 0 ∅
              walkersBefore walkers Hnodup) as [H _].
  rewrite H. vm_compute. reflexivity.
Defined.

Lemma movedBy_same (a : option Q) :
  Rendering.movedBy a a Rendering.MOVEMENT_POSITION_THRESHOLD = false.
Proof.
  unfold Rendering.movedBy. destruct a as [a|]; [|reflexivity].
  unfold Qgt_bool. apply Qlt_bool_false_iff.
  assert (a - a == 0) as -> by ring. discriminate.
Qed.

Lemma isPlayerMovingSince_recorded
    (lastPositions : gmap string (option Q * option Q)) (e : Entity) :
  lastPositions !! Rendering.playerIdOf e = Some (positionX e, positionY e) ->
  isPlayerMovingSince lastPositions e = false.
Proof.
  intros H. unfold isPlayerMovingSince. rewrite H. cbn [fst snd].
  rewrite !movedBy_same. reflexivity.
Qed.

(** X6.  A player is drawn in the idle pose the first time it is seen (no
    record in [lastPositionsRef]), and in every frame that finds it where
    the previous frame recorded it: rendering the same list again, whatever
    the mouse, the clock and the loaded images of the second frame, draws
    no walking sprite and leaves [lastPositionsRef] as it is. *)
Theorem unmoved_players_drawn_idle
    (heroImg heroImg' : bool) (canRenderItem canRenderItem' : string -> bool)
    (worldMouseX worldMouseY worldMouseX' worldMouseY' : option Q) (nowMs nowMs' : Q)
    (hoveredPlayerIds hoveredPlayerIds' : gset string)
    (lastPositions : gmap string (option Q * option Q))
    (ySortedEntities : list Entity) :
  List.NoDup (playerIdsOf ySortedEntities) ->
  let first := Rendering.renderYSortedEntities heroImg canRenderItem worldMouseX
                 worldMouseY nowMs hoveredPlayerIds ∅ ySortedEntities in
  let frame := Rendering.renderYSortedEntities heroImg canRenderItem worldMouseX
                 worldMouseY nowMs hoveredPlayerIds lastPositions ySortedEntities in
  let again := Rendering.renderYSortedEntities heroImg' canRenderItem' worldMouseX'
                 worldMouseY' nowMs' hoveredPlayerIds' (fst frame)
                 ySortedEntities in
  Forall (fun draw => snd (fst draw) = false) (spriteDraws (snd first)) /\
  Forall (fun draw => snd (fst draw) = false) (spriteDraws (snd again)) /\
  fst again = fst frame.
Proof.
  intros Hnodup. cbv zeta.
  destruct (renderYSortedEntities_sprites heroImg canRenderItem worldMouseX
              worldMouseY nowMs hoveredPlayerIds ySortedEntities Hnodup ∅)
    as (F1 & _ & _).
  destruct (renderYSortedEntities_sprites heroImg canRenderItem worldMouseX
              worldMouseY nowMs hoveredPlayerIds ySortedEntities Hnodup lastPositions)
    as (_ & R2 & R3).
  destruct (renderYSortedEntities_sprites heroImg' canRenderItem' worldMouseX'
              worldMouseY' nowMs' hoveredPlayerIds' ySortedEntities Hnodup
              (fst (Rendering.renderYSortedEntities heroImg canRenderItem worldMouseX
                      worldMouseY nowMs hoveredPlayerIds lastPositions
                      ySortedEntities)))
    as (A1 & A2 & A3).
  cbv zeta in *.
  split; [|split].
  - rewrite F1. destruct heroImg; [|constructor].
    apply List.Forall_forall. intros draw Hdraw.
    apply in_map_iff in Hdraw. destruct Hdraw as (e & <- & _). cbn [fst snd].
    unfold isPlayerMovingSince. rewrite lookup_empty. reflexivity.
  - rewrite A1. destruct heroImg'; [|constructor].
    apply List.Forall_forall. intros draw Hdraw.
    apply in_map_iff in Hdraw. destruct Hdraw as (e & <- & He). cbn [fst snd].
    apply filter_In in He. destruct He as [He Hplayer].
    apply isPlayerMovingSince_recorded. apply R2; assumption.
  - apply map_eq. intros k.
    destruct (in_dec String.string_dec k (playerIdsOf ySortedEntities)) as [Hin|Hout].
    + unfold playerIdsOf in Hin. apply in_map_iff in Hin.
      destruct Hin as (e & <- & He). apply filter_In in He.
      destruct He as [He Hplayer].
      rewrite (A2 e He Hplayer), (R2 e He Hplayer). reflexivity.
    + apply A3. exact Hout.
Qed.

Lemma unmoved_players_drawn_idle_witness :
  Forall (fun draw => snd (fst draw) = false)
    (spriteDraws
       (snd (Rendering.renderYSortedEntities true (fun _ => false) None None 16 ∅
               (fst (Rendering.renderYSortedEntities true (fun _ => false) None None
                       0 ∅ walkersBefore walkers))
               walkers))).
Proof.
  assert (List.NoDup (playerIdsOf walkers)) as Hnodup.
  { repeat constructor; cbn; intuition discriminate. }
  exact (proj1 (proj2 (unmoved_players_drawn_idle true true (fun _ => false)
                         (fun _ => false) None None None None 0 16 ∅ ∅
                         walkersBefore walkers Hnodup))).
Defined.

(** ** Geometry of the player sprite *)

Section PlayerGeometry.
Import PlayerRendering.

(** X24.  The hit shake displaces the sprite by at most 3 px on each axis,
  for draws of [Math.random()] in the unit interval, and only for a living
  player during the 200 ms that follow its last hit: a dead player, a
  player that was never hit, a hit in the future and a hit 200 ms or more
  ago give no displacement. *)
Theorem hit_shake_is_small_and_brief (player : Entity) (lastHitTime : option Z)
  (nowMs randomX randomY : Q) :
0 <= randomX < 1 -> 0 <= randomY < 1 ->
let shake := shakeOffset player lastHitTime nowMs randomX randomY in
(- 3 <= fst shake /\ fst shake <= 3 /\ - 3 <= snd shake /\ snd shake <= 3) /\
(truthy (isDead player) = true -> shake = (0, 0)) /\
(lastHitTime = None -> shake = (0, 0)) /\
(forall micros,
    lastHitTime = Some micros ->
    nowMs < inject_Z (Z.quot micros 1000)
    \/ inject_Z (Z.quot micros 1000) + 200 <= nowMs ->
    shake = (0, 0)).
Proof.
intros [X0 X1] [Y0 Y1]. cbv zeta. unfold shakeOffset.
destruct (truthy (isDead player)); cbn [negb].
{ repeat split; try reflexivity; discriminate. }
destruct lastHitTime as [micros|].
2:{ repeat split; try reflexivity; discriminate. }
cbv zeta.
destruct (Qle_bool 0 (nowMs - inject_Z (micros ÷ 1000))) eqn:Hpast; cbn [andb].
- destruct (Qlt_bool (nowMs - inject_Z (micros ÷ 1000)) PLAYER_SHAKE_DURATION_MS)
    eqn:Hrecent.
  + apply Qle_bool_iff in Hpast. apply Qlt_bool_iff in Hrecent.
    unfold PLAYER_SHAKE_DURATION_MS in Hrecent.
    cbn [fst snd]. unfold PLAYER_SHAKE_AMOUNT_PX.
    repeat split; try lra; try discriminate.
    intros m Hm [Hfuture|Hold]; inversion Hm; subst m; exfalso; lra.
  + repeat split; try reflexivity; discriminate.
- repeat split; try reflexivity; discriminate.
Qed.

(** X25.  For a jump offset that is not negative the shadow of a player
  shrinks and fades with the height of the jump, within fixed bounds: its
  scale stays between 0.6 and 1 and its opacity between 0.2 and 0.5, so
  the clamp of the opacity at 0 never applies; on the ground the shadow
  has its full radii of 28.8 by 11.52 px and opacity 0.5, and from a jump
  height of 24 px (the player radius) its scale and opacity stay at 0.6
  and 0.2.  The shadow is centred on the player's own x and moves down by
  10/24 px per pixel of jump height. *)
Theorem shadow_shrinks_within_bounds (positionX positionY jumpOffsetY : Q) :
0 <= jumpOffsetY ->
let shadow := shadowOf positionX positionY jumpOffsetY in
let scale := shadowRadiusX shadow / 28.8 in
0.6 <= scale /\ scale <= 1 /\
shadowRadiusY shadow == shadowRadiusX shadow * 0.4 /\
0.2 <= shadowOpacity shadow /\ shadowOpacity shadow <= 0.5 /\
shadowOpacity shadow == 0.5 - (1 - scale) * 0.75 /\
(jumpOffsetY == 0 -> scale == 1 /\ shadowOpacity shadow == 0.5) /\
(24 <= jumpOffsetY -> scale == 0.6 /\ shadowOpacity shadow == 0.2) /\
shadowX shadow = positionX /\
shadowY shadow == positionY + 38.4 + jumpOffsetY * (10 / 24).
Proof.
intros Hjump. cbv zeta. unfold shadowOf.
cbn [shadowRadiusX shadowRadiusY shadowOpacity shadowX shadowY].
change Rendering.playerRadius with (48 / 2). change spriteWidth with 48.
change spriteHeight with 48.
set (progress := Qmin 1 (jumpOffsetY / (48 / 2))).
assert (0 <= progress /\ progress <= 1) as [P0 P1].
{ unfold progress. split; [|apply Q.le_min_l].
  apply Q.min_glb; [discriminate|].
  apply Qle_shift_div_l; [reflexivity | lra]. }
assert (jumpOffsetY == 0 -> progress == 0) as Pground.
{ intros Hzero. unfold progress. rewrite Hzero. reflexivity. }
assert (24 <= jumpOffsetY -> progress == 1) as Phigh.
{ intros Hhigh. unfold progress. apply Q.min_l.
  apply Qle_shift_div_l; [reflexivity|].
  apply Qle_trans with 24; [discriminate | exact Hhigh]. }
clearbody progress.
assert (Qmax 0 (0.5 - progress * 0.3) == 0.5 - progress * 0.3) as Hmax.
{ apply Q.max_r. lra. }
assert (48 * 2 * 0.3 * (1.0 - progress * 0.4) / 28.8 == 1 - progress * 0.4) as Hscale
    by field.
rewrite Hmax, Hscale.
repeat split; try lra; try reflexivity.
field.
Qed.

(** X26.  The sprite is drawn 96 by 96 px, centred on the player's position
  displaced by the shake and raised by the jump offset; the name tag that
  [renderPlayer] asks for is centred horizontally on that sprite, whatever
  the width of the name, 16 px high, with its lower edge 4 px below the
  top of the sprite box.  The shadow, in contrast, stays centred on the
  unshaken x of the player. *)
Theorem sprite_and_name_tag_are_centred
  (positionX positionY shakeX shakeY jumpOffsetY textWidth : Q) :
let '(spriteBaseX, spriteDrawY, drawWidth, drawHeight) :=
  spriteRect positionX positionY shakeX shakeY jumpOffsetY in
let '(tagX, tagY, tagWidth, tagHeight) :=
  nameTagRect spriteDrawY (spriteBaseX + drawWidth / 2) textWidth in
drawWidth = 96 /\ drawHeight = 96 /\
spriteBaseX + drawWidth / 2 == positionX + shakeX /\
spriteDrawY + drawHeight / 2 == positionY + shakeY - jumpOffsetY /\
tagX + tagWidth / 2 == positionX + shakeX /\
tagWidth == textWidth + 8 /\ tagHeight = 16 /\
tagY + tagHeight == spriteDrawY + 4 /\
shadowX (shadowOf positionX positionY jumpOffsetY) = positionX.
Proof.
unfold spriteRect, nameTagRect, shadowOf. cbn [shadowX].
change spriteWidth with 48. change spriteHeight with 48.
repeat split; try reflexivity; field.
Qed.

End PlayerGeometry.

Lemma hit_shake_is_small_and_brief_witness :
  PlayerRendering.shakeOffset (playerRow "a1" 100 100 false 0) (Some 5000000%Z) 5200
                              0.75 0.25
  = (0, 0).
Proof.
  destruct (hit_shake_is_small_and_brief (playerRow "a1" 100 100 false 0)
              (Some 5000000%Z) 5200 0.75 0.25
              ltac:(split; [discriminate | reflexivity])
              ltac:(split; [discriminate | reflexivity])) as (_ & _ & _ & Hold).
  apply (Hold 5000000%Z eq_refl). right. discriminate.
Defined.

Lemma shadow_shrinks_within_bounds_witness :
  PlayerRendering.shadowOpacity (PlayerRendering.shadowOf 100 100 40) == 0.2.
Proof.
  apply (shadow_shrinks_within_bounds 100 100 40); discriminate.
Defined.

(** ** Ground layer *)

Section GroundLayer.
Import GroundRendering.
Variable ItemDefinition : Type.
Variable itemDefinitions : gmap string ItemDefinition.
Variable nowMs : Q.

Lemma renderGroundEntity_mushroom (e : Entity) :
isMushroom e = true ->
renderGroundEntity ItemDefinition itemDefinitions nowMs e = [OpCorn e nowMs].
Proof.
intros Hm. unfold renderGroundEntity.
destruct (markedCorn e); [reflexivity|].
destruct (guards_with_exclusions_disjoint e) as (_ & _ & Hd & _).
rewrite Hm in Hd. cbn [andb] in Hd. rewrite Hd.
change (isCorn e) with (isMushroom e). rewrite Hm. reflexivity.
Qed.

Lemma renderGroundEntity_no_mushroom (e : Entity) :
Forall (fun op => isMushroomOp op = false)
       (renderGroundEntity ItemDefinition itemDefinitions nowMs e).
Proof.
unfold renderGroundEntity. change (isCorn e) with (isMushroom e).
destruct (markedCorn e); [repeat constructor|].
destruct (isDroppedItem e); [repeat constructor|].
destruct (isMushroom e); [repeat constructor|].
destruct (isCampfire e); repeat constructor.
Qed.

(** X7.  [renderGroundEntities] never calls [renderMushroom]: the corn
  guard is tested before the mushroom guard and accepts the same
  records, so every record that [isMushroom] accepts, whether or not it
  carries the mushroom mark of GameCanvas, is drawn by [renderCorn]. *)
Theorem ground_layer_never_draws_mushroom :
(forall groundItems : list Entity,
    Forall (fun op => isMushroomOp op = false)
           (renderGroundEntities ItemDefinition itemDefinitions nowMs groundItems)) /\
(forall e : Entity,
    isMushroom e = true ->
    renderGroundEntity ItemDefinition itemDefinitions nowMs e = [OpCorn e nowMs] /\
    renderGroundEntity ItemDefinition itemDefinitions nowMs
                       (GameCanvas.withEntityType "mushroom" e)
    = [OpCorn (GameCanvas.withEntityType "mushroom" e) nowMs]).
Proof.
split.
- intros groundItems. unfold renderGroundEntities.
  induction groundItems as [|e rest IH]; [constructor|].
  cbn [flat_map]. apply Forall_app_2; [apply renderGroundEntity_no_mushroom | exact IH].
- intros e Hm. split; apply renderGroundEntity_mushroom; [exact Hm|].
  exact Hm.
Qed.

(** X8.  A record that [isWoodenStorageBox], [isSleepingBag] or [isStone]
  accepts, and that is not marked as corn, gets no draw call from
  [renderGroundEntities]. *)
Theorem ground_layer_skips_placed_and_stones (e : Entity) :
markedCorn e = false ->
isWoodenStorageBox e || isSleepingBag e || isStone e = true ->
renderGroundEntity ItemDefinition itemDefinitions nowMs e = [].
Proof.
intros Hmark Hkind. unfold renderGroundEntity. rewrite Hmark.
change (isCorn e) with (isMushroom e).
assert (isDroppedItem e = false /\ isMushroom e = false /\ isCampfire e = false)
  as (-> & -> & ->); [|reflexivity].
revert Hkind.
unfold isStone, isMushroom, isDroppedItem, isCampfire, isWoodenStorageBox,
  isSleepingBag, isNumber, isBoolean, undefined.
destruct (identity e), (treeType e), (posX e), (posY e),
  (health e), (placedBy e), (itemDefId e), (isBurning e), (id e),
  (slot_instance_id_0 e); simpl; intros Hkind; repeat split;
  first [reflexivity | discriminate].
Qed.

Lemma flat_map_singletons {A B : Type} (f : A -> list B) (g : A -> B) (l : list A) :
Forall (fun a => f a = [g a]) l -> flat_map f l = map g l.
Proof.
induction 1 as [|a l Ha Hl IH]; [reflexivity|].
cbn [flat_map map]. rewrite Ha, IH. reflexivity.
Qed.

Lemma filter_Forall_sub {A : Type} (P : A -> Prop) (g : A -> bool) (l : list A) :
Forall P l -> Forall P (List.filter g l).
Proof.
rewrite !List.Forall_forall. intros H a Ha. apply filter_In in Ha.
apply H. tauto.
Qed.

(** X9.  When the mushroom, corn, dropped-item and campfire tables hold
  rows of their own kind, the ground layer of GameCanvas is drawn one call
  per visible item, in the order of the layer: the visible mushrooms and
  the visible corn by [renderCorn], the visible dropped items by
  [renderDroppedItem] with the item definition found under their
  [itemDefId] (or none), the visible campfires by [renderCampfire]. *)
Theorem canvas_ground_layer_one_draw_each (t : Tables) (b : ViewportBounds) :
groundTablesTyped t ->
renderGroundEntities ItemDefinition itemDefinitions nowMs (GameCanvas.groundItems t b)
= map (fun e => OpCorn e nowMs) (GameCanvas.visibleMushrooms t b)
  ++ map (fun e => OpCorn e nowMs) (GameCanvas.visibleCorns t b)
  ++ map (fun e => OpDroppedItem e (itemDefOf ItemDefinition itemDefinitions e))
         (GameCanvas.visibleDroppedItems t b)
  ++ map (fun e => OpCampfire (posX e) (posY e) (isBurning e))
         (GameCanvas.visibleCampfires t b).
Proof.
intros (Hm & Hc & Hd & Hf).
unfold renderGroundEntities, GameCanvas.groundItems.
rewrite !flat_map_app.
repeat f_equal; apply flat_map_singletons.
- unfold GameCanvas.visibleMushrooms. apply Forall_map.
  apply filter_Forall_sub. eapply List.Forall_impl; [|exact Hm].
  intros e He. cbv beta. apply renderGroundEntity_mushroom. exact He.
- unfold GameCanvas.visibleCorns. apply Forall_map.
  apply filter_Forall_sub. eapply List.Forall_impl; [|exact Hc].
  intros e He. cbv beta. apply renderGroundEntity_mushroom. exact He.
- unfold GameCanvas.visibleDroppedItems.
  apply filter_Forall_sub. eapply List.Forall_impl; [|exact Hd].
  intros e [He Hmark]. cbv beta. unfold renderGroundEntity.
  rewrite Hmark, He. reflexivity.
- unfold GameCanvas.visibleCampfires.
  apply filter_Forall_sub. eapply List.Forall_impl; [|exact Hf].
  intros e [He Hmark]. cbv beta. unfold renderGroundEntity.
  rewrite Hmark, He.
  destruct (guards_with_exclusions_disjoint e)
    as (_ & _ & _ & _ & _ & _ & _ & _ & _ & _ & _ & _ & Hcm & Hcd & _).
  rewrite He in Hcm, Hcd. cbn [andb] in Hcm, Hcd.
  change (isCorn e) with (isMushroom e). rewrite Hcm, Hcd. reflexivity.
Qed.

End GroundLayer.

Lemma ground_layer_skips_placed_and_stones_witness :
  GroundRendering.renderGroundEntity unit ∅ 0 sampleSleepingBag = [].
Proof.
  apply (ground_layer_skips_placed_and_stones unit ∅ 0 sampleSleepingBag);
    reflexivity.
Defined.

Lemma canvas_ground_layer_one_draw_each_witness :
  length (GroundRendering.renderGroundEntities unit ∅ 0
            (GameCanvas.groundItems campTables sampleBounds)) = 4%nat.
Proof.
  assert (GroundRendering.groundTablesTyped campTables) as Htyped.
  { repeat split; repeat constructor. }
  rewrite (canvas_ground_layer_one_draw_each unit ∅ 0 campTables sampleBounds Htyped).
  reflexivity.
Defined.

(** ** Particles that a frame creates *)

Lemma Qfloor_between (q : Q) (a b : Z) :
  inject_Z a <= q -> q < inject_Z (b + 1) -> (a <= Qfloor q)%Z /\ (Qfloor q <= b)%Z.
Proof.
  intros Ha Hb. split.
  - rewrite <- (Qfloor_Z a). apply Qfloor_resp_le. exact Ha.
  - pose proof (Qfloor_le q) as Hfl.
    assert (inject_Z (Qfloor q) < inject_Z (b + 1)) as Hlt by lra.
    rewrite <- Zlt_Qlt in Hlt. lia.
Qed.

(** [arr[Math.floor(r * arr.length)]] is an element of a non-empty array
    for every [r] of the unit interval. *)
Lemma arrayAt_in {A : Type} (arr : list A) (r : Q) :
  arr <> [] -> 0 <= r -> r < 1 ->
  exists c, CampfireParticles.arrayAt arr (r * inject_Z (Z.of_nat (length arr))) = Some c
            /\ In c arr.
Proof.
  intros Hne H0 H1.
  assert (0 < length arr)%nat as Hlen by (destruct arr; [congruence | simpl; lia]).
  remember (Z.of_nat (length arr)) as n eqn:En.
  assert (0 < inject_Z n) as Hn.
  { change 0 with (inject_Z 0). rewrite <- Zlt_Qlt. lia. }
  assert (inject_Z 0 <= r * inject_Z n) as Hlo.
  { change (inject_Z 0) with 0. apply Qmult_le_0_compat; lra. }
  assert (r * inject_Z n < inject_Z (n - 1 + 1)) as Hhi.
  { replace (n - 1 + 1)%Z with n by lia.
    assert (0 < (1 - r) * inject_Z n) by (apply Qmult_lt_0_compat; lra). lra. }
  destruct (Qfloor_between _ 0 (n - 1) Hlo Hhi) as [Hf0 Hf1].
  unfold CampfireParticles.arrayAt.
  assert ((Qfloor (r * inject_Z n) <? 0)%Z = false) as -> by (apply Z.ltb_ge; exact Hf0).
  destruct (nth_error arr (Z.to_nat (Qfloor (r * inject_Z n)))) as [c|] eqn:E.
  - exists c. split; [reflexivity|]. eapply nth_error_In. exact E.
  - apply nth_error_None in E. lia.
Qed.

Section FreshParticles.
Import CampfireParticles ParticleFacts.
Variable random : nat -> Q.
Variables CAMPFIRE_HEIGHT CAMPFIRE_RENDER_Y_OFFSET : Q.
Hypothesis random_unit : unitInterval random.

Lemma spawnFire_fresh (now cx cy : Q) (zone : Zone) :
0 < speedMultiplier zone ->
pushesOneSuch (fun p => ptype p = fire /\ freshParticle now p)
              (spawnFire random CAMPFIRE_HEIGHT now cx cy zone).
Proof.
intros Hmult [n out]. eexists. split; [|reflexivity].
split; [reflexivity|]. unfold freshParticle.
cbn [ptype spawnTime lifetime initialLifetime size color alpha vy
     lifetimeMin lifetimeMax sizeMin sizeMax palette initialAlpha].
destruct (random_unit n) as [L0 L1].
destruct (random_unit (n + 5)%nat) as [V0 V1].
destruct (random_unit (n + 6)%nat) as [S0 S1].
destruct (random_unit (n + 7)%nat) as [C0 C1].
unfold PARTICLE_FIRE_LIFETIME_MIN, PARTICLE_FIRE_LIFETIME_MAX.
repeat split; try reflexivity; try lra.
- exists (Qfloor (PARTICLE_FIRE_SIZE_MIN
                  + random (n + 6)%nat
                    * (PARTICLE_FIRE_SIZE_MAX - PARTICLE_FIRE_SIZE_MIN)) + 1)%Z.
  unfold floorQ, PARTICLE_FIRE_SIZE_MIN, PARTICLE_FIRE_SIZE_MAX.
  split; [rewrite inject_Z_plus; reflexivity|].
  destruct (Qfloor_between (2 + random (n + 6)%nat * (4 - 2)) 2 3) as [F0 F1];
    [change (inject_Z 2) with 2; lra | change (inject_Z (3 + 1)) with 4; lra |].
  lia.
- apply arrayAt_in; [discriminate | exact C0 | exact C1].
- unfold PARTICLE_FIRE_SPEED_Y_MIN, PARTICLE_FIRE_SPEED_Y_MAX.
  assert (0 < (0.60 + random (n + 5)%nat * 0.15) * speedMultiplier zone) as Hpos
      by (apply Qmult_lt_0_compat; lra).
  lra.
Qed.

Lemma spawnSmoke_fresh (now sx sy : Q) :
pushesOneSuch (fun p => ptype p = smoke /\ freshParticle now p)
              (spawnSmoke random now sx sy).
Proof.
intros [n out]. eexists. split; [|reflexivity].
split; [reflexivity|]. unfold freshParticle.
cbn [ptype spawnTime lifetime initialLifetime size color alpha vy
     lifetimeMin lifetimeMax sizeMin sizeMax palette initialAlpha].
destruct (random_unit n) as [L0 L1].
destruct (random_unit (n + 5)%nat) as [V0 V1].
destruct (random_unit (n + 6)%nat) as [S0 S1].
destruct (random_unit (n + 7)%nat) as [C0 C1].
unfold PARTICLE_SMOKE_LIFETIME_MIN, PARTICLE_SMOKE_LIFETIME_MAX,
  PARTICLE_SMOKE_SPEED_Y_MIN, PARTICLE_SMOKE_SPEED_Y_MAX.
repeat split; try reflexivity; try lra.
- exists (Qfloor (PARTICLE_SMOKE_SIZE_MIN
                  + random (n + 6)%nat
                    * (PARTICLE_SMOKE_SIZE_MAX - PARTICLE_SMOKE_SIZE_MIN)) + 1)%Z.
  unfold floorQ, PARTICLE_SMOKE_SIZE_MIN, PARTICLE_SMOKE_SIZE_MAX.
  split; [rewrite inject_Z_plus; reflexivity|].
  destruct (Qfloor_between (3 + random (n + 6)%nat * (5 - 3)) 3 4) as [F0 F1];
    [change (inject_Z 3) with 3; lra | change (inject_Z (4 + 1)) with 5; lra |].
  lia.
- apply arrayAt_in; [discriminate | exact C0 | exact C1].
Qed.

Lemma spawnSmokeBurst_fresh (now cx cy : Q) :
pushesOneSuch (fun p => ptype p = smoke_burst /\ freshParticle now p)
              (spawnSmokeBurst random now cx cy).
Proof.
intros [n out]. eexists. split; [|reflexivity].
split; [reflexivity|]. unfold freshParticle.
cbn [ptype spawnTime lifetime initialLifetime size color alpha vy
     lifetimeMin lifetimeMax sizeMin sizeMax palette initialAlpha].
destruct (random_unit n) as [L0 L1].
destruct (random_unit (n + 5)%nat) as [V0 V1].
destruct (random_unit (n + 6)%nat) as [S0 S1].
destruct (random_unit (n + 7)%nat) as [C0 C1].
unfold SMOKE_BURST_LIFETIME_MIN, SMOKE_BURST_LIFETIME_MAX,
  SMOKE_BURST_SPEED_Y_MIN, SMOKE_BURST_SPEED_Y_MAX.
repeat split; try reflexivity; try lra.
- exists (3 + Qfloor (random (n + 6)%nat
                      * (SMOKE_BURST_SIZE_MAX - SMOKE_BURST_SIZE_MIN + 1)))%Z.
  unfold floorQ, SMOKE_BURST_SIZE_MIN, SMOKE_BURST_SIZE_MAX.
  split; [rewrite inject_Z_plus; reflexivity|].
  destruct (Qfloor_between (random (n + 6)%nat * (6 - 3 + 1)) 0 3) as [F0 F1];
    [change (inject_Z 0) with 0; lra | change (inject_Z (3 + 1)) with 4; lra |].
  lia.
- apply arrayAt_in; [discriminate | exact C0 | exact C1].
Qed.


Lemma whileAtLeastOne_pushes_such (P : Particle -> Prop)
  (body : nat * list Particle -> nat * list Particle) (fuel : nat) :
pushesOneSuch P body ->
forall (acc : Q) (e : nat * list Particle),
exists added,
  snd (snd (whileAtLeastOne fuel body acc e)) = snd e ++ added /\ Forall P added.
Proof.
intros Hbody. induction fuel as [|fuel IH]; intros acc e.
- exists []. simpl. rewrite app_nil_r. auto.
- simpl. destruct (Qle_bool 1 acc).
  + destruct (Hbody e) as (p & Hp & He).
    destruct (IH (acc - 1) (body e)) as (added & H1 & H2).
    exists (p :: added). rewrite H1, He, <- app_assoc. simpl.
    split; [reflexivity | constructor; assumption].
  + exists []. simpl. rewrite app_nil_r. auto.
Qed.

Lemma fireZones_fresh (now dtf cx cy : Q) (campfireId : string) (zones : list Zone) :
Forall (fun zone => 0 < speedMultiplier zone) zones ->
forall (accs : gmap string Q) (e : nat * list Particle),
exists added,
  snd (snd (fold_left
              (fireZoneStep random CAMPFIRE_HEIGHT now dtf cx cy campfireId)
              zones (accs, e))) = snd e ++ added /\
  Forall (freshParticle now) added.
Proof.
induction 1 as [|zone rest Hzone Hrest IH]; intros accs e.
- exists []. simpl. rewrite app_nil_r. auto.
- cbn [fold_left]. unfold fireZoneStep at 2.
  destruct (whileAtLeastOne_pushes_such _ _
              (Z.to_nat (Qfloor (default 0 (accs !! fireKey campfireId zone)
                                 + emissionRate zone * dtf)))
              (spawnFire_fresh now cx cy zone Hzone)
              (default 0 (accs !! fireKey campfireId zone) + emissionRate zone * dtf)
              e) as (added1 & H1 & H2).
  fold (emitWhole (spawnFire random CAMPFIRE_HEIGHT now cx cy zone)
          (default 0 (accs !! fireKey campfireId zone) + emissionRate zone * dtf) e)
    in H1.
  destruct (emitWhole _ _ e) as [fireAcc' e'] eqn:E. cbn [snd] in H1.
  destruct (IH (<[fireKey campfireId zone := fireAcc']> accs) e')
    as (added2 & H3 & H4).
  exists (added1 ++ added2). rewrite H3, H1, <- app_assoc.
  split; [reflexivity|]. apply Forall_app_2; [|exact H4].
  eapply List.Forall_impl; [|exact H2]. intros p Hp. exact (proj2 Hp).
Qed.

Lemma zones_speed_positive :
Forall (fun zone => 0 < speedMultiplier zone) FIRE_EMISSION_ZONES.
Proof. repeat constructor. Qed.

(** Everything that the callback of one campfire pushes is fresh. *)
Lemma campfireStep_fresh (now dtf : Q) (st : EngineState) (out : list Particle)
  (campfireId : string) (campfire : Campfire) :
exists added,
  snd (campfireStep random CAMPFIRE_HEIGHT CAMPFIRE_RENDER_Y_OFFSET now dtf
         (st, out) (campfireId, campfire)) = out ++ added /\
  Forall (freshParticle now) added.
Proof.
unfold campfireStep.
destruct (lingerDecision now campfireId _ (isBurning campfire) (lingeringSmokeData st))
  as [[generateFire generateSmoke] lingering'].
set (cx := posX campfire).
set (cy := posY campfire - CAMPFIRE_HEIGHT / 2 - CAMPFIRE_RENDER_Y_OFFSET).
assert (exists addedFire,
           snd (snd (fireStep random CAMPFIRE_HEIGHT now dtf cx cy campfireId
                       generateFire (fireEmissionAccumulator st)
                       (randomCalls st, out))) = out ++ addedFire /\
           Forall (freshParticle now) addedFire) as (addedFire & F1 & F2).
{ unfold fireStep. destruct generateFire.
  - apply (fireZones_fresh now dtf cx cy campfireId FIRE_EMISSION_ZONES
             zones_speed_positive).
  - exists []. cbn [snd]. rewrite app_nil_r. auto. }
destruct (fireStep _ _ _ _ _ _ _ _ _ _) as [fireAccs' e1]. cbn [snd] in F1.
assert (exists addedSmoke,
           snd (snd (smokeStep random now dtf cx (cy + CAMPFIRE_HEIGHT * -0.00)
                       campfireId generateSmoke (smokeEmissionAccumulator st) e1))
           = snd e1 ++ addedSmoke /\
           Forall (freshParticle now) addedSmoke) as (addedSmoke & S1 & S2).
{ unfold smokeStep. destruct generateSmoke.
  - destruct (whileAtLeastOne_pushes_such _ _
                (Z.to_nat (Qfloor (default 0 (smokeEmissionAccumulator st !! campfireId)
                                   + SMOKE_PARTICLES_PER_CAMPFIRE_FRAME * dtf)))
                (spawnSmoke_fresh now cx (cy + CAMPFIRE_HEIGHT * -0.00))
                (default 0 (smokeEmissionAccumulator st !! campfireId)
                 + SMOKE_PARTICLES_PER_CAMPFIRE_FRAME * dtf) e1)
      as (added & H1 & H2).
    fold (emitWhole (spawnSmoke random now cx (cy + CAMPFIRE_HEIGHT * -0.00))
            (default 0 (smokeEmissionAccumulator st !! campfireId)
             + SMOKE_PARTICLES_PER_CAMPFIRE_FRAME * dtf) e1) in H1.
    destruct (emitWhole _ _ e1) as [acc' e']. cbn [snd] in *.
    exists added. split; [exact H1|].
    eapply List.Forall_impl; [|exact H2]. intros p Hp. exact (proj2 Hp).
  - exists []. cbn [snd]. rewrite app_nil_r. auto. }
destruct (smokeStep _ _ _ _ _ _ _ _ _) as [smokeAccs' e2]. cbn [snd] in S1.
assert (exists addedBurst,
           snd (snd (smokeBurstStep random now dtf cx cy campfireId campfire
                       (smokeBurstEmissionAccumulator st) e2))
           = snd e2 ++ addedBurst /\
           Forall (freshParticle now) addedBurst) as (addedBurst & B1 & B2).
{ unfold smokeBurstStep.
  destruct (isPlayerInHotZone campfire && isBurning campfire).
  - destruct (whileAtLeastOne_pushes_such _ _
                (Z.to_nat (Qfloor (default 0 (smokeBurstEmissionAccumulator st
                                              !! campfireId)
                                   + SMOKE_BURST_RATE * dtf)))
                (spawnSmokeBurst_fresh now cx cy)
                (default 0 (smokeBurstEmissionAccumulator st !! campfireId)
                 + SMOKE_BURST_RATE * dtf) e2)
      as (added & H1 & H2).
    fold (emitWhole (spawnSmokeBurst random now cx cy)
            (default 0 (smokeBurstEmissionAccumulator st !! campfireId)
             + SMOKE_BURST_RATE * dtf) e2) in H1.
    destruct (emitWhole _ _ e2) as [acc' e']. cbn [snd] in *.
    exists added. split; [exact H1|].
    eapply List.Forall_impl; [|exact H2]. intros p Hp. exact (proj2 Hp).
  - exists []. cbn [snd]. rewrite app_nil_r. auto. }
destruct (smokeBurstStep _ _ _ _ _ _ _ _ _) as [burstAccs' e3]. cbn [snd] in B1.
cbn [snd].
exists (addedFire ++ addedSmoke ++ addedBurst).
rewrite B1, S1, F1, <- !app_assoc.
split; [reflexivity|]. repeat apply Forall_app_2; assumption.
Qed.

Lemma campfires_fresh (now dtf : Q) (visibleCampfiresMap : JsMap Campfire) :
forall acc : EngineState * list Particle,
exists added,
  snd (fold_left (campfireStep random CAMPFIRE_HEIGHT CAMPFIRE_RENDER_Y_OFFSET
                    now dtf) visibleCampfiresMap acc) = snd acc ++ added /\
  Forall (freshParticle now) added.
Proof.
induction visibleCampfiresMap as [|[campfireId campfire] rest IH]; intros [st out].
- exists []. cbn. rewrite app_nil_r. auto.
- cbn [fold_left].
  destruct (campfireStep_fresh now dtf st out campfireId campfire)
    as (added1 & H1 & H2).
  destruct (IH (campfireStep random CAMPFIRE_HEIGHT CAMPFIRE_RENDER_Y_OFFSET now dtf
                  (st, out) (campfireId, campfire))) as (added2 & H3 & H4).
  exists (added1 ++ added2). rewrite H3, H1, <- app_assoc.
  split; [reflexivity | apply Forall_app_2; assumption].
Qed.

(** A frame that runs appends fresh particles to the aged survivors. *)
Lemma frame_appends_fresh_particles_aux (now : Q)
  (visibleCampfiresMap : JsMap Campfire) (st : EngineState) :
lastUpdateTime st < now ->
exists added,
  particles (updateParticles random CAMPFIRE_HEIGHT CAMPFIRE_RENDER_Y_OFFSET now
               visibleCampfiresMap st)
  = omap (updateParticle now ((now - lastUpdateTime st) / FRAME_MS)) (particles st)
    ++ added /\
  Forall (freshParticle now) added.
Proof.
intros Hrun. unfold updateParticles. rewrite (tick_runs now st Hrun).
destruct (campfires_fresh now ((now - lastUpdateTime st) / FRAME_MS)
            visibleCampfiresMap (st, [])) as (added & H1 & H2).
destruct (fold_left _ visibleCampfiresMap (st, [])) as [st1 newGenerated].
cbn [snd app] in H1. subst newGenerated. cbn [particles].
exists added. split; [reflexivity | exact H2].
Qed.


End FreshParticles.

Lemma steppedRandom_unit : ParticleFacts.unitInterval steppedRandom.
Proof.
  intros n. unfold steppedRandom.
  assert (0 <= Z.of_nat (n mod 10) < 10)%Z as [H0 H1].
  { pose proof (Nat.mod_upper_bound n 10). lia. }
  rewrite Zle_Qle in H0. rewrite Zlt_Qlt in H1.
  change (inject_Z 0) with 0 in H0. change (inject_Z 10) with 10 in H1.
  split.
  - apply Qle_shift_div_l; [reflexivity | lra].
  - apply Qlt_shift_div_r; [reflexivity | lra].
Qed.


(** ** Aging of a particle *)

Section Aging.
Import CampfireParticles ParticleFacts.

Lemma clamp_above (a : Q) : 0.01 < Qmax 0 (Qmin 1 a) <-> 0.01 < a.
Proof.
destruct (Q.max_spec 0 (Qmin 1 a)) as [[H0 E]|[H0 E]];
  destruct (Q.min_spec 1 a) as [[H1 E']|[H1 E']];
  rewrite E; rewrite E' in *; split; intros H; lra.
Qed.

Lemma clamp_at_most_one (a : Q) : Qmax 0 (Qmin 1 a) <= 1.
Proof.
apply Q.max_lub; [discriminate|]. apply Q.le_min_l.
Qed.

(** The life ratio of a particle with lifetime left. *)
Lemma lifeRatio_above (remaining initial threshold : Q) :
0 < initial -> 0 <= threshold ->
(threshold < Qmax 0 (remaining / initial) <-> threshold * initial < remaining).
Proof.
intros Hinit Hth.
assert (remaining == remaining / initial * initial) as Hrem
    by (field; intros E; rewrite E in Hinit; discriminate).
split; intros H.
- destruct (Q.max_spec 0 (remaining / initial)) as [[_ E]|[_ E]]; rewrite E in H.
  + rewrite Hrem. apply Qmult_lt_compat_r; assumption.
  + exfalso. lra.
- apply Qlt_le_trans with (remaining / initial); [|apply Q.le_max_r].
  apply Qlt_shift_div_l; assumption.
Qed.


Lemma updateParticle_Some (now dtf : Q) (p p' : Particle) :
updateParticle now dtf p = Some p' ->
0 < initialLifetime p - (now - spawnTime p) /\
0.01 < alpha p' /\ alpha p' <= 1 /\
lifetime p' = initialLifetime p - (now - spawnTime p) /\
ptype p' = ptype p /\ spawnTime p' = spawnTime p /\
initialLifetime p' = initialLifetime p /\ color p' = color p /\
vx p' = vx p /\ vy p' = vy p /\ x p' = x p + vx p * dtf /\
size p' = (match ptype p with
           | smoke => Qmin (size p + PARTICLE_SMOKE_GROWTH_RATE * dtf)
                           PARTICLE_SMOKE_SIZE_MAX
           | _ => size p
           end) /\
y p' = y p + (match ptype p with
              | smoke => vy p - 0.003 * dtf
              | fire => vy p
              | smoke_burst => vy p - 0.0015 * dtf
              end) * dtf.
Proof.
unfold updateParticle.
destruct (Qle_bool (initialLifetime p - (now - spawnTime p)) 0) eqn:Hrem;
  [discriminate|].
apply Qle_bool_false_iff in Hrem.
destruct (ptype p) eqn:Hkind; cbn beta iota zeta;
  match goal with
  | |- (if Qgt_bool ?a _ then _ else _) = _ -> _ =>
      destruct (Qgt_bool a 0.01) eqn:Halpha; [|discriminate]
  end;
  intros Hsome; inversion Hsome; subst p';
  cbn [alpha lifetime ptype spawnTime initialLifetime color vx vy x y size] in *;
  apply Qgt_bool_iff in Halpha;
  (repeat split; try reflexivity; try assumption; apply clamp_at_most_one).
Qed.

(** X11.  The compaction loop removes a particle with a positive initial
  lifetime exactly when it is old enough for its type: smoke and smoke
  bursts, whose alpha never falls below 0.05, stay until their age
  reaches their initial lifetime; a fire particle, whose alpha is its
  life ratio, goes when not more than one hundredth of its lifetime is
  left. *)
Theorem aging_removes_by_type (now dtf : Q) (p : Particle) :
0 < initialLifetime p ->
(updateParticle now dtf p = None <->
 match ptype p with
 | fire => 0.99 * initialLifetime p <= now - spawnTime p
 | smoke | smoke_burst => initialLifetime p <= now - spawnTime p
 end).
Proof.
intros Hinit. unfold updateParticle.
destruct (Qle_bool (initialLifetime p - (now - spawnTime p)) 0) eqn:Hrem.
- apply Qle_bool_iff in Hrem.
  split; [intros _ | reflexivity].
  destruct (ptype p); lra.
- apply Qle_bool_false_iff in Hrem.
  pose proof (Q.le_max_l 0 ((initialLifetime p - (now - spawnTime p))
                            / initialLifetime p)) as Hratio.
  destruct (ptype p) eqn:Hkind; cbn beta iota zeta;
    match goal with
    | |- (if Qgt_bool ?a _ then _ else _) = _ <-> _ =>
        destruct (Qgt_bool a 0.01) eqn:Halpha
    end; cbn [alpha] in Halpha.
  + apply Qgt_bool_iff in Halpha. apply (proj1 (clamp_above _)) in Halpha.
    apply (proj1 (lifeRatio_above _ _ 0.01 Hinit ltac:(discriminate))) in Halpha.
    split; [discriminate|]. intros H. exfalso. lra.
  + unfold Qgt_bool in Halpha. apply Qlt_bool_false_iff in Halpha.
    split; [intros _ | reflexivity].
    destruct (Qlt_le_dec (0.01 * initialLifetime p)
                         (initialLifetime p - (now - spawnTime p))) as [Hgt|Hle];
      [|lra].
    apply (proj2 (lifeRatio_above _ _ 0.01 Hinit ltac:(discriminate))) in Hgt.
    apply (proj2 (clamp_above _)) in Hgt. exfalso. lra.
  + split; [discriminate|]. intros H. exfalso. lra.
  + unfold Qgt_bool in Halpha. apply Qlt_bool_false_iff in Halpha.
    exfalso.
    assert (0.01 < SMOKE_TARGET_ALPHA
                   + (SMOKE_INITIAL_ALPHA - SMOKE_TARGET_ALPHA)
                     * Qmax 0 ((initialLifetime p - (now - spawnTime p))
                               / initialLifetime p)) as Hgt.
    { unfold SMOKE_TARGET_ALPHA, SMOKE_INITIAL_ALPHA.
      assert (0 <= (0.6 - 0.05)
                   * Qmax 0 ((initialLifetime p - (now - spawnTime p))
                             / initialLifetime p))
        by (apply Qmult_le_0_compat; [discriminate | exact Hratio]).
      lra. }
    apply (proj2 (clamp_above _)) in Hgt. lra.
  + split; [discriminate|]. intros H. exfalso. lra.
  + unfold Qgt_bool in Halpha. apply Qlt_bool_false_iff in Halpha.
    exfalso.
    assert (0.01 < SMOKE_TARGET_ALPHA
                   + (SMOKE_INITIAL_ALPHA + 0.4 - SMOKE_TARGET_ALPHA)
                     * Qmax 0 ((initialLifetime p - (now - spawnTime p))
                               / initialLifetime p)) as Hgt.
    { unfold SMOKE_TARGET_ALPHA, SMOKE_INITIAL_ALPHA.
      assert (0 <= (0.6 + 0.4 - 0.05)
                   * Qmax 0 ((initialLifetime p - (now - spawnTime p))
                             / initialLifetime p))
        by (apply Qmult_le_0_compat; [discriminate | exact Hratio]).
      lra. }
    apply (proj2 (clamp_above _)) in Hgt. lra.
Qed.

(** X12.  A particle that the compaction loop keeps is still visible
  (alpha above 0.01 and at most 1) and has lifetime left, the lifetime
  being what remains of its initial lifetime at the frame's clock value.
  Its type, its birth time, its initial lifetime, its colour and its
  velocity are unchanged: the upward drift of smoke displaces the particle
  in this frame without being stored in [vy].  Smoke never grows beyond
  the maximal smoke size, and fire and smoke bursts keep their size. *)
Theorem aging_keeps_live_particles (now dtf : Q) (p p' : Particle) :
updateParticle now dtf p = Some p' ->
liveParticle p' /\
lifetime p' = initialLifetime p - (now - spawnTime p) /\
ptype p' = ptype p /\ spawnTime p' = spawnTime p /\
initialLifetime p' = initialLifetime p /\ color p' = color p /\
vx p' = vx p /\ vy p' = vy p /\
x p' = x p + vx p * dtf /\
(ptype p = smoke -> size p' <= PARTICLE_SMOKE_SIZE_MAX) /\
(ptype p <> smoke -> size p' = size p).
Proof.
intros Hsome.
destruct (updateParticle_Some now dtf p p' Hsome)
  as (Hrem & A0 & A1 & Hlife & Hk & Hs & Hi & Hc & Hvx & Hvy & Hx & Hsize & _).
unfold liveParticle. rewrite Hlife.
repeat split; try assumption.
- intros Hsmoke. rewrite Hsize, Hsmoke. apply Q.le_min_r.
- intros Hother. rewrite Hsize. destruct (ptype p); [reflexivity | | reflexivity].
  exfalso. apply Hother. reflexivity.
Qed.

End Aging.

Lemma aging_removes_by_type_witness :
  CampfireParticles.updateParticle 198 1 dyingFlame = None.
Proof.
  apply (aging_removes_by_type 198 1 dyingFlame); [reflexivity | discriminate].
Defined.

Lemma aging_keeps_live_particles_witness :
  match CampfireParticles.updateParticle 100 1 youngSmoke with
  | Some p' => ParticleFacts.liveParticle p'
  | None => False
  end.
Proof.
  destruct (CampfireParticles.updateParticle 100 1 youngSmoke) as [p'|] eqn:E.
  - exact (proj1 (aging_keeps_live_particles 100 1 youngSmoke p' E)).
  - vm_compute in E. discriminate.
Defined.

(** ** Frames of the particle loop *)

Section Frames.
Import CampfireParticles ParticleFacts.
Variable random : nat -> Q.
Variables CAMPFIRE_HEIGHT CAMPFIRE_RENDER_Y_OFFSET : Q.

Lemma fresh_is_live (now : Q) (p : Particle) : freshParticle now p -> liveParticle p.
Proof.
intros (_ & Hlife & Hmin & _ & _ & _ & Halpha & _).
unfold liveParticle. rewrite Halpha, Hlife.
destruct (ptype p); cbn [initialAlpha lifetimeMin] in *;
  unfold SMOKE_INITIAL_ALPHA, SMOKE_BURST_INITIAL_ALPHA, PARTICLE_FIRE_LIFETIME_MIN,
    PARTICLE_SMOKE_LIFETIME_MIN, SMOKE_BURST_LIFETIME_MIN in *;
  repeat split; try reflexivity; try discriminate; lra.
Qed.

Lemma compaction_keeps_live (now dtf : Q) (ps : list Particle) :
Forall liveParticle (omap (updateParticle now dtf) ps).
Proof.
induction ps as [|p ps IH]; [constructor|].
cbn [omap list_omap]. destruct (updateParticle now dtf p) as [p'|] eqn:E;
  [|exact IH].
constructor; [|exact IH].
destruct (updateParticle_Some now dtf p p' E) as (Hrem & A0 & A1 & Hlife & _).
unfold liveParticle. rewrite Hlife. auto.
Qed.

Lemma updateParticles_live (now : Q) (visibleCampfiresMap : JsMap Campfire)
  (st : EngineState) :
unitInterval random ->
Forall liveParticle (particles st) ->
Forall liveParticle
       (particles (updateParticles random CAMPFIRE_HEIGHT CAMPFIRE_RENDER_Y_OFFSET
                     now visibleCampfiresMap st)).
Proof.
intros Hunit Hold.
destruct (Qlt_le_dec (lastUpdateTime st) now) as [Hrun|Hskip].
- destruct (frame_appends_fresh_particles_aux random CAMPFIRE_HEIGHT
              CAMPFIRE_RENDER_Y_OFFSET Hunit now visibleCampfiresMap st Hrun)
    as (added & -> & Hfresh).
  apply Forall_app_2; [apply compaction_keeps_live|].
  eapply List.Forall_impl; [|exact Hfresh]. intros p. apply fresh_is_live.
- destruct (updateParticles_skipped random CAMPFIRE_HEIGHT CAMPFIRE_RENDER_Y_OFFSET
              now visibleCampfiresMap st Hskip) as (_ & _ & _ & -> & _).
  exact Hold.
Qed.

(** X13.  Over any run of animation frames, with [Math.random()] in the
  unit interval, the particle list that the hook hands to the renderer
  holds live particles only: each has an alpha above 0.01 and at most 1
  and a positive remaining lifetime.  (The list is empty when the loop
  starts.) *)
Theorem returned_particles_are_live (frames : list (Q * JsMap Campfire))
  (st : EngineState) :
unitInterval random ->
Forall liveParticle (particles st) ->
Forall liveParticle
       (particles (runFrames random CAMPFIRE_HEIGHT CAMPFIRE_RENDER_Y_OFFSET
                     frames st)).
Proof.
intros Hunit. revert st.
induction frames as [|[now visibleCampfiresMap] rest IH]; intros st Hold;
  [exact Hold|].
cbn [runFrames]. apply IH. apply updateParticles_live; assumption.
Qed.

(** X15.  A frame whose clock value is not after the last update only
  moves [lastUpdateTimeRef]: no particle is aged, removed or created, no
  ref is touched and no random number is drawn.  Hence running a frame a
  second time at the same clock value, with whatever campfires, changes
  nothing. *)
Theorem frame_without_elapsed_time (now : Q)
  (visibleCampfiresMap visibleCampfiresMap' : JsMap Campfire) (st : EngineState) :
(now <= lastUpdateTime st ->
 updateParticles random CAMPFIRE_HEIGHT CAMPFIRE_RENDER_Y_OFFSET now
   visibleCampfiresMap st
 = {| particles := particles st;
      fireEmissionAccumulator := fireEmissionAccumulator st;
      smokeEmissionAccumulator := smokeEmissionAccumulator st;
      smokeBurstEmissionAccumulator := smokeBurstEmissionAccumulator st;
      prevBurningStates := prevBurningStates st;
      lingeringSmokeData := lingeringSmokeData st;
      lastUpdateTime := now;
      randomCalls := randomCalls st |}) /\
updateParticles random CAMPFIRE_HEIGHT CAMPFIRE_RENDER_Y_OFFSET now
  visibleCampfiresMap'
  (updateParticles random CAMPFIRE_HEIGHT CAMPFIRE_RENDER_Y_OFFSET now
     visibleCampfiresMap st)
= updateParticles random CAMPFIRE_HEIGHT CAMPFIRE_RENDER_Y_OFFSET now
    visibleCampfiresMap st.
Proof.
split.
- intros Hskip. unfold updateParticles. rewrite (tick_skips now st Hskip).
  reflexivity.
- assert (lastUpdateTime
            (updateParticles random CAMPFIRE_HEIGHT CAMPFIRE_RENDER_Y_OFFSET now
               visibleCampfiresMap st) = now) as Hclock.
  { unfold updateParticles. destruct (Qle_bool _ 0); [reflexivity|].
    destruct (fold_left _ visibleCampfiresMap (st, [])) as [st1 newGenerated].
    reflexivity. }
  destruct (updateParticles random CAMPFIRE_HEIGHT CAMPFIRE_RENDER_Y_OFFSET now
              visibleCampfiresMap st) as [ps fa sa ba prev ling last calls].
  cbn [lastUpdateTime] in Hclock. subst last.
  unfold updateParticles. cbn [lastUpdateTime].
  assert (Qle_bool (now - now) 0 = true) as ->
      by (apply Qle_bool_iff; lra).
  reflexivity.
Qed.

End Frames.

Lemma returned_particles_are_live_witness :
  Forall ParticleFacts.liveParticle
    (CampfireParticles.particles
       (CampfireParticles.runFrames steppedRandom 64 10 quietFrames
          (CampfireParticles.initialState 0))).
Proof.
  apply (returned_particles_are_live steppedRandom 64 10 quietFrames
           (CampfireParticles.initialState 0) steppedRandom_unit).
  constructor.
Defined.

(** ** The refs follow the visible campfires *)

(** Set equalities and inclusions that hold element by element. *)
Ltac by_elements :=
  first [apply set_eq | apply elem_of_subseteq]; intros ?;
  repeat (rewrite elem_of_union || rewrite elem_of_difference
          || rewrite elem_of_singleton || rewrite elem_of_empty);
  tauto.

Section Refs.
Import CampfireParticles ParticleFacts.
Variable random : nat -> Q.
Variables CAMPFIRE_HEIGHT CAMPFIRE_RENDER_Y_OFFSET : Q.

Lemma campfireStep_burst_keys (now dtf : Q) (st : EngineState) (out : list Particle)
  (campfireId : string) (campfire : Campfire) :
dom (smokeBurstEmissionAccumulator
       (fst (campfireStep random CAMPFIRE_HEIGHT CAMPFIRE_RENDER_Y_OFFSET now dtf
               (st, out) (campfireId, campfire))))
= {[campfireId]} ∪ dom (smokeBurstEmissionAccumulator st).
Proof.
unfold campfireStep.
destruct (lingerDecision now campfireId _ (isBurning campfire) (lingeringSmokeData st))
  as [[generateFire generateSmoke] lingering'].
destruct (fireStep _ _ _ _ _ _ _ _ _ _) as [fireAccs' e1].
destruct (smokeStep _ _ _ _ _ _ _ _ _) as [smokeAccs' e2].
unfold smokeBurstStep.
destruct (isPlayerInHotZone campfire && isBurning campfire).
- destruct (emitWhole _ _ e2) as [burstAcc' e3].
  cbn [fst smokeBurstEmissionAccumulator]. apply dom_insert_L.
- cbn [fst smokeBurstEmissionAccumulator]. apply dom_insert_L.
Qed.

Lemma lingerDecision_keys (now : Q) (campfireId : string)
  (wasBurning isCurrentlyBurning : bool) (lingering : gmap string Q) :
dom (snd (lingerDecision now campfireId wasBurning isCurrentlyBurning lingering))
⊆ {[campfireId]} ∪ dom lingering.
Proof.
unfold lingerDecision.
destruct isCurrentlyBurning, wasBurning; cbn [snd];
  repeat match goal with
         | |- context [match ?o with Some _ => _ | None => _ end] =>
             destruct o; cbn [snd]
         | |- context [if ?c then _ else _] => destruct c; cbn [snd]
         end;
  rewrite ?dom_delete_L, ?dom_insert_L; by_elements.
Qed.

(** The keys of the refs after the callback of one campfire. *)
Lemma campfireStep_keys (now dtf : Q) (st : EngineState) (out : list Particle)
  (campfireId : string) (campfire : Campfire) :
let st' := fst (campfireStep random CAMPFIRE_HEIGHT CAMPFIRE_RENDER_Y_OFFSET now dtf
                  (st, out) (campfireId, campfire)) in
dom (prevBurningStates st') = {[campfireId]} ∪ dom (prevBurningStates st) /\
dom (smokeBurstEmissionAccumulator st')
= {[campfireId]} ∪ dom (smokeBurstEmissionAccumulator st) /\
dom (smokeEmissionAccumulator st')
= {[campfireId]} ∪ dom (smokeEmissionAccumulator st) /\
dom (lingeringSmokeData st') ⊆ {[campfireId]} ∪ dom (lingeringSmokeData st).
Proof.
cbv zeta.
destruct (campfireStep_spec random CAMPFIRE_HEIGHT CAMPFIRE_RENDER_Y_OFFSET now dtf
            st out campfireId campfire) as (_ & _ & C3 & C4 & C5 & _).
rewrite C3, C4, C5, campfireStep_burst_keys, !dom_insert_L.
repeat split. apply lingerDecision_keys.
Qed.

Lemma campfires_keys (now dtf : Q) (visibleCampfiresMap : JsMap Campfire) :
forall acc : EngineState * list Particle,
let st' := fst (fold_left (campfireStep random CAMPFIRE_HEIGHT
                             CAMPFIRE_RENDER_Y_OFFSET now dtf)
                          visibleCampfiresMap acc) in
dom (prevBurningStates st')
= visibleIds visibleCampfiresMap ∪ dom (prevBurningStates (fst acc)) /\
dom (smokeBurstEmissionAccumulator st')
= visibleIds visibleCampfiresMap ∪ dom (smokeBurstEmissionAccumulator (fst acc)) /\
dom (smokeEmissionAccumulator st')
= visibleIds visibleCampfiresMap ∪ dom (smokeEmissionAccumulator (fst acc)) /\
dom (lingeringSmokeData st')
⊆ visibleIds visibleCampfiresMap ∪ dom (lingeringSmokeData (fst acc)).
Proof.
unfold visibleIds.
induction visibleCampfiresMap as [|[campfireId campfire] rest IH]; intros [st out].
- cbn [fold_left map list_to_set fst]. repeat split; by_elements.
- cbn [fold_left map fst list_to_set].
  destruct (campfireStep_keys now dtf st out campfireId campfire)
    as (K1 & K2 & K3 & K4).
  specialize (IH (campfireStep random CAMPFIRE_HEIGHT CAMPFIRE_RENDER_Y_OFFSET now dtf
                    (st, out) (campfireId, campfire))).
  cbv zeta in IH. destruct IH as (I1 & I2 & I3 & I4).
  cbv zeta. rewrite I1, I2, I3, K1, K2, K3.
  repeat split; try by_elements.
  apply elem_of_subseteq. intros k Hk. apply I4 in Hk.
  rewrite elem_of_union in Hk. destruct Hk as [Hk|Hk].
  + rewrite !elem_of_union. tauto.
  + apply K4 in Hk. revert Hk. rewrite !elem_of_union. tauto.
Qed.

Lemma cleanupRefs_keys (visible : gset string) (st : EngineState) :
visible ⊆ dom (prevBurningStates st) ->
visible ⊆ dom (smokeBurstEmissionAccumulator st) ->
visible ⊆ dom (smokeEmissionAccumulator st) ->
dom (prevBurningStates (cleanupRefs visible st)) = visible /\
dom (smokeBurstEmissionAccumulator (cleanupRefs visible st)) = visible /\
dom (lingeringSmokeData (cleanupRefs visible st)) ⊆ visible /\
(dom (smokeEmissionAccumulator st) ⊆ dom (prevBurningStates st) ->
 dom (smokeEmissionAccumulator (cleanupRefs visible st)) = visible).
Proof.
intros Hprev Hburst Hsmoke. unfold cleanupRefs.
cbn [prevBurningStates smokeBurstEmissionAccumulator lingeringSmokeData
     smokeEmissionAccumulator].
split; [|split; [|split]].
- apply dom_filter_L. intros k. cbn [fst]. split.
  + intros Hk. destruct (proj1 (elem_of_dom _ _) (Hprev k Hk)) as [v Hv].
    exists v. split; [exact Hv | rewrite elem_of_difference; tauto].
  + intros (v & Hv & Hnot).
    destruct (decide (k ∈ visible)) as [Hin|Hout]; [exact Hin|].
    exfalso. apply Hnot. apply elem_of_difference.
    split; [apply elem_of_dom; eauto | exact Hout].
- apply dom_filter_L. intros k. cbn [fst]. split.
  + intros Hk. destruct (proj1 (elem_of_dom _ _) (Hburst k Hk)) as [v Hv].
    exists v. split; [|exact Hk].
    apply map_lookup_filter_Some. split; [exact Hv|].
    cbn [fst]. rewrite elem_of_difference. tauto.
  + intros (v & _ & Hk). exact Hk.
- intros k Hk. apply elem_of_dom in Hk. destruct Hk as [v Hv].
  apply map_lookup_filter_Some in Hv. exact (proj2 Hv).
- intros Hinv. apply dom_filter_L. intros k. cbn [fst]. split.
  + intros Hk. destruct (proj1 (elem_of_dom _ _) (Hsmoke k Hk)) as [v Hv].
    exists v. split; [exact Hv | rewrite elem_of_difference; tauto].
  + intros (v & Hv & Hnot).
    destruct (decide (k ∈ visible)) as [Hin|Hout]; [exact Hin|].
    exfalso. apply Hnot. apply elem_of_difference. split; [|exact Hout].
    apply Hinv. apply elem_of_dom. eauto.
Qed.

(** X14.  After a frame that runs, the refs record the visible campfires
  and nothing else: [prevBurningStatesRef] and the smoke-burst
  accumulators have an entry for exactly the visible campfire ids, the
  linger records belong to visible campfires, and so do the smoke
  accumulators provided that before the frame every smoke accumulator
  belonged to a campfire with a recorded burning state (which holds when
  the loop starts and, by this very statement, after every frame that
  runs). *)
Theorem refs_follow_visible_campfires (now : Q)
  (visibleCampfiresMap : JsMap Campfire) (st : EngineState) :
lastUpdateTime st < now ->
let st' := updateParticles random CAMPFIRE_HEIGHT CAMPFIRE_RENDER_Y_OFFSET now
             visibleCampfiresMap st in
dom (prevBurningStates st') = visibleIds visibleCampfiresMap /\
dom (smokeBurstEmissionAccumulator st') = visibleIds visibleCampfiresMap /\
dom (lingeringSmokeData st') ⊆ visibleIds visibleCampfiresMap /\
(dom (smokeEmissionAccumulator st) ⊆ dom (prevBurningStates st) ->
 dom (smokeEmissionAccumulator st') = visibleIds visibleCampfiresMap).
Proof.
intros Hrun. cbv zeta. unfold updateParticles. rewrite (tick_runs now st Hrun).
destruct (campfires_keys now ((now - lastUpdateTime st) / FRAME_MS)
            visibleCampfiresMap (st, [])) as (K1 & K2 & K3 & K4).
destruct (fold_left _ visibleCampfiresMap (st, [])) as [st1 newGenerated].
cbn [fst] in K1, K2, K3, K4.
cbn [prevBurningStates smokeBurstEmissionAccumulator lingeringSmokeData
     smokeEmissionAccumulator].
fold (visibleIds visibleCampfiresMap).
destruct (cleanupRefs_keys (visibleIds visibleCampfiresMap) st1)
  as (C1 & C2 & C3 & C4);
  [rewrite K1; by_elements | rewrite K2; by_elements | rewrite K3; by_elements |].
repeat split; try assumption.
intros Hinv. apply C4. rewrite K1, K3.
apply elem_of_subseteq. intros k. rewrite !elem_of_union.
intros [Hk|Hk]; [left; exact Hk | right; apply Hinv; exact Hk].
Qed.

End Refs.

Lemma refs_follow_visible_campfires_witness :
  dom (CampfireParticles.prevBurningStates
         (CampfireParticles.updateParticles sampleRandom 64 10 100
            [("2"%string, quietCampfire)] burningState))
  = ParticleFacts.visibleIds [("2"%string, quietCampfire)].
Proof.
  exact (proj1 (refs_follow_visible_campfires sampleRandom 64 10 100
                  [("2"%string, quietCampfire)] burningState eq_refl)).
Defined.

(** ** Emission of a burning campfire *)

Lemma append_inj_l (s a b : string) : (s ++ a = s ++ b)%string -> a = b.
Proof.
  induction s as [|c s IH]; cbn; intros H; [exact H|].
  inversion H. apply IH. assumption.
Qed.

Section Emission.
Import CampfireParticles ParticleFacts.
Variable random : nat -> Q.
Variables CAMPFIRE_HEIGHT CAMPFIRE_RENDER_Y_OFFSET : Q.

Lemma fireKey_inj (campfireId : string) (zone zone' : Zone) :
fireKey campfireId zone = fireKey campfireId zone' -> name zone = name zone'.
Proof.
unfold fireKey. intros H. apply append_inj_l in H.
apply (append_inj_l "_") in H. exact H.
Qed.

(** The zones integrate their accumulators independently. *)
Lemma fireZones_count (now dtf cx cy : Q) (campfireId : string) (zones : list Zone) :
List.NoDup (map name zones) ->
forall (accs : gmap string Q) (e : nat * list Particle),
exists added,
  snd (snd (fold_left
              (fireZoneStep random CAMPFIRE_HEIGHT now dtf cx cy campfireId)
              zones (accs, e))) = snd e ++ added /\
  Forall (fun p => ptype p = fire) added /\
  length added
  = list_sum (map (fun zone => emitted (emissionRate zone) dtf
                                       (accs !! fireKey campfireId zone)) zones).
Proof.
induction zones as [|zone rest IH]; intros Hnodup accs e.
- exists []. cbn. rewrite app_nil_r. auto.
- cbn [map] in Hnodup. apply List.NoDup_cons_iff in Hnodup.
  destruct Hnodup as [Hfresh Hnodup].
  cbn [fold_left]. unfold fireZoneStep at 2.
  destruct (emitWhole_pushes fire
              (spawnFire random CAMPFIRE_HEIGHT now cx cy zone)
              (default 0 (accs !! fireKey campfireId zone)
               + emissionRate zone * dtf) e
              (spawnFire_pushes random CAMPFIRE_HEIGHT now cx cy zone))
    as (_ & added1 & H1 & H2 & H3).
  destruct (emitWhole _ _ e) as [fireAcc' e'] eqn:E. cbn [snd] in H1.
  destruct (IH Hnodup (<[fireKey campfireId zone := fireAcc']> accs) e')
    as (added2 & H4 & H5 & H6).
  exists (added1 ++ added2). rewrite H4, H1, <- app_assoc.
  split; [reflexivity|]. split; [apply Forall_app_2; assumption|].
  rewrite length_app, H3, H6.
  assert (map (fun zone' => emitted (emissionRate zone') dtf
                              (<[fireKey campfireId zone := fireAcc']> accs
                               !! fireKey campfireId zone')) rest
          = map (fun zone' => emitted (emissionRate zone') dtf
                                (accs !! fireKey campfireId zone')) rest) as ->.
  { apply map_ext_in. intros zone' Hzone'.
    rewrite lookup_insert_ne; [reflexivity|].
    intros Hkey. apply fireKey_inj in Hkey. apply Hfresh. rewrite Hkey.
    apply in_map. exact Hzone'. }
  reflexivity.
Qed.

Lemma zone_names_distinct : List.NoDup (map name FIRE_EMISSION_ZONES).
Proof. repeat constructor; cbn; intuition discriminate. Qed.

Lemma smokeBurstStep_count (now dtf cx cy : Q) (campfireId : string)
  (campfire : Campfire) (accs : gmap string Q) (e : nat * list Particle) :
exists added,
  snd (snd (smokeBurstStep random now dtf cx cy campfireId campfire accs e))
  = snd e ++ added /\
  Forall (fun p => ptype p = smoke_burst) added /\
  length added = (if isPlayerInHotZone campfire && isBurning campfire
                  then emitted SMOKE_BURST_RATE dtf (accs !! campfireId)
                  else O).
Proof.
unfold smokeBurstStep.
destruct (isPlayerInHotZone campfire && isBurning campfire).
- destruct (emitWhole_pushes smoke_burst (spawnSmokeBurst random now cx cy)
              (default 0 (accs !! campfireId) + SMOKE_BURST_RATE * dtf) e
              (spawnSmokeBurst_pushes random now cx cy))
    as (_ & added & H1 & H2 & H3).
  destruct (emitWhole _ _ e) as [acc' e']. cbn [snd] in *.
  exists added. auto.
- exists []. cbn [snd]. rewrite app_nil_r. auto.
Qed.

(** X16.  The callback of a burning campfire appends, in this order, its
  fire particles, its smoke particles and its smoke-burst particles.  Each
  of the three fire zones integrates its own accumulator at its own rate
  (0.4, 0.3 and 0.15 per 60 fps frame), so the fire particles number the
  sum of what the three zones take out; the smoke particles number what
  the smoke accumulator takes out at rate 0.3; the smoke-burst particles
  number what the burst accumulator takes out at rate 4 when a player is
  in the hot zone, and none otherwise. *)
Theorem burning_campfire_emission (now dtf : Q) (st : EngineState)
  (out : list Particle) (campfireId : string) (campfire : Campfire) :
isBurning campfire = true ->
exists addedFire addedSmoke addedBurst,
  snd (campfireStep random CAMPFIRE_HEIGHT CAMPFIRE_RENDER_Y_OFFSET now dtf
         (st, out) (campfireId, campfire))
  = out ++ addedFire ++ addedSmoke ++ addedBurst /\
  Forall (fun p => ptype p = fire) addedFire /\
  length addedFire
  = list_sum (map (fun zone =>
                     emitted (emissionRate zone) dtf
                             (fireEmissionAccumulator st !! fireKey campfireId zone))
                  FIRE_EMISSION_ZONES) /\
  Forall (fun p => ptype p = smoke) addedSmoke /\
  length addedSmoke
  = emitted SMOKE_PARTICLES_PER_CAMPFIRE_FRAME dtf
            (smokeEmissionAccumulator st !! campfireId) /\
  Forall (fun p => ptype p = smoke_burst) addedBurst /\
  length addedBurst
  = (if isPlayerInHotZone campfire
     then emitted SMOKE_BURST_RATE dtf
                  (smokeBurstEmissionAccumulator st !! campfireId)
     else O).
Proof.
intros Hon. unfold campfireStep. rewrite Hon.
rewrite (lingerDecision_burning now campfireId _ (lingeringSmokeData st)).
set (cx := posX campfire).
set (cy := posY campfire - CAMPFIRE_HEIGHT / 2 - CAMPFIRE_RENDER_Y_OFFSET).
unfold fireStep.
destruct (fireZones_count now dtf cx cy campfireId FIRE_EMISSION_ZONES
            zone_names_distinct (fireEmissionAccumulator st) (randomCalls st, out))
  as (addedFire & F1 & F2 & F3).
destruct (fold_left _ FIRE_EMISSION_ZONES _) as [fireAccs' e1]. cbn [snd] in F1.
destruct (smokeStep_spec random now dtf cx (cy + CAMPFIRE_HEIGHT * -0.00) campfireId
            true (smokeEmissionAccumulator st) e1)
  as (_ & addedSmoke & S1 & S2 & S3).
destruct (smokeStep _ _ _ _ _ _ _ _ _) as [smokeAccs' e2]. cbn [snd] in S1.
destruct (smokeBurstStep_count now dtf cx cy campfireId campfire
            (smokeBurstEmissionAccumulator st) e2)
  as (addedBurst & B1 & B2 & B3).
destruct (smokeBurstStep _ _ _ _ _ _ _ _ _) as [burstAccs' e3]. cbn [snd] in B1.
cbn [snd].
exists addedFire, addedSmoke, addedBurst.
rewrite B1, S1, F1, <- !app_assoc.
rewrite Hon, andb_true_r in B3.
repeat split; assumption.
Qed.

End Emission.

Lemma burning_campfire_emission_witness :
  exists addedFire addedSmoke addedBurst,
    snd (CampfireParticles.campfireStep sampleRandom 64 10 100 6
           (CampfireParticles.initialState 0, []) ("1"%string, hotCampfire))
    = [] ++ addedFire ++ addedSmoke ++ addedBurst /\
    length addedFire = 3%nat /\ length addedSmoke = 1%nat /\
    length addedBurst = 24%nat.
Proof.
  destruct (burning_campfire_emission sampleRandom 64 10 100 6
              (CampfireParticles.initialState 0) [] "1" hotCampfire eq_refl)
    as (addedFire & addedSmoke & addedBurst & E & _ & F & _ & S & _ & B).
  exists addedFire, addedSmoke, addedBurst.
  split; [exact E|]. rewrite F, S, B. repeat split; vm_compute; reflexivity.
Defined.

(** ** Tile assets *)

Section TileAssetFacts.
Import TileAssets.
Variable assetPaths : AssetPaths.
Variable numberToString : Q -> string.

(** The six tile types, by name. *)
Lemma lookup_own (tileTypeName : string) :
lookupTileAsset assetPaths tileTypeName
= (if String.eqb "Grass" tileTypeName then
     Own (mkTileAssetConfig (grassTile assetPaths) None None None
                            (Some (grassDirtAutotile assetPaths))
                            (Some 213) (Some 6) (Some 6))
   else if String.eqb "Dirt" tileTypeName then
     Own (mkTileAssetConfig (dirtTile assetPaths) None None None None None None None)
   else if String.eqb "DirtRoad" tileTypeName then
     Own (mkTileAssetConfig (dirtRoadTile assetPaths) None None None None None None
                            None)
   else if String.eqb "Sea" tileTypeName then
     Own (mkTileAssetConfig (seaTile assetPaths) None None None None None None None)
   else if String.eqb "Beach" tileTypeName then
     Own (mkTileAssetConfig (beachTile assetPaths) None None None
                            (Some (beachSeaAutotile assetPaths))
                            (Some 213) (Some 6) (Some 8))
   else if String.eqb "Sand" tileTypeName then
     Own (mkTileAssetConfig (beachTile assetPaths) None None None None None None None)
   else if existsb (String.eqb tileTypeName) objectPrototypeKeys then Inherited
   else Missing).
Proof.
unfold lookupTileAsset, TILE_ASSETS. cbn [List.find fst snd].
repeat match goal with
       | |- context [String.eqb ?k tileTypeName] =>
           destruct (String.eqb k tileTypeName); [reflexivity|]
       end.
reflexivity.
Qed.

(** X17.  [getAutotileConfig] returns a config for the tile types Grass and
  Beach and [null] for every other name, whether the name is another tile
  type, a member inherited from [Object.prototype] or no property at all:
  213 px sprites in 6 columns, with 6 rows for Grass and 8 for Beach (the
  [||] defaults never apply).  [hasAutotileSupport] is truthy exactly when
  a config is returned; its falsy answer is [undefined], not [false], for
  a name that is no property of [TILE_ASSETS]. *)
Theorem autotile_support_grass_and_beach (tileTypeName : string) :
grassDirtAutotile assetPaths <> ""%string ->
beachSeaAutotile assetPaths <> ""%string ->
getAutotileConfig assetPaths tileTypeName
= (if String.eqb "Grass" tileTypeName
   then Some (mkAutotileConfig (grassDirtAutotile assetPaths) 213 6 6)
   else if String.eqb "Beach" tileTypeName
        then Some (mkAutotileConfig (beachSeaAutotile assetPaths) 213 6 8)
        else None) /\
(truthy (hasAutotileSupport assetPaths tileTypeName) = true
 <-> getAutotileConfig assetPaths tileTypeName <> None) /\
(hasAutotileSupport assetPaths tileTypeName = None
 <-> lookupTileAsset assetPaths tileTypeName = Missing).
Proof.
intros Hgrass Hbeach.
apply String.eqb_neq in Hgrass. apply String.eqb_neq in Hbeach.
unfold getAutotileConfig, hasAutotileSupport. rewrite lookup_own.
repeat match goal with
       | |- context [String.eqb ?k tileTypeName] =>
           destruct (String.eqb_spec k tileTypeName) as [<-|?];
             [cbn [String.eqb Ascii.eqb Bool.eqb autotileSheet autotileSize
                   autotileColumns autotileRows];
              unfold truthyString; rewrite ?Hgrass, ?Hbeach; cbn [negb truthy];
              repeat split; try reflexivity; try discriminate;
              try (intros H; exfalso; apply H; reflexivity)|]
       end.
destruct (existsb _ _); cbn [truthy];
  repeat split; try reflexivity; try discriminate;
  try (intros H; exfalso; apply H; reflexivity).
Qed.

Lemma pushPaths_shape (acc : list string) (entry : string * TileAssetConfig) :
exists tail,
  pushPaths acc entry = acc ++ baseTexture (snd entry) :: tail /\
  (forall path, autotileSheet (snd entry) = Some path ->
                truthyString (Some path) = true -> In path tail).
Proof.
unfold pushPaths.
destruct (variants (snd entry)) as [vs|], (animationFrames (snd entry)) as [fs|],
  (autotileSheet (snd entry)) as [p|];
  try destruct (truthyString (Some p)) eqn:Hp;
  repeat rewrite <- app_assoc; cbn [app];
  eexists; (split; [reflexivity|]);
  intros path Hpath Htruthy; try discriminate;
  inversion Hpath; subst path; try congruence;
  repeat (apply in_or_app; right); left; reflexivity.
Qed.

Lemma fold_pushPaths_keeps (entries : list (string * TileAssetConfig))
  (acc : list string) (path : string) :
In path acc -> In path (fold_left pushPaths entries acc).
Proof.
revert acc. induction entries as [|entry rest IH]; intros acc H; [exact H|].
cbn [fold_left]. apply IH.
destruct (pushPaths_shape acc entry) as (tail & -> & _).
apply in_or_app. left. exact H.
Qed.

Lemma fold_pushPaths_adds (entries : list (string * TileAssetConfig))
  (acc : list string) (entry : string * TileAssetConfig) :
In entry entries ->
In (baseTexture (snd entry)) (fold_left pushPaths entries acc) /\
(forall path, autotileSheet (snd entry) = Some path ->
              truthyString (Some path) = true ->
              In path (fold_left pushPaths entries acc)).
Proof.
revert acc. induction entries as [|first rest IH]; intros acc Hin; [destruct Hin|].
cbn [fold_left]. destruct Hin as [->|Hin]; [|apply IH; exact Hin].
destruct (pushPaths_shape acc entry) as (tail & -> & Hsheet).
split.
- apply fold_pushPaths_keeps. apply in_or_app. right. left. reflexivity.
- intros path H1 H2. apply fold_pushPaths_keeps.
  apply in_or_app. right. right. apply Hsheet; assumption.
Qed.

(** X18.  Whatever the imported asset paths are, the list of
  [getAllTileAssetPaths] holds the base texture of every tile type and
  every autotile sheet that [getAutotileConfig] can return: no texture
  that the two lookups hand out is missing from the list. *)
Theorem asset_paths_cover_lookups (tileTypeName : string) :
(forall tileConfig,
    lookupTileAsset assetPaths tileTypeName = Own tileConfig ->
    In (baseTexture tileConfig) (getAllTileAssetPaths assetPaths)) /\
(forall autotile,
    getAutotileConfig assetPaths tileTypeName = Some autotile ->
    In (sheet autotile) (getAllTileAssetPaths assetPaths)).
Proof.
assert (forall tileConfig,
           lookupTileAsset assetPaths tileTypeName = Own tileConfig ->
           In (tileTypeName, tileConfig) (TILE_ASSETS assetPaths)) as Hown.
{ intros tileConfig. unfold lookupTileAsset.
  destruct (List.find _ (TILE_ASSETS assetPaths)) as [entry|] eqn:E.
  - intros H. inversion H; subst tileConfig.
    apply find_some in E. destruct E as [Hin Hkey].
    apply String.eqb_eq in Hkey. subst tileTypeName.
    destruct entry. exact Hin.
  - destruct (existsb _ _); discriminate. }
split.
- intros tileConfig Hlookup.
  exact (proj1 (fold_pushPaths_adds (TILE_ASSETS assetPaths) []
                  (tileTypeName, tileConfig) (Hown _ Hlookup))).
- intros autotile. unfold getAutotileConfig.
  destruct (lookupTileAsset assetPaths tileTypeName) as [tileConfig| |] eqn:Hlookup;
    try discriminate.
  specialize (Hown tileConfig eq_refl).
  destruct (autotileSheet tileConfig) as [path|] eqn:Hsheet; [|discriminate].
  destruct (truthyString (Some path)) eqn:Htruthy; [|discriminate].
  intros H. inversion H; subst autotile. cbn [sheet].
  exact (proj2 (fold_pushPaths_adds (TILE_ASSETS assetPaths) []
                  (tileTypeName, tileConfig) Hown) path Hsheet Htruthy).
Qed.

(** X19.  [getTileAssetKey] prefixes every key with the tile type name, and
  it returns the base key [<name>_base] exactly when no autotile key is
  given (an empty string counts as none), no frame index is given and the
  variant is absent or not above 128. *)
Theorem base_key_when_nothing_else_applies (tileTypeName : string)
  (variant frameIndex : option Q) (autotileKey : option string) :
(exists suffix,
    getTileAssetKey numberToString tileTypeName variant frameIndex autotileKey
    = (tileTypeName ++ "_" ++ suffix)%string) /\
(getTileAssetKey numberToString tileTypeName variant frameIndex autotileKey
 = (tileTypeName ++ "_base")%string
 <-> truthyString autotileKey = false /\ frameIndex = None /\
     match variant with Some v => v <= 128 | None => True end).
Proof.
unfold getTileAssetKey.
assert (forall s : string, (tileTypeName ++ "_autotile_" ++ s
                            <> tileTypeName ++ "_base")%string) as Hautotile.
{ intros s H. apply append_inj_l in H. discriminate. }
assert (forall s : string, (tileTypeName ++ "_frame" ++ s
                            <> tileTypeName ++ "_base")%string) as Hframe.
{ intros s H. apply append_inj_l in H. discriminate. }
assert (forall s : string, (tileTypeName ++ "_variant" ++ s
                            <> tileTypeName ++ "_base")%string) as Hvariant.
{ intros s H. apply append_inj_l in H. discriminate. }
split.
- destruct autotileKey as [key|]; [destruct (truthyString (Some key))|];
    try (eexists; reflexivity);
    (destruct frameIndex as [frame|]; [eexists; reflexivity|]);
    (destruct variant as [v|]; [destruct (Qgt_bool v 128)|]);
    eexists; reflexivity.
- destruct autotileKey as [key|]; [destruct (truthyString (Some key)) eqn:Hkey|].
  + split; [intros H; exfalso; exact (Hautotile _ H)|].
    intros (H & _). discriminate.
  + destruct frameIndex as [frame|].
    * split; [intros H; exfalso; exact (Hframe _ H)|].
      intros (_ & H & _). discriminate.
    * destruct variant as [v|]; [destruct (Qgt_bool v 128) eqn:Hv|].
      -- apply Qgt_bool_iff in Hv.
         split; [intros H; exfalso; exact (Hvariant _ H)|].
         intros (_ & _ & H). exfalso. lra.
      -- unfold Qgt_bool in Hv. apply Qlt_bool_false_iff in Hv. tauto.
      -- tauto.
  + destruct frameIndex as [frame|].
    * split; [intros H; exfalso; exact (Hframe _ H)|].
      intros (_ & H & _). discriminate.
    * destruct variant as [v|]; [destruct (Qgt_bool v 128) eqn:Hv|].
      -- apply Qgt_bool_iff in Hv.
         split; [intros H; exfalso; exact (Hvariant _ H)|].
         intros (_ & _ & H). exfalso. lra.
      -- unfold Qgt_bool in Hv. apply Qlt_bool_false_iff in Hv.
         cbn [truthyString]. tauto.
      -- cbn [truthyString]. tauto.
Qed.

End TileAssetFacts.

Lemma autotile_support_grass_and_beach_witness :
  TileAssets.getAutotileConfig bundledPaths "Beach"
  = Some (TileAssets.mkAutotileConfig "/assets/tileset_beach_sea_autotile.png"
                                      213 6 8).
Proof.
  exact (proj1 (autotile_support_grass_and_beach bundledPaths "Beach"
                  ltac:(discriminate) ltac:(discriminate))).
Defined.

(** ** Hotbar *)

Section HotbarFacts.
Import Hotbar.
Variable playerIdentity : option string.
Variable itemDefinitions : gmap string ItemDefinition.
Variable inventoryItems : JsMap InventoryItem.
Variable connection : Connection.
Variable interactingWith : option (string * Z).
Variable parseInt : string -> option Z.

Lemma findIn_sound (me : string) (slotIndex : Z) (items : list InventoryItem)
  (found : PopulatedItem) :
findIn itemDefinitions me slotIndex items = Some found ->
In (instance found) items /\
location (instance found) = InHotbar me slotIndex /\
itemDefinitions !! pretty (itemDefId (instance found)) = Some (definition found).
Proof.
induction items as [|item rest IH]; [discriminate|].
cbn [findIn]. intros H.
assert (findIn itemDefinitions me slotIndex rest = Some found ->
        In (instance found) (item :: rest) /\
        location (instance found) = InHotbar me slotIndex /\
        itemDefinitions !! pretty (itemDefId (instance found))
        = Some (definition found)) as Hrest.
{ intros Hr. destruct (IH Hr) as (H1 & H2 & H3).
  repeat split; [right; exact H1 | exact H2 | exact H3]. }
destruct (location item) as [ownerId slot|tag] eqn:Hloc; [|exact (Hrest H)].
destruct (String.eqb ownerId me && (slot =? slotIndex)%Z) eqn:Hmatch;
  [|exact (Hrest H)].
destruct (itemDefinitions !! pretty (itemDefId item)) as [def|] eqn:Hdef;
  [|exact (Hrest H)].
inversion H; subst found. cbn [instance definition].
apply andb_true_iff in Hmatch. destruct Hmatch as [Howner Hslot].
apply String.eqb_eq in Howner. apply Z.eqb_eq in Hslot. subst.
repeat split; [left; reflexivity | exact Hloc | exact Hdef].
Qed.

Lemma findIn_complete (me : string) (slotIndex : Z) (items : list InventoryItem) :
findIn itemDefinitions me slotIndex items = None ->
forall item, In item items -> location item = InHotbar me slotIndex ->
             itemDefinitions !! pretty (itemDefId item) = None.
Proof.
induction items as [|first rest IH]; intros H item Hin Hloc; [destruct Hin|].
cbn [findIn] in H.
destruct Hin as [->|Hin].
- rewrite Hloc, String.eqb_refl, Z.eqb_refl in H. cbn [andb] in H.
  destruct (itemDefinitions !! pretty (itemDefId item)); [discriminate | reflexivity].
- apply IH; try assumption.
  destruct (location first) as [ownerId slot|tag]; [|exact H].
  destruct (String.eqb ownerId me && (slot =? slotIndex)%Z); [|exact H].
  destruct (itemDefinitions !! pretty (itemDefId first)); [discriminate | exact H].
Qed.

(** X20.  [findItemForSlot] returns an inventory item that is in the asked
  hotbar slot of the player and whose definition is known, together with
  that definition; it returns [null] exactly when there is no player
  identity or no item of the inventory is in that slot of the player with
  a known definition (an item without a definition is passed over). *)
Theorem findItemForSlot_finds_the_slot_item (slotIndex : Z) :
(forall found,
    findItemForSlot playerIdentity itemDefinitions inventoryItems slotIndex
    = Some found ->
    exists me,
      playerIdentity = Some me /\
      In (instance found) (values inventoryItems) /\
      location (instance found) = InHotbar me slotIndex /\
      itemDefinitions !! pretty (itemDefId (instance found))
      = Some (definition found)) /\
(findItemForSlot playerIdentity itemDefinitions inventoryItems slotIndex = None <->
 forall me item,
   playerIdentity = Some me -> In item (values inventoryItems) ->
   location item = InHotbar me slotIndex ->
   itemDefinitions !! pretty (itemDefId item) = None).
Proof.
unfold findItemForSlot. split.
- intros found H. destruct playerIdentity as [me|]; [|discriminate].
  exists me. split; [reflexivity|]. apply findIn_sound. exact H.
- destruct playerIdentity as [me|].
  + split.
    * intros H me' item Hme. inversion Hme; subst me'.
      apply findIn_complete. exact H.
    * intros H.
      destruct (findIn itemDefinitions me slotIndex (values inventoryItems))
        as [found|] eqn:E; [|reflexivity].
      destruct (findIn_sound me slotIndex _ found E) as (H1 & H2 & H3).
      rewrite (H me (instance found) eq_refl H1 H2) in H3. discriminate.
  + split; [|reflexivity]. intros _ me item Hme. discriminate.
Qed.

(** X21.  With a live connection and the inventory panel closed, pressing
  the key of a hotbar slot and clicking that slot have the same effects,
  in the same order: the slot is selected and the item in it, if any,
  decides the calls.  With the inventory panel open the key press has no
  effect, while a click on the slot still acts. *)
Theorem key_press_equals_click_when_connected (inventoryPanel : bool)
  (key : string) (keyNum : Z) :
connection = Connected ->
parseInt key = Some keyNum -> (1 <= keyNum <= 6)%Z ->
handleKeyDown playerIdentity itemDefinitions inventoryItems connection parseInt
              inventoryPanel key
= (if inventoryPanel then []
   else handleSlotClick playerIdentity itemDefinitions inventoryItems connection
                        (keyNum - 1)) /\
(exists calls,
    handleSlotClick playerIdentity itemDefinitions inventoryItems connection
                    (keyNum - 1)
    = SetSelectedSlot (keyNum - 1) :: calls).
Proof.
intros -> Hkey [H1 H6]. split.
- unfold handleKeyDown, handleSlotClick, numSlots.
  destruct inventoryPanel; [reflexivity|].
  rewrite Hkey.
  assert ((1 <=? keyNum)%Z && (keyNum <=? 6)%Z = true) as ->.
  { apply andb_true_iff. split; apply Z.leb_le; assumption. }
  cbn [hasReducers negb]. cbv zeta.
  destruct (findItemForSlot _ _ _ _) as [item|]; reflexivity.
- unfold handleSlotClick. cbv zeta. eexists. reflexivity.
Qed.

Lemma clearActiveItem_calls :
(reducerCalls (clearActiveItem playerIdentity) <= 1)%nat /\
placementCalls (clearActiveItem playerIdentity) = O.
Proof.
unfold clearActiveItem. destruct playerIdentity; cbn; lia.
Qed.

(** X22.  A key press with the inventory panel open, or whose key does not
  parse to a number from 1 to 6, has no effect at all.  Any other key
  press selects slot [keyNum - 1], an index from 0 to 5, and nothing else
  is ever selected; without reducers it does nothing more; with a live
  connection it calls [cancelPlacement] or [startPlacement] exactly once
  and at most one reducer. *)
Theorem key_press_effects (inventoryPanel : bool) (key : string) :
let effects := handleKeyDown playerIdentity itemDefinitions inventoryItems
                             connection parseInt inventoryPanel key in
let valid := negb inventoryPanel
             && match parseInt key with
                | Some keyNum => (1 <=? keyNum)%Z && (keyNum <=? 6)%Z
                | None => false
                end in
(valid = false -> effects = []) /\
(valid = true ->
 exists keyNum rest,
   parseInt key = Some keyNum /\ (0 <= keyNum - 1 <= 5)%Z /\
   effects = SetSelectedSlot (keyNum - 1) :: rest /\
   Forall (fun effect => match effect with
                         | SetSelectedSlot _ => False
                         | _ => True
                         end) rest /\
   (reducerCalls rest <= 1)%nat /\
   placementCalls rest = (if hasReducers connection then 1%nat else O) /\
   (hasReducers connection = false -> rest = [])).
Proof.
cbv zeta. unfold handleKeyDown, numSlots.
destruct inventoryPanel; cbn [negb andb]; [split; [reflexivity | discriminate]|].
destruct (parseInt key) as [keyNum|]; [|split; [reflexivity | discriminate]].
destruct ((1 <=? keyNum)%Z && (keyNum <=? 6)%Z) eqn:Hrange;
  [|split; [reflexivity | discriminate]].
split; [discriminate|]. intros _.
apply andb_true_iff in Hrange. destruct Hrange as [H1 H6].
apply Z.leb_le in H1. apply Z.leb_le in H6.
eexists keyNum, _. split; [reflexivity|]. split; [lia|].
split; [reflexivity|].
destruct clearActiveItem_calls as [Hclear1 Hclear2].
assert (Forall (fun effect => match effect with
                              | SetSelectedSlot _ => False
                              | _ => True
                              end) (clearActiveItem playerIdentity)) as Hclear3.
{ unfold clearActiveItem. destruct playerIdentity; repeat constructor. }
destruct (hasReducers connection); cbn [negb];
  [|repeat split; try reflexivity; try constructor; cbn; lia].
destruct (findItemForSlot _ _ _ _) as [item|].
- cbv zeta.
  destruct (String.eqb (categoryTag (definition item)) "Consumable");
    [repeat split; try discriminate; repeat constructor|].
  destruct (String.eqb (categoryTag (definition item)) "Armor");
    [repeat split; try discriminate; repeat constructor|].
  destruct (String.eqb (categoryTag (definition item)) "Placeable").
  { unfold reducerCalls, placementCalls in *. cbn [List.filter isReducerCall
      isPlacementCall length].
    repeat split; try discriminate; try (constructor; [exact I | exact Hclear3]);
      lia. }
  destruct (isEquippable (definition item));
    [repeat split; try discriminate; repeat constructor|].
  unfold reducerCalls, placementCalls in *. cbn [List.filter isReducerCall
    isPlacementCall length].
  repeat split; try discriminate; try (constructor; [exact I | exact Hclear3]);
    lia.
- unfold reducerCalls, placementCalls in *. cbn [List.filter isReducerCall
    isPlacementCall length].
  repeat split; try discriminate; try (constructor; [exact I | exact Hclear3]);
    lia.
Qed.

(** X23.  The context menu of a hotbar item always prevents the default
  menu and stops the event.  Without reducers it does nothing more.  With
  a live connection an open container takes precedence over the item's
  category: the item is quick-moved to the open storage box, campfire or
  corpse; only when none of the three is open is an armor piece with an
  equipment slot equipped, and any other item is left alone.  At most one
  reducer is called. *)
Theorem context_menu_prefers_open_container (itemInfo : PopulatedItem) :
let effects := handleHotbarItemContextMenu connection interactingWith itemInfo in
let itemInstanceId := instanceId (instance itemInfo) in
exists rest,
  effects = PreventDefault :: StopPropagation :: rest /\
  (reducerCalls rest <= 1)%nat /\ length rest = reducerCalls rest /\
  (hasReducers connection = false -> rest = []) /\
  (hasReducers connection = true ->
   forall id,
     (interactingWith = Some ("wooden_storage_box"%string, id) ->
      rest = [QuickMoveToBox id itemInstanceId]) /\
     (interactingWith = Some ("campfire"%string, id) ->
      rest = [QuickMoveToCampfire id itemInstanceId]) /\
     (interactingWith = Some ("player_corpse"%string, id) ->
      rest = [QuickMoveToCorpse id itemInstanceId])) /\
  (hasReducers connection = true -> interactingWith = None ->
   rest = if String.eqb (categoryTag (definition itemInfo)) "Armor"
             && defined (equipmentSlotType (definition itemInfo))
          then [EquipArmorFromInventory itemInstanceId] else []).
Proof.
cbv zeta. unfold handleHotbarItemContextMenu.
eexists. split; [reflexivity|].
destruct (hasReducers connection); cbn [negb].
2:{ repeat split; try reflexivity; try discriminate; cbn; lia. }
unfold interactingWithType, interactingId.
destruct interactingWith as [[type id]|]; cbn [fst snd].
- destruct (String.eqb type "wooden_storage_box") eqn:Ebox.
  { apply String.eqb_eq in Ebox. subst type.
    repeat split; try reflexivity; try discriminate; try (cbn; lia);
      intros Hopen; inversion Hopen; reflexivity. }
  destruct (String.eqb type "campfire") eqn:Efire.
  { apply String.eqb_eq in Efire. subst type.
    repeat split; try reflexivity; try discriminate; try (cbn; lia);
      intros Hopen; inversion Hopen; reflexivity. }
  destruct (String.eqb type "player_corpse") eqn:Ecorpse.
  { apply String.eqb_eq in Ecorpse. subst type.
    repeat split; try reflexivity; try discriminate; try (cbn; lia);
      intros Hopen; inversion Hopen; reflexivity. }
  apply String.eqb_neq in Ebox, Efire, Ecorpse.
  cbv zeta.
  destruct (String.eqb (categoryTag (definition itemInfo)) "Armor"
            && defined (equipmentSlotType (definition itemInfo)));
    repeat split; try reflexivity; try discriminate; try (cbn; lia);
    intros Hopen; inversion Hopen; congruence.
- cbv zeta.
  destruct (String.eqb (categoryTag (definition itemInfo)) "Armor"
            && defined (equipmentSlotType (definition itemInfo)));
    repeat split; try reflexivity; try discriminate; cbn; lia.
Qed.

End HotbarFacts.

Lemma key_press_equals_click_when_connected_witness :
  Hotbar.handleKeyDown (Some "c200a1"%string) sampleDefinitions sampleInventory
                       Hotbar.Connected digitKey false "2"
  = [Hotbar.SetSelectedSlot 1; Hotbar.CancelPlacement; Hotbar.ConsumeItem 2] /\
  Hotbar.handleKeyDown (Some "c200a1"%string) sampleDefinitions sampleInventory
                       Hotbar.Connected digitKey true "2" = [].
Proof.
  split.
  - rewrite (proj1 (key_press_equals_click_when_connected (Some "c200a1"%string)
                      sampleDefinitions sampleInventory Hotbar.Connected digitKey
                      false "2" 2 eq_refl eq_refl ltac:(lia))).
    vm_compute. reflexivity.
  - rewrite (proj1 (key_press_equals_click_when_connected (Some "c200a1"%string)
                      sampleDefinitions sampleInventory Hotbar.Connected digitKey
                      true "2" 2 eq_refl eq_refl ltac:(lia))).
    reflexivity.
Defined.
